(** * KLUE relation extraction: the evaluation metrics and the label codec of
      [HiddenEmb/train.py]

    The script computes three diagnostics from the predictions of a
    30-class relation classifier (micro F1 without [no_relation], the mean
    area under the per-class precision-recall curves, and accuracy), turns
    string labels into indices through a pickled dictionary, and hands
    everything to an external trainer.

    Conventions of the embedding.
    - Python exceptions are the [Raise] branch of [outcome]; code that
      cannot raise is a plain function.
    - numpy integer arrays are [list Z]; 2-D arrays are lists of rows.
    - float64 values are exact rationals [Q]: rounding is not modelled.
      Where numpy can produce a not-a-number (the division 0/0), the value
      has type [float], which adds [NaN] to the rationals.
    - the functions of numpy and scikit-learn that the script calls are
      embedded in the modules [np] and [sklearn], following the
      implementation of scikit-learn 1.0 (the release current when the
      script was written), restricted to the arguments the script passes.
      The script pins no release. Later releases keep the points of the
      precision-recall curve beyond full recall and give a class without
      positive examples recall 1 instead of 0/0; the first changes no
      area, the second changes the area of such a class only, so the
      statements on values are made for classes that have an example.
    - the warnings of scikit-learn do not change a value; where a
      statement is about them they are computed by a function on the side.
    - the arguments of the script are the names of the attributes of the
      parsed namespace; what a library does with their values is outside
      the script. *)

From Stdlib Require Import ZArith QArith Lqa Lia List Bool String Sorted Permutation.
From stdpp Require Import base option list strings gmap sorting.
Import ListNotations.

Local Open Scope Z_scope.

(** ** Exceptions *)

Inductive exn : Type :=
| IndexError
| ValueError
| KeyError (key : string)
| FileNotFoundError (path : string)
| AttributeError (name : string).

Inductive outcome (A : Type) : Type :=
| Return (a : A)
| Raise (e : exn).

Arguments Return {A} a.
Arguments Raise {A} e.

#[export] Instance outcome_ret : MRet outcome := @Return.

#[export] Instance outcome_bind : MBind outcome := fun A B k m =>
  match m with
  | Return a => k a
  | Raise e => Raise e
  end.

(** Runs [f] on the elements from left to right; the first exception ends
    the traversal. *)
Fixpoint traverse {A B : Type} (f : A -> outcome B) (l : list A) : outcome (list B) :=
  match l with
  | [] => Return []
  | a :: l' => b ← f a; bs ← traverse f l'; Return (b :: bs)
  end.

Definition returns {A : Type} (m : outcome A) : Prop := exists a, m = Return a.

(** ** Floating point values that may be not-a-number *)

Inductive float : Type :=
| Fin (q : Q)
| NaN.

Module Float.

Definition lift2 (op : Q -> Q -> Q) (x y : float) : float :=
  match x, y with
  | Fin a, Fin b => Fin (op a b)
  | _, _ => NaN
  end.

Definition add := lift2 Qplus.
Definition sub := lift2 Qminus.
Definition mul := lift2 Qmult.

(** Division. The metrics never divide a non-zero value by zero: their
    denominators are a positive number of examples, the constant 2.0, or
    the last true-positive count, which is zero only when every count is.
    So the only division by zero is 0/0, which is NaN, and the infinities
    are left out of [float]. *)
Definition div (x y : float) : float :=
  match x, y with
  | Fin a, Fin b => if Qeq_bool b 0 then NaN else Fin (a / b)
  | _, _ => NaN
  end.

(** Comparisons with NaN are false. *)
Definition ltb (x y : float) : bool :=
  match x, y with
  | Fin a, Fin b => negb (Qle_bool b a)
  | _, _ => false
  end.

Definition leb (x y : float) : bool :=
  match x, y with
  | Fin a, Fin b => Qle_bool a b
  | _, _ => false
  end.

Definition of_Z (z : Z) : float := Fin (inject_Z z).

(** Equality of values: rationals up to [Qeq], NaN only with NaN. *)
Definition eqv (x y : float) : Prop :=
  match x, y with
  | Fin a, Fin b => (a == b)%Q
  | NaN, NaN => True
  | _, _ => False
  end.

End Float.

(** ** Python lists *)

Module py.

(** [l.index(x)]: position of the first occurrence, ValueError if none. *)
Fixpoint index (x : string) (l : list string) : outcome Z :=
  match l with
  | [] => Raise ValueError
  | y :: l' => if String.eqb y x then Return 0
               else i ← index x l'; Return (i + 1)
  end.

(** [list(range(n))] *)
Definition range (n : nat) : list Z := map Z.of_nat (seq 0 n).

(** [l.remove(x)]: drops the first occurrence, ValueError if none. *)
Fixpoint remove (x : Z) (l : list Z) : outcome (list Z) :=
  match l with
  | [] => Raise ValueError
  | y :: l' => if Z.eqb y x then Return l'
               else r ← remove x l'; Return (y :: r)
  end.

End py.

(** ** numpy *)

Module np.

(** [np.sum] of a 1-D array *)
Definition sum (x : list Q) : Q := fold_right Qplus 0%Q x.

Definition sumZ (x : list Z) : Z := fold_right Z.add 0 x.

(** [np.average(x)] without weights: the sum over the number of elements
    (NaN for an empty array, where numpy divides 0 by 0). *)
Definition average (x : list float) : float :=
  Float.div (fold_right Float.add (Fin 0) x) (Float.of_Z (Z.of_nat (length x))).

(** [np.bincount(x)[c]]: the number of entries of [x] equal to [c]. *)
Definition bincount (x : list Z) (c : Z) : Z :=
  Z.of_nat (length (List.filter (Z.eqb c) x)).

(** [np.eye(n)]: row [i] is 1.0 at column [i] and 0.0 elsewhere. *)
Definition eye (n : nat) : list (list Q) :=
  map (fun i => map (fun j => if Nat.eqb i j then 1%Q else 0%Q) (seq 0 n)) (seq 0 n).

(** One integer index into an axis of length [n]: negative indices count
    from the end, anything outside [-n, n) is an IndexError. *)
Definition normalize_index (n : nat) (i : Z) : outcome nat :=
  if (0 <=? i) && (i <? Z.of_nat n) then Return (Z.to_nat i)
  else if (- Z.of_nat n <=? i) && (i <? 0) then Return (Z.to_nat (i + Z.of_nat n))
  else Raise IndexError.

(** [a[idx]] for a 2-D array [a] and a 1-D integer array [idx]: the rows
    of [a] picked by [idx], in the order of [idx]. *)
Definition getitem_rows {A : Type} (a : list (list A)) (idx : list Z)
  : outcome (list (list A)) :=
  traverse (fun i => k ← normalize_index (length a) i;
                     match nth_error a k with
                     | Some row => Return row
                     | None => Raise IndexError
                     end) idx.

(** [a.take([c], axis=1).ravel()]: column [c] of a 2-D array, IndexError
    when the rows are too short. *)
Definition take_column {A : Type} (a : list (list A)) (c : nat) : outcome (list A) :=
  traverse (fun row => match nth_error row c with
                       | Some v => Return v
                       | None => Raise IndexError
                       end) a.

(** [np.cumsum] *)
Fixpoint cumsum_from (acc : Q) (x : list Q) : list Q :=
  match x with
  | [] => []
  | v :: x' => (acc + v)%Q :: cumsum_from (acc + v)%Q x'
  end.

Definition cumsum (x : list Q) : list Q := cumsum_from 0%Q x.

(** [np.diff(x)]: [x[i+1] - x[i]] *)
Fixpoint diff {A : Type} (sub : A -> A -> A) (x : list A) : list A :=
  match x with
  | a :: (b :: _) as x' => sub b a :: diff sub x'
  | _ => []
  end.

(** [np.where(x)[0]]: the positions of the non-zero entries. *)
Fixpoint where_from (i : nat) (x : list Q) : list nat :=
  match x with
  | [] => []
  | v :: x' => if Qeq_bool v 0 then where_from (S i) x'
               else i :: where_from (S i) x'
  end.

Definition where_ (x : list Q) : list nat := where_from 0 x.

(** [a[idx]] for 1-D [a] and in-range positions [idx]. *)
Definition getitem {A : Type} (d : A) (a : list A) (idx : list nat) : list A :=
  map (fun i => nth i a d) idx.

(** [a.searchsorted(v)] (side "left") on a sorted array: the position of
    the first entry that is not below [v]. *)
Fixpoint searchsorted (a : list Q) (v : Q) : nat :=
  match a with
  | [] => 0%nat
  | x :: a' => if Qle_bool v x then 0%nat else S (searchsorted a' v)
  end.

(** [a[i::-1]] for [0 <= i]: entries [i], [i-1], ..., [0]. *)
Definition slice_down {A : Type} (a : list A) (i : nat) : list A :=
  rev (firstn (S i) a).

(** Stable sort by increasing score, as [np.argsort(kind="mergesort")]
    orders the samples: equal scores keep their order. *)
Fixpoint insert_by_score {A : Type} (s : Q * A) (l : list (Q * A)) : list (Q * A) :=
  match l with
  | [] => [s]
  | t :: l' => if Qle_bool (fst s) (fst t) then s :: l
               else t :: insert_by_score s l'
  end.

Fixpoint sort_by_score {A : Type} (l : list (Q * A)) : list (Q * A) :=
  match l with
  | [] => []
  | s :: l' => insert_by_score s (sort_by_score l')
  end.

(** [np.trapz(y, x)]: [sum(diff(x) * (y[1:] + y[:-1]) / 2.0)] *)
Definition trapz (y x : list float) : float :=
  let d := diff Float.sub x in
  let m := map (fun ab : float * float => Float.add (fst ab) (snd ab))
               (combine (tl y) (removelast y)) in
  fold_right Float.add (Fin 0)
    (map (fun dm : float * float => Float.div (Float.mul (fst dm) (snd dm)) (Fin 2))
         (combine d m)).

(** [a.argmax(-1)] on one row: the position of the first largest entry,
    ValueError on an empty row. *)
Fixpoint argmax_from (best : Q) (besti i : nat) (row : list Q) : nat :=
  match row with
  | [] => besti
  | v :: row' => if Qle_bool v best then argmax_from best besti (S i) row'
                 else argmax_from v i (S i) row'
  end.

Definition argmax (row : list Q) : outcome Z :=
  match row with
  | [] => Raise ValueError
  | v :: row' => Return (Z.of_nat (argmax_from v 0 1 row'))
  end.

End np.

(** ** scikit-learn: classification metrics *)

Module sklearn.

(** [check_consistent_length]: ValueError unless the arrays have the same
    number of samples. *)
Definition check_consistent_length {A B : Type} (a : list A) (b : list B) : outcome unit :=
  if Nat.eqb (length a) (length b) then Return tt else Raise ValueError.

(** One 2x2 table of [multilabel_confusion_matrix]. *)
Record confusion : Type := { tn : Z; fp : Z; fn : Z; tp : Z }.

(** [multilabel_confusion_matrix(y_true, y_pred, labels=labels)] on
    multiclass targets. The library encodes the labels as positions in
    their sorted list, counts with [bincount] and reads the counts of the
    requested labels back; the encoding is left out here, label [c] is
    counted directly. *)
Definition multilabel_confusion_matrix (y_true y_pred : list Z) (labels : list Z)
  : outcome (list confusion) :=
  _ ← check_consistent_length y_true y_pred;
  let tp_bins := map fst (List.filter (fun tp => Z.eqb (fst tp) (snd tp)) (combine y_true y_pred)) in
  Return (map (fun c =>
    let tp_sum := np.bincount tp_bins c in
    let pred_sum := np.bincount y_pred c in
    let true_sum := np.bincount y_true c in
    let fp := pred_sum - tp_sum in
    let fn := true_sum - tp_sum in
    {| tn := Z.of_nat (length y_true) - tp_sum - fp - fn;
       fp := fp; fn := fn; tp := tp_sum |}) labels).

(** [_prf_divide] with [zero_division="warn"]: element-wise division in
    which a zero denominator gives 0 instead of an error. *)
Definition _prf_divide (numerator denominator : list Q) : list Q :=
  map (fun nd : Q * Q =>
         let (n, d) := nd in
         if Qeq_bool d 0 then 0%Q else (n / d)%Q)
      (combine numerator denominator).

Inductive averaging : Type := micro.

(** [precision_recall_fscore_support(y_true, y_pred, beta=1.0,
    labels=labels, average="micro")], the F-score component. *)
Definition fbeta_score_micro (beta : Q) (y_true y_pred : list Z) (labels : list Z)
  : outcome Q :=
  MCM ← multilabel_confusion_matrix y_true y_pred labels;
  let tp_sum := map tp MCM in
  let pred_sum := map (fun m => tp m + fp m) MCM in
  let true_sum := map (fun m => tp m + fn m) MCM in
  (* average == "micro": pool the counts of all requested labels *)
  let tp_sum := [inject_Z (np.sumZ tp_sum)] in
  let pred_sum := [inject_Z (np.sumZ pred_sum)] in
  let true_sum := [inject_Z (np.sumZ true_sum)] in
  let beta2 := (beta * beta)%Q in
  let precision := _prf_divide tp_sum pred_sum in
  let recall := _prf_divide tp_sum true_sum in
  let f_score :=
    map (fun pr : Q * Q =>
           let (p, r) := pr in
           let denom := (beta2 * p + r)%Q in
           let denom := if Qeq_bool denom 0 then 1%Q else denom in
           ((1 + beta2) * p * r / denom)%Q)
        (combine precision recall) in
  Return (np.sum f_score / inject_Z (Z.of_nat (length f_score)))%Q.

(** [f1_score(y_true, y_pred, average="micro", labels=labels)] *)
Definition f1_score (y_true y_pred : list Z) (avg : averaging) (labels : list Z)
  : outcome Q :=
  match avg with
  | micro => fbeta_score_micro 1 y_true y_pred labels
  end.

(** The warnings of the same calls. The value above does not depend on
    them, so they are computed on the side. *)
Inductive warning : Type :=
| UndefinedMetricWarning (metric : string).

(** [_prf_divide] warns when some denominator is zero and the metric it
    computes is one of [warn_for]. *)
Definition _prf_divide_warnings (denominator : list Q) (metric : string)
    (warn_for : list string) : list warning :=
  if negb (existsb (fun d => Qeq_bool d 0) denominator) then []
  else if negb (existsb (String.eqb metric) warn_for) then []
  else [UndefinedMetricWarning metric].

(** The F-score is computed with [warn_for=("f-score",)]: the two
    divisions stay silent, and the F-score itself is reported only where
    the predicted and the true counts are both zero. *)
Definition fbeta_score_micro_warnings (y_true y_pred : list Z) (labels : list Z)
  : outcome (list warning) :=
  MCM ← multilabel_confusion_matrix y_true y_pred labels;
  let tp_sum := map tp MCM in
  let pred_sum := map (fun m => tp m + fp m) MCM in
  let true_sum := map (fun m => tp m + fn m) MCM in
  let pred_sum := [inject_Z (np.sumZ pred_sum)] in
  let true_sum := [inject_Z (np.sumZ true_sum)] in
  let warn_for := ["f-score"%string] in
  let of_precision := _prf_divide_warnings pred_sum "precision" warn_for in
  let of_recall := _prf_divide_warnings true_sum "recall" warn_for in
  let of_f_score :=
    if existsb (fun pt : Q * Q => Qeq_bool (snd pt) 0 && Qeq_bool (fst pt) 0)
               (combine pred_sum true_sum)
    then [UndefinedMetricWarning "F-score"] else [] in
  Return (of_precision ++ of_recall ++ of_f_score).

Definition f1_score_warnings (y_true y_pred : list Z) (avg : averaging) (labels : list Z)
  : outcome (list warning) :=
  match avg with
  | micro => fbeta_score_micro_warnings y_true y_pred labels
  end.

(** [_check_pos_label_consistency(None, y_true)]: without an explicit
    positive label the classes of [y_true] must be one of {0,1}, {-1,1},
    {0}, {-1}, {1}; the positive label is then 1. An empty [y_true] has
    no classes and is rejected. (The earlier [type_of_target] test accepts
    all of these, and both tests raise ValueError.) *)
Definition same_values (y classes : list Q) : bool :=
  forallb (fun v => existsb (Qeq_bool v) classes) y
  && forallb (fun c => existsb (Qeq_bool c) y) classes.

Definition _check_pos_label_consistency (y_true : list Q) : outcome Q :=
  if existsb (same_values y_true) [[0; 1]; [-1; 1]; [0]; [-1]; [1]]%Q
  then Return 1%Q else Raise ValueError.

(** [_binary_clf_curve(y_true, y_score)]: false positives and true
    positives per distinct score, by decreasing score. The library sorts
    the positions with a stable argsort, reverses them and indexes both
    arrays with them; here the zipped samples are sorted and reversed. *)
Definition _binary_clf_curve (y_true y_score : list Q)
  : outcome (list Q * list Q * list Q) :=
  _ ← check_consistent_length y_true y_score;
  pos_label ← _check_pos_label_consistency y_true;
  (* make y_true a boolean vector *)
  let y_true := map (fun t => Qeq_bool t pos_label) y_true in
  (* sort scores and corresponding truth values *)
  let sorted := rev (np.sort_by_score (combine y_score y_true)) in
  let y_score := map fst sorted in
  let y_true := map snd sorted in
  (* the indices associated with the distinct values, and the end of the curve *)
  let distinct_value_indices := np.where_ (np.diff Qminus y_score) in
  let threshold_idxs := distinct_value_indices ++ [(length y_true - 1)%nat] in
  (* accumulate the true positives with decreasing threshold *)
  let tps := np.getitem 0%Q
               (np.cumsum (map (fun b : bool => if b then 1%Q else 0%Q) y_true))
               threshold_idxs in
  let fps := map (fun it : nat * Q => (1 + inject_Z (Z.of_nat (fst it)) - snd it)%Q)
                 (combine threshold_idxs tps) in
  Return (fps, tps, np.getitem 0%Q y_score threshold_idxs).

(** [precision_recall_curve(y_true, probas_pred)] *)
Definition precision_recall_curve (y_true probas_pred : list Q)
  : outcome (list float * list float * list Q) :=
  '(fps, tps, thresholds) ← _binary_clf_curve y_true probas_pred;
  let precision :=
    map (fun tf : Q * Q =>
           match Float.div (Fin (fst tf)) (Fin (fst tf + snd tf)) with
           | NaN => Fin 0   (* precision[np.isnan(precision)] = 0 *)
           | v => v
           end) (combine tps fps) in
  let recall := map (fun t => Float.div (Fin t) (Fin (List.last tps 0%Q))) tps in
  (* stop when full recall attained
     and reverse the outputs so recall is decreasing *)
  let last_ind := np.searchsorted tps (List.last tps 0%Q) in
  Return (np.slice_down precision last_ind ++ [Fin 1],
          np.slice_down recall last_ind ++ [Fin 0],
          np.slice_down thresholds last_ind).

(** [auc(x, y)]: trapezoidal area; [x] must be monotonic. *)
Definition auc (x y : list float) : outcome float :=
  _ ← check_consistent_length x y;
  if (length x <? 2)%nat then Raise ValueError
  else
    let dx := np.diff Float.sub x in
    direction ←
      (if existsb (fun d => Float.ltb d (Fin 0)) dx then
         if forallb (fun d => Float.leb d (Fin 0)) dx then Return (-1)%Q
         else Raise ValueError
       else Return 1%Q);
    Return (Float.mul (Fin direction) (np.trapz y x)).

(** [accuracy_score(y_true, y_pred)]: the mean of [y_true == y_pred]. *)
Definition accuracy_score (y_true y_pred : list Z) : outcome float :=
  _ ← check_consistent_length y_true y_pred;
  let score := map (fun tp : Z * Z => if Z.eqb (fst tp) (snd tp) then Fin 1 else Fin 0)
                   (combine y_true y_pred) in
  Return (np.average score).

End sklearn.

(** ** The script: micro F1 *)

Definition label_list : list string :=
  ["no_relation"; "org:top_members/employees"; "org:members";
   "org:product"; "per:title"; "org:alternate_names";
   "per:employee_of"; "org:place_of_headquarters"; "per:product";
   "org:number_of_employees/members"; "per:children";
   "per:place_of_residence"; "per:alternate_names";
   "per:other_family"; "per:colleagues"; "per:origin"; "per:siblings";
   "per:spouse"; "org:founded"; "org:political/religious_affiliation";
   "org:member_of"; "per:parents"; "org:dissolved";
   "per:schools_attended"; "per:date_of_death"; "per:date_of_birth";
   "per:place_of_birth"; "per:place_of_death"; "org:founded_by";
   "per:religion"]%string.

(** The two list computations at the head of [klue_re_micro_f1]. *)
Definition no_relation_label_idx : outcome Z := py.index "no_relation" label_list.

Definition label_indices : outcome (list Z) :=
  no_relation_label_idx ← no_relation_label_idx;
  let label_indices := py.range (length label_list) in
  py.remove no_relation_label_idx label_indices.

(** KLUE-RE micro f1 (except no_relation) *)
Definition klue_re_micro_f1 (preds labels : list Z) : outcome Q :=
  label_indices ← label_indices;
  f ← sklearn.f1_score labels preds sklearn.micro label_indices;
  Return (f * 100)%Q.

(** The warnings that a call of [klue_re_micro_f1] lets the library emit. *)
Definition klue_re_micro_f1_warnings (preds labels : list Z)
  : outcome (list sklearn.warning) :=
  label_indices ← label_indices;
  sklearn.f1_score_warnings labels preds sklearn.micro label_indices.

(** ** The script: area under the precision-recall curves *)

(** KLUE-RE AUPRC (with no_relation) *)
Definition klue_re_auprc (probs : list (list Q)) (labels : list Z) : outcome float :=
  labels ← np.getitem_rows (np.eye 30) labels;
  score ← traverse (fun c =>
             targets_c ← np.take_column labels c;
             preds_c ← np.take_column probs c;
             '(precision, recall, _) ← sklearn.precision_recall_curve targets_c preds_c;
             sklearn.auc recall precision)
           (seq 0 30);
  Return (Float.mul (np.average score) (Fin 100)).

(** ** The script: the metrics function handed to the trainer *)

Record EvalPrediction : Type := {
  predictions : list (list Q);
  label_ids : list Z
}.

(** The dictionary that [compute_metrics] returns, with its three keys
    'micro f1 score', 'auprc' and 'accuracy'. *)
Record metrics : Type := {
  micro_f1_score : Q;
  auprc : float;
  accuracy : float
}.

Definition compute_metrics (pred : EvalPrediction) : outcome metrics :=
  let labels := label_ids pred in
  preds ← traverse np.argmax (predictions pred);
  let probs := predictions pred in
  f1 ← klue_re_micro_f1 preds labels;
  auprc ← klue_re_auprc probs labels;
  acc ← sklearn.accuracy_score labels preds;
  Return {| micro_f1_score := f1; auprc := auprc; accuracy := acc |}.

(** ** The script: the label codec and the training run *)

(** Files hold pickled dictionaries from label strings to integers. *)
Abbreviation disk := (gmap string (gmap string Z)).

Inductive event : Type :=
| EvOpen (path mode : string)
| EvPickleLoad (path : string)
| EvClose (path : string)
| EvCall (callee : string).

(** Code that reads the disk, may raise, and leaves a trace of its file
    operations and of its calls into the libraries. The script has no code
    that writes a file, so the disk is only read. *)
Definition io (A : Type) : Type := disk -> outcome A * list event.

#[export] Instance io_ret : MRet io := fun A a _ => (Return a, []).

#[export] Instance io_bind : MBind io := fun A B k m d =>
  match m d with
  | (Return a, t1) => let (r, t2) := k a d in (r, t1 ++ t2)
  | (Raise e, t1) => (Raise e, t1)
  end.

Definition emit (e : event) : io unit := fun _ => (Return tt, [e]).

Definition lift {A : Type} (m : outcome A) : io A := fun _ => (m, []).

Definition mapping_file : string := "dict_label_to_num.pkl".

(** [with open(path, 'rb') as f: obj = pickle.load(f)] *)
Definition open_and_load (path : string) : io (gmap string Z) := fun d =>
  match d !! path with
  | None => (Raise (FileNotFoundError path), [])
  | Some obj => (Return obj, [EvOpen path "rb"; EvPickleLoad path; EvClose path])
  end.

(** [d[v]], KeyError when [v] is not a key. *)
Definition dict_getitem (d : gmap string Z) (v : string) : outcome Z :=
  match d !! v with
  | Some n => Return n
  | None => Raise (KeyError v)
  end.

Definition label_to_num (label : list string) : io (list Z) :=
  dict_label_to_num ← open_and_load mapping_file;
  lift (traverse (dict_getitem dict_label_to_num) label).

(** An [argparse.Namespace]: the names of the attributes it has. Their
    values only travel into the libraries and are left out. *)
Abbreviation Namespace := (gset string).

(** [args.name], AttributeError when the namespace has no such attribute. *)
Definition getattr (args : Namespace) (name : string) : io unit :=
  lift (if decide (name ∈ args) then Return tt else Raise (AttributeError name)).

(** The arguments that the parser of the script defines, in the order of
    its [add_argument] calls. Every one has a default, so each is an
    attribute of the parsed namespace whatever the command line is. *)
Definition parser_arguments : list string :=
  ["seed"; "model"; "train_data"; "num_labels"; "output_dir"; "save_total_limit";
   "save_steps"; "num_train_epochs"; "learning_rate"; "per_device_train_batch_size";
   "per_device_eval_batch_size"; "warmup_steps"; "weight_decay"; "logging_dir";
   "logging_steps"; "evaluation_strategy"; "eval_steps"; "load_best_model_at_end";
   "save_pretrained";
   "run_name"; "special_entity_type"; "preprocess"; "clue_type"; "n_splits"; "test_size";
   "project_name"; "entity_name"; "report_to"; "metric_for_best_model";
   "gradient_accumulation_steps"; "hidden_emb_no";
   "load_data_filename"; "load_data_func_load"; "load_data_func_tokenized";
   "load_data_class"]%string.

(** [args = parser.parse_args()] *)
Definition parse_args : Namespace := list_to_set parser_arguments.

(** [train(args)]. What the libraries compute is outside the script: the
    label columns of the two partitions that the stratified split selects
    are parameters, and every call into a library is recorded by name.
    The attributes of [args] are read where the script reads them, in the
    order in which Python evaluates the arguments of each call. *)
Definition train (args : Namespace) (train_dataset_label dev_dataset_label : list string)
  : io unit :=
  _ ← getattr args "seed";
  _ ← emit (EvCall "seed_everything");
  (* load model and tokenizer *)
  _ ← getattr args "model";
  _ ← emit (EvCall "AutoTokenizer.from_pretrained");
  (* load dataset *)
  _ ← getattr args "load_data_filename";
  _ ← emit (EvCall "import_module");
  _ ← getattr args "load_data_func_load";
  _ ← getattr args "train_data";
  _ ← emit (EvCall "load");
  _ ← getattr args "n_splits";
  _ ← getattr args "test_size";
  _ ← getattr args "seed";
  _ ← emit (EvCall "StratifiedShuffleSplit");
  _ ← emit (EvCall "split.split");
  train_label ← label_to_num train_dataset_label;
  dev_label ← label_to_num dev_dataset_label;
  (* tokenizing dataset *)
  _ ← getattr args "load_data_filename";
  _ ← emit (EvCall "import_module");
  _ ← getattr args "load_data_func_tokenized";
  _ ← getattr args "tokenize";
  _ ← getattr args "clue_type";
  _ ← emit (EvCall "tokenize");
  _ ← getattr args "tokenize";
  _ ← getattr args "clue_type";
  _ ← emit (EvCall "tokenize");
  (* make dataset for pytorch *)
  _ ← getattr args "load_data_filename";
  _ ← emit (EvCall "import_module");
  _ ← getattr args "load_data_class";
  _ ← emit (EvCall "re_data");
  _ ← emit (EvCall "re_data");
  _ ← emit (EvCall "torch.device");
  _ ← emit (EvCall "ReModel");
  _ ← emit (EvCall "model.to");
  _ ← getattr args "project_name";
  _ ← getattr args "entity_name";
  _ ← emit (EvCall "wandb.init");
  _ ← getattr args "run_name";
  _ ← getattr args "output_dir";
  _ ← getattr args "save_total_limit";
  _ ← getattr args "save_steps";
  _ ← getattr args "num_train_epochs";
  _ ← getattr args "learning_rate";
  _ ← getattr args "per_device_train_batch_size";
  _ ← getattr args "per_device_eval_batch_size";
  _ ← getattr args "warmup_steps";
  _ ← getattr args "warmup_ratio";
  _ ← getattr args "weight_decay";
  _ ← getattr args "logging_dir";
  _ ← getattr args "logging_steps";
  _ ← getattr args "evaluation_strategy";
  _ ← getattr args "eval_steps";
  _ ← getattr args "load_best_model_at_end";
  _ ← getattr args "report_to";
  _ ← getattr args "metric_for_best_model";
  _ ← getattr args "gradient_accumulation_steps";
  _ ← emit (EvCall "TrainingArguments");
  _ ← emit (EvCall "Trainer");
  (* train model *)
  _ ← emit (EvCall "trainer.train");
  _ ← emit (EvCall "wandb.finish");
  _ ← getattr args "save_pretrained";
  emit (EvCall "model.save_pretrained").

(** [main(args)] *)
Definition main (args : Namespace) (train_dataset_label dev_dataset_label : list string)
  : io unit :=
  train args train_dataset_label dev_dataset_label.



(** The shape of the trace of a run. *)
Definition is_call (e : event) : Prop :=
  match e with EvCall _ => True | _ => False end.

(** What one call of [label_to_num] leaves in the trace. *)
Definition load_events : list event :=
  [EvOpen mapping_file "rb"; EvPickleLoad mapping_file; EvClose mapping_file].

(** The library calls of [train] that precede the label conversion. *)
Definition before_labels : list event :=
  [EvCall "seed_everything"; EvCall "AutoTokenizer.from_pretrained"; EvCall "import_module";
   EvCall "load"; EvCall "StratifiedShuffleSplit"; EvCall "split.split"].

(** What a run under the script's own parser leaves after the two
    conversions: the module of the tokenizing function is imported, and
    the first read of [args.tokenize] ends the run. *)
Definition before_tokenize : list event := [EvCall "import_module"].

(** A disk whose mapping file knows one label. *)
Definition disk0 : disk := {[ mapping_file := {[ "no_relation"%string := 0 ]} ]}.

(** A run that ended in a KeyError for a label missing from [dict], before
    any tokenization or training took place. *)
Definition aborted (dict : gmap string Z) (r : outcome unit * list event) : Prop :=
  (exists k, fst r = Raise (KeyError k) /\ dict !! k = None)
  /\ ~ In (EvCall "tokenize") (snd r)
  /\ ~ In (EvCall "trainer.train") (snd r).

(** ** Reference definitions, written from the description of the metrics *)

Definition count {A : Type} (p : A -> bool) (l : list A) : Z :=
  Z.of_nat (length (List.filter p l)).

Module Spec.

(** The classes that the primary metric pools: every index of the
    30-class label space except the one of [no_relation]. *)
Definition counted (no_relation : Z) (c : Z) : bool :=
  (0 <=? c) && (c <? 30) && negb (c =? no_relation).

Section MicroF1.

Variable keep : Z -> bool.
Variables labels preds : list Z.

(** Pooled counts over the kept classes: an example is a true positive
    of its class when the prediction is right, a false positive of the
    predicted class and a false negative of the true class when it is
    wrong. *)
Definition true_positives : Z :=
  count (fun lp : Z * Z => keep (fst lp) && (fst lp =? snd lp)) (combine labels preds).

Definition false_positives : Z :=
  count (fun lp : Z * Z => keep (snd lp) && negb (fst lp =? snd lp)) (combine labels preds).

Definition false_negatives : Z :=
  count (fun lp : Z * Z => keep (fst lp) && negb (fst lp =? snd lp)) (combine labels preds).

(** A ratio of counts, 0 when the denominator is 0. *)
Definition ratio (a b : Z) : Q :=
  if b =? 0 then 0%Q else (inject_Z a / inject_Z b)%Q.

Definition precision : Q := ratio true_positives (true_positives + false_positives).

Definition recall : Q := ratio true_positives (true_positives + false_negatives).

Definition micro_f1 : Q :=
  if Qeq_bool (precision + recall) 0 then 0%Q
  else (2 * precision * recall / (precision + recall))%Q.

End MicroF1.

End Spec.

Module Batch.

(** An evaluation batch of [n >= 1] examples: one true label in the
    30-class label space and one row of 30 scores per example. *)
Record well_formed (probs : list (list Q)) (labels : list Z) : Prop := {
  nonempty : labels <> [];
  aligned : length probs = length labels;
  label_space : Forall (fun l => 0 <= l < 30) labels;
  thirty_scores : Forall (fun row => length row = 30%nat) probs
}.

(** Applies [f c] to the scores of class [c], for every class. *)
Definition rescale (f : nat -> Q -> Q) (probs : list (list Q)) : list (list Q) :=
  map (fun row => map (fun cv : nat * Q => f (fst cv) (snd cv))
                      (combine (seq 0 (length row)) row))
      probs.

(** [f] keeps the relative order of any two scores, ties included. *)
Definition order_preserving (f : Q -> Q) : Prop :=
  forall x y, (x < y)%Q <-> (f x < f y)%Q.

End Batch.

Module AuprcSpec.

(** The targets of the binary problem "class [c] against the rest". *)
Definition one_vs_rest (c : nat) (labels : list Z) : list Q :=
  map (fun l => if l =? Z.of_nat c then 1%Q else 0%Q) labels.

(** The decision rule behind one point of a precision-recall curve:
    an example is predicted positive when its score reaches the threshold
    [t]. Targets equal to 1 are the positive examples. *)
Definition is_positive (v : Q) : bool := Qeq_bool v 1.

Definition reached (t score : Q) : bool := Qle_bool t score.

Definition true_positives_at (y s : list Q) (t : Q) : Z :=
  count (fun ys : Q * Q => is_positive (fst ys) && reached t (snd ys)) (combine y s).

Definition false_positives_at (y s : list Q) (t : Q) : Z :=
  count (fun ys : Q * Q => negb (is_positive (fst ys)) && reached t (snd ys)) (combine y s).

Definition positives (y : list Q) : Z := count is_positive y.

Definition precision_at (y s : list Q) (t : Q) : float :=
  Fin (Spec.ratio (true_positives_at y s t)
                  (true_positives_at y s t + false_positives_at y s t)).

(** Recall divides by the number of positive examples; without any, numpy
    divides 0 by 0. *)
Definition recall_at (y s : list Q) (t : Q) : float :=
  Float.div (Float.of_Z (true_positives_at y s t)) (Float.of_Z (positives y)).

(** What each point of a returned curve is: the thresholds are scores,
    they increase, each gives the precision and recall of the rule "score
    at least t", and the point (precision 1, recall 0) closes the curve.
    Which scores are thresholds is not said here; the reference curve of
    [AreaSpec] has them all. *)
Definition swept (y s : list Q) (precision recall : list float) (thresholds : list Q) : Prop :=
  Forall (fun t => In t s) thresholds
  /\ StronglySorted Qlt thresholds
  /\ Forall2 Float.eqv precision (map (precision_at y s) thresholds ++ [Fin 1])
  /\ Forall2 Float.eqv recall (map (recall_at y s) thresholds ++ [Fin 0]).

(** The area under the precision-recall curve of class [c]. *)
Definition class_area (probs : list (list Q)) (labels : list Z) (c : nat) : outcome float :=
  preds_c ← np.take_column probs c;
  '(precision, recall, _) ← sklearn.precision_recall_curve (one_vs_rest c labels) preds_c;
  sklearn.auc recall precision.

(** The arithmetic mean of 30 values. *)
Definition mean30 (score : list float) : float :=
  Float.div (fold_right Float.add (Fin 0) score) (Fin 30).

(** 100 times the mean of the areas of the classes 0, 1, ..., 29. *)
Definition mean_area (probs : list (list Q)) (labels : list Z) : outcome float :=
  score ← traverse (class_area probs labels) (seq 0 30);
  Return (Float.mul (mean30 score) (Fin 100)).

End AuprcSpec.

(** ** Auxiliary notions used in the statements *)

(** Row [k] of the 30 by 30 identity matrix. *)
Definition one_hot (k : nat) : list Q :=
  map (fun j => if Nat.eqb k j then 1%Q else 0%Q) (seq 0 30).

(** Where a label lands in the 30 rows: itself, or itself plus 30 when it
    is negative. *)
Definition row_of (l : Z) : nat := Z.to_nat (l mod 30).

(** Targets that are 0.0 or 1.0. *)
Definition binary (y : list Q) : Prop := Forall (fun v => v = 0%Q \/ v = 1%Q) y.

(** The area of class [c] when the targets are read off the rows that the
    labels select, negative labels included. *)
Definition class_area_wrapped (probs : list (list Q)) (labels : list Z) (c : nat)
  : outcome float :=
  preds_c ← np.take_column probs c;
  '(precision, recall, _) ←
    sklearn.precision_recall_curve
      (map (fun l => if Nat.eqb (row_of l) c then 1%Q else 0%Q) labels) preds_c;
  sklearn.auc recall precision.

(** Samples ordered by decreasing score. *)
Definition descending {A : Type} (S : list (Q * A)) : Prop :=
  StronglySorted (fun a b => (fst b <= fst a)%Q) S.

(** Position [i] ends a run of equal scores: every later sample has a
    smaller score. *)
Definition run_end {A : Type} (S : list (Q * A)) (i : nat) : Prop :=
  exists l1 x l2, S = l1 ++ x :: l2 /\ length l1 = i
                  /\ Forall (fun z => (fst z < fst x)%Q) l2.

(** Applies [f] to the score of a sample. *)
Definition on_score {A : Type} (f : Q -> Q) (p : Q * A) : Q * A := (f (fst p), snd p).

(** [p] is the position of the first largest entry of [row]. *)
Definition first_max (row : list Q) (p : Z) : Prop :=
  0 <= p < Z.of_nat (length row)
  /\ (forall j, (j < length row)%nat -> (nth j row 0 <= nth (Z.to_nat p) row 0)%Q)
  /\ (forall j, (j < Z.to_nat p)%nat -> (nth j row 0 < nth (Z.to_nat p) row 0)%Q).

(** A batch of three examples and a rescaling, used to instantiate the
    statements. *)
Definition example_probs : list (list Q) :=
  [map (fun j => inject_Z (Z.of_nat j) / 30)%Q (seq 0 30);
   map (fun j => inject_Z (Z.of_nat (29 - j)) / 30)%Q (seq 0 30);
   repeat (1 / 30)%Q 30].

Definition example_labels : list Z := [29; 0; 0].

Definition example_rescaling (c : nat) (x : Q) : Q :=
  (3 * x + inject_Z (Z.of_nat c))%Q.

(** ** Further notions used in the statements *)

(** A disk whose mapping file knows two labels. *)
Definition disk1 : disk :=
  {[ mapping_file := {[ "no_relation"%string := 0; "per:title"%string := 4 ]} ]}.

(** Predictions for the three examples of the example batch. *)
Definition example_preds : list Z := [29; 0; 1].

(** Class [c] has an example in the batch. *)
Definition class_present (labels : list Z) (c : nat) : Prop := In (Z.of_nat c) labels.

(** The trapezoidal sum of [np.trapz] on rationals. *)
Definition trapzQ (y x : list Q) : Q :=
  fold_right Qplus 0%Q
    (map (fun dm : Q * Q => (fst dm * snd dm / 2)%Q)
         (combine (np.diff Qminus x)
                  (map (fun ab : Q * Q => (fst ab + snd ab)%Q) (combine (tl y) (removelast y))))).

(** The number that a float holds, 0 for not-a-number. *)
Definition unFin (v : float) : Q := match v with Fin q => q | NaN => 0%Q end.

(** Precision and recall at a threshold, as rationals. *)
Definition precision_of (y s : list Q) (t : Q) : Q :=
  Spec.ratio (AuprcSpec.true_positives_at y s t)
             (AuprcSpec.true_positives_at y s t + AuprcSpec.false_positives_at y s t).

Definition recall_of (y s : list Q) (t : Q) : Q :=
  Spec.ratio (AuprcSpec.true_positives_at y s t) (AuprcSpec.positives y).

(** Every positive example is scored above every negative one. *)
Definition separated (y s : list Q) : Prop :=
  forall yi si yj sj,
    In (yi, si) (combine y s) -> In (yj, sj) (combine y s) ->
    AuprcSpec.is_positive yi = true -> AuprcSpec.is_positive yj = false -> (sj < si)%Q.

(** Column [c] of the scores ranks the examples of class [c] above all
    the others. *)
Definition ranks_class_first (probs : list (list Q)) (labels : list Z) (c : nat) : Prop :=
  forall l row l' row',
    In (l, row) (combine labels probs) -> In (l', row') (combine labels probs) ->
    l = Z.of_nat c -> l' <> Z.of_nat c -> (nth c row' 0 < nth c row 0)%Q.

(** The same as a check that can be run. *)
Definition ranks_class_firstb (probs : list (list Q)) (labels : list Z) (c : nat) : bool :=
  forallb (fun lr : Z * list Q =>
    forallb (fun lr' : Z * list Q =>
      implb ((fst lr =? Z.of_nat c) && negb (fst lr' =? Z.of_nat c))
            (negb (Qle_bool (nth c (snd lr) 0%Q) (nth c (snd lr') 0%Q))))
      (combine labels probs))
    (combine labels probs).

(** One example per class, scored by the identity matrix. *)
Definition identity_labels : list Z := map Z.of_nat (seq 0 30).

Definition identity_probs : list (list Q) := map one_hot (seq 0 30).

(** ** Reference definitions, written from the description of the area *)

Module AreaSpec.

(** The distinct values of the scores in increasing order: the thresholds
    at which the decision rule "score at least t" changes. *)
Fixpoint insert_distinct (v : Q) (l : list Q) : list Q :=
  match l with
  | [] => [v]
  | t :: l' =>
      if Qeq_bool v t then l
      else if Qle_bool v t then v :: l
      else t :: insert_distinct v l'
  end.

Definition thresholds (s : list Q) : list Q := fold_right insert_distinct [] s.






End AreaSpec.

(** * Properties *)

(** ** Counting *)

Section Counting.

Lemma count_nil {A : Type} (p : A -> bool) : count p [] = 0.
Proof. reflexivity. Qed.

Lemma count_cons {A : Type} (p : A -> bool) (a : A) (l : list A) :
  count p (a :: l) = (if p a then 1 else 0) + count p l.
Proof.
  unfold count. simpl. destruct (p a); simpl length; lia.
Qed.

Lemma count_nonneg {A : Type} (p : A -> bool) (l : list A) : 0 <= count p l.
Proof. unfold count. lia. Qed.

Lemma count_ext {A : Type} (p q : A -> bool) (l : list A) :
  (forall a, In a l -> p a = q a) -> count p l = count q l.
Proof.
  induction l as [|a l IH]; intros H; [reflexivity|].
  rewrite !count_cons, (H a) by (left; reflexivity).
  rewrite IH; [reflexivity|]. intros b Hb. apply H. right. exact Hb.
Qed.

Lemma count_pos_exists {A : Type} (p : A -> bool) (l : list A) :
  (exists a, In a l /\ p a = true) -> 0 < count p l.
Proof.
  intros (a & Hin & Hp). induction l as [|b l IH]; [destruct Hin|].
  rewrite count_cons. pose proof (count_nonneg p l).
  destruct Hin as [->|Hin].
  - rewrite Hp. lia.
  - specialize (IH Hin). destruct (p b); lia.
Qed.

Lemma bincount_count (x : list Z) (c : Z) : np.bincount x c = count (Z.eqb c) x.
Proof. reflexivity. Qed.

Lemma sumZ_indicator (v : Z) (L : list Z) :
  List.NoDup L ->
  np.sumZ (map (fun c => if c =? v then 1 else 0) L) = if existsb (Z.eqb v) L then 1 else 0.
Proof.
  induction 1 as [|c L Hc HL IH]; [reflexivity|].
  simpl. rewrite IH. rewrite (Z.eqb_sym v c).
  destruct (Z.eqb_spec c v) as [->|Hne]; simpl; [|reflexivity].
  destruct (existsb (Z.eqb v) L) eqn:E; [|reflexivity].
  apply existsb_exists in E as (w & Hw & Heq).
  apply Z.eqb_eq in Heq. subst w. contradiction.
Qed.

Lemma sumZ_map_add {A : Type} (f g : A -> Z) (L : list A) :
  np.sumZ (map (fun c => f c + g c) L) = np.sumZ (map f L) + np.sumZ (map g L).
Proof. induction L as [|c L IH]; simpl; lia. Qed.

(** Summing the per-class counts over distinct classes counts the entries
    that belong to one of the classes. *)
Lemma sumZ_bincount (x L : list Z) :
  List.NoDup L ->
  np.sumZ (map (np.bincount x) L) = count (fun v => existsb (Z.eqb v) L) x.
Proof.
  intros HL. induction x as [|v x IH].
  - unfold np.bincount. simpl. induction L; simpl; auto.
    rewrite IHL; [reflexivity | now inversion HL].
  - rewrite count_cons, <- IH, <- (sumZ_indicator v L HL), <- sumZ_map_add.
    f_equal. apply map_ext. intros c. rewrite !bincount_count, count_cons. reflexivity.
Qed.

End Counting.

Section MicroF1Facts.

Lemma no_relation_label_idx_value : no_relation_label_idx = Return 0.
Proof. reflexivity. Qed.

Lemma label_indices_value : label_indices = Return (map Z.of_nat (seq 1 29)).
Proof. reflexivity. Qed.

Lemma counted_indices (v : Z) :
  existsb (Z.eqb v) (map Z.of_nat (seq 1 29)) = Spec.counted 0 v.
Proof.
  unfold Spec.counted.
  destruct (existsb (Z.eqb v) (map Z.of_nat (seq 1 29))) eqn:E.
  - apply existsb_exists in E as (w & Hw & Heq). apply Z.eqb_eq in Heq. subst w.
    apply in_map_iff in Hw as (n & <- & Hn). apply in_seq in Hn.
    symmetry. rewrite !andb_true_iff, negb_true_iff. lia.
  - symmetry. apply not_true_is_false. intros H.
    rewrite !andb_true_iff, negb_true_iff in H.
    assert (Hex : existsb (Z.eqb v) (map Z.of_nat (seq 1 29)) = true).
    { apply existsb_exists. exists v. split; [|apply Z.eqb_refl].
      apply in_map_iff. exists (Z.to_nat v). split; [lia|]. apply in_seq. lia. }
    congruence.
Qed.

Lemma NoDup_indices : List.NoDup (map Z.of_nat (seq 1 29)).
Proof.
  apply Finite.Injective_map_NoDup; [|apply List.seq_NoDup].
  intros a b. lia.
Qed.

Lemma count_tp_bins (keep : Z -> bool) (lp : list (Z * Z)) :
  count keep (map fst (List.filter (fun tp => fst tp =? snd tp) lp))
  = count (fun x : Z * Z => keep (fst x) && (fst x =? snd x)) lp.
Proof.
  induction lp as [|[l p] lp IH]; [reflexivity|].
  rewrite count_cons. simpl. destruct (l =? p); simpl.
  - rewrite count_cons, IH, andb_true_r. reflexivity.
  - rewrite IH, andb_false_r. reflexivity.
Qed.

Lemma count_fst (keep : Z -> bool) (l p : list Z) :
  length l = length p ->
  count keep l = count (fun x : Z * Z => keep (fst x)) (combine l p).
Proof.
  revert p. induction l as [|a l IH]; intros [|b p] H; try discriminate; [reflexivity|].
  simpl combine. rewrite !count_cons, (IH p) by (simpl in H; lia). reflexivity.
Qed.

Lemma count_snd (keep : Z -> bool) (l p : list Z) :
  length l = length p ->
  count keep p = count (fun x : Z * Z => keep (snd x)) (combine l p).
Proof.
  revert p. induction l as [|a l IH]; intros [|b p] H; try discriminate; [reflexivity|].
  simpl combine. rewrite !count_cons, (IH p) by (simpl in H; lia). reflexivity.
Qed.

(** Predicted and true totals split into right and wrong examples. *)
Lemma pred_sum_split (keep : Z -> bool) (lp : list (Z * Z)) :
  count (fun x : Z * Z => keep (snd x)) lp
  = count (fun x : Z * Z => keep (fst x) && (fst x =? snd x)) lp
    + count (fun x : Z * Z => keep (snd x) && negb (fst x =? snd x)) lp.
Proof.
  induction lp as [|[l p] lp IH]; [reflexivity|].
  rewrite !count_cons, IH. simpl.
  destruct (keep p) eqn:Kp; destruct (keep l) eqn:Kl; destruct (Z.eqb_spec l p) as [E|E];
    simpl; try lia; subst; congruence.
Qed.

Lemma true_sum_split (keep : Z -> bool) (lp : list (Z * Z)) :
  count (fun x : Z * Z => keep (fst x)) lp
  = count (fun x : Z * Z => keep (fst x) && (fst x =? snd x)) lp
    + count (fun x : Z * Z => keep (fst x) && negb (fst x =? snd x)) lp.
Proof.
  induction lp as [|[l p] lp IH]; [reflexivity|].
  rewrite !count_cons, IH. simpl.
  destruct (keep l); destruct (Z.eqb_spec l p); simpl; lia.
Qed.

Lemma Qeq_bool_inject_Z (z : Z) : Qeq_bool (inject_Z z) 0 = (z =? 0).
Proof.
  unfold Qeq_bool, inject_Z. simpl. rewrite Z.mul_1_r.
  destruct z; reflexivity.
Qed.

Lemma ratio_nonneg (a b : Z) : 0 <= a -> 0 <= b -> (0 <= Spec.ratio a b)%Q.
Proof.
  intros Ha Hb. unfold Spec.ratio. destruct (Z.eqb_spec b 0); [apply Qle_refl|].
  apply Qle_shift_div_l.
  - replace 0%Q with (inject_Z 0) by reflexivity. rewrite <- Zlt_Qlt. lia.
  - rewrite Qmult_0_l. replace 0%Q with (inject_Z 0) by reflexivity.
    rewrite <- Zle_Qle. lia.
Qed.

(** The F-score that the library forms from a pooled precision and recall
    is the reference micro F1. *)
Lemma f_score_of_ratios (p r : Q) :
  (0 <= p)%Q -> (0 <= r)%Q ->
  ((1 + 1 * 1) * p * r / (if Qeq_bool (1 * 1 * p + r) 0 then 1 else (1 * 1 * p + r))
   == (if Qeq_bool (p + r) 0 then 0 else 2 * p * r / (p + r)))%Q.
Proof.
  intros Hp Hr.
  assert (E : Qeq_bool (1 * 1 * p + r) 0 = Qeq_bool (p + r) 0).
  { destruct (Qeq_bool (p + r) 0) eqn:E.
    - apply Qeq_bool_iff in E. apply Qeq_bool_iff. lra.
    - apply Qeq_bool_neq in E. apply not_true_is_false. intros H.
      apply Qeq_bool_iff in H. apply E. lra. }
  rewrite E. destruct (Qeq_bool (p + r) 0) eqn:E'.
  - apply Qeq_bool_iff in E'. assert (p == 0)%Q by lra.
    rewrite H. field.
  - apply Qeq_bool_neq in E'. field. lra.
Qed.

(** The value of [klue_re_micro_f1] on arrays of equal length. *)
Lemma klue_re_micro_f1_value (preds labels : list Z) :
  length preds = length labels ->
  exists f, klue_re_micro_f1 preds labels = Return f
            /\ (f == 100 * Spec.micro_f1 (Spec.counted 0) labels preds)%Q.
Proof.
  intros Hlen. unfold klue_re_micro_f1. rewrite label_indices_value.
  set (L := map Z.of_nat (seq 1 29)).
  cbn [mbind outcome_bind]. unfold sklearn.f1_score, sklearn.fbeta_score_micro,
    sklearn.multilabel_confusion_matrix, sklearn.check_consistent_length.
  rewrite <- Hlen, Nat.eqb_refl. cbn [mbind outcome_bind mret outcome_ret].
  eexists. split; [reflexivity|].
  rewrite !map_map. cbn [sklearn.tp sklearn.fp sklearn.fn].
  set (tp_bins := map fst _).
  assert (Etp : np.sumZ (map (fun x => np.bincount tp_bins x) L)
                = Spec.true_positives (Spec.counted 0) labels preds).
  { change (fun x => np.bincount tp_bins x) with (np.bincount tp_bins).
    rewrite sumZ_bincount by apply NoDup_indices.
    rewrite (count_ext _ (Spec.counted 0)) by (intros; apply counted_indices).
    apply count_tp_bins. }
  assert (Eps : np.sumZ (map (fun x => np.bincount tp_bins x + (np.bincount preds x - np.bincount tp_bins x)) L)
                = Spec.true_positives (Spec.counted 0) labels preds
                  + Spec.false_positives (Spec.counted 0) labels preds).
  { rewrite (map_ext _ (np.bincount preds)) by (intros; lia).
    rewrite sumZ_bincount by apply NoDup_indices.
    rewrite (count_ext _ (Spec.counted 0)) by (intros; apply counted_indices).
    rewrite (count_snd _ labels preds) by lia. apply pred_sum_split. }
  assert (Ets : np.sumZ (map (fun x => np.bincount tp_bins x + (np.bincount labels x - np.bincount tp_bins x)) L)
                = Spec.true_positives (Spec.counted 0) labels preds
                  + Spec.false_negatives (Spec.counted 0) labels preds).
  { rewrite (map_ext _ (np.bincount labels)) by (intros; lia).
    rewrite sumZ_bincount by apply NoDup_indices.
    rewrite (count_ext _ (Spec.counted 0)) by (intros; apply counted_indices).
    rewrite (count_fst _ labels preds) by lia. apply true_sum_split. }
  rewrite Etp, Eps, Ets. clear Etp Eps Ets. unfold sklearn._prf_divide.
  cbn [combine map np.sum fold_right length]. rewrite !Qeq_bool_inject_Z.
  unfold Spec.micro_f1.
  change (if ?b =? 0 then 0%Q else (inject_Z ?a / inject_Z ?b)%Q) with (Spec.ratio a b).
  fold (Spec.precision (Spec.counted 0) labels preds).
  fold (Spec.recall (Spec.counted 0) labels preds).
  set (P := Spec.precision _ _ _). set (R := Spec.recall _ _ _).
  assert (HP : (0 <= P)%Q) by (apply ratio_nonneg; unfold Spec.true_positives, Spec.false_positives, count; lia).
  assert (HR : (0 <= R)%Q) by (apply ratio_nonneg; unfold Spec.true_positives, Spec.false_negatives, count; lia).
  pose proof (f_score_of_ratios P R HP HR) as HF.
  change (inject_Z (Z.of_nat 1)) with 1%Q.
  rewrite <- HF. clear HF.
  match goal with |- context [(?n / ?d + 0)%Q] => generalize (n / d)%Q end.
  intros X. field.
Qed.

End MicroF1Facts.

(** ** Micro F1 *)

(** C1. On prediction and label arrays of equal length, [klue_re_micro_f1]
    finds [no_relation] at index 0 of the 30 labels, keeps the other 29
    indices 1..29, and returns 100 times the micro-averaged F1 whose
    true-positive, false-positive and false-negative counts are pooled over
    those 29 classes only, a single precision, recall and F1 being formed
    from the pooled counts. *)
Theorem klue_re_micro_f1_excludes_no_relation (preds labels : list Z) :
  length preds = length labels ->
  no_relation_label_idx = Return 0
  /\ (exists idx, label_indices = Return idx
                  /\ length idx = 29%nat
                  /\ forall c, In c idx <-> (0 <= c < 30 /\ c <> 0))
  /\ exists f, klue_re_micro_f1 preds labels = Return f
               /\ (f == 100 * Spec.micro_f1 (Spec.counted 0) labels preds)%Q.
Proof.
  intros Hlen. split; [reflexivity|]. split.
  - exists (map Z.of_nat (seq 1 29)). split; [reflexivity|]. split; [reflexivity|].
    intros c. rewrite in_map_iff. split.
    + intros (n & <- & Hn). apply in_seq in Hn. lia.
    + intros [Hc Hne]. exists (Z.to_nat c). split; [lia|]. apply in_seq. lia.
  - apply klue_re_micro_f1_value, Hlen.
Qed.

Lemma klue_re_micro_f1_excludes_no_relation_witness :
  length [0; 1; 1] = length [0; 0; 1]
  /\ exists f, klue_re_micro_f1 [0; 1; 1] [0; 0; 1] = Return f
               /\ (f == 100 * Spec.micro_f1 (Spec.counted 0) [0; 0; 1]%Z [0; 1; 1]%Z)%Q.
Proof.
  split; [reflexivity|].
  apply (klue_re_micro_f1_excludes_no_relation [0; 1; 1] [0; 0; 1]). reflexivity.
Defined.

Lemma count_none {A : Type} (p : A -> bool) (l : list A) :
  (forall a, In a l -> p a = false) -> count p l = 0.
Proof.
  induction l as [|a l IH]; intros H; [reflexivity|].
  rewrite count_cons, (H a) by (left; reflexivity).
  rewrite IH; [reflexivity|]. intros b Hb. apply H. right. exact Hb.
Qed.

Lemma in_combine_same (labels : list Z) (lp : Z * Z) :
  In lp (combine labels labels) -> fst lp = snd lp /\ In (fst lp) labels.
Proof.
  induction labels as [|a l IH]; simpl; [tauto|].
  intros [<-|H]; [simpl; auto|]. destruct (IH H). auto.
Qed.

Lemma in_combine_diag (labels : list Z) (l : Z) :
  In l labels -> In (l, l) (combine labels labels).
Proof.
  induction labels as [|a ls IH]; simpl; [tauto|].
  intros [->|H]; auto.
Qed.

Lemma ratio_same (a : Z) : 0 < a -> (Spec.ratio a (a + 0) == 1)%Q.
Proof.
  intros Ha. unfold Spec.ratio. rewrite Z.add_0_r.
  destruct (Z.eqb_spec a 0); [lia|].
  field. replace 0%Q with (inject_Z 0) by reflexivity. rewrite inject_Z_injective. lia.
Qed.

(** C4. When every prediction equals its label, the labels lie in the
    30-class label space and at least one of them is not the index of
    [no_relation], [klue_re_micro_f1] returns 100. *)
Theorem klue_re_micro_f1_perfect (labels : list Z) :
  Forall (fun l => 0 <= l < 30) labels ->
  Exists (fun l => l <> 0) labels ->
  exists f, klue_re_micro_f1 labels labels = Return f /\ (f == 100)%Q.
Proof.
  intros Hrange Hex.
  destruct (klue_re_micro_f1_value labels labels eq_refl) as (f & Hf & Hv).
  exists f. split; [exact Hf|]. rewrite Hv. clear Hf Hv.
  assert (Hfp : Spec.false_positives (Spec.counted 0) labels labels = 0).
  { apply count_none. intros lp Hin. apply in_combine_same in Hin as [E _].
    rewrite E, Z.eqb_refl, andb_false_r. reflexivity. }
  assert (Hfn : Spec.false_negatives (Spec.counted 0) labels labels = 0).
  { apply count_none. intros lp Hin. apply in_combine_same in Hin as [E _].
    rewrite E, Z.eqb_refl, andb_false_r. reflexivity. }
  assert (Htp : 0 < Spec.true_positives (Spec.counted 0) labels labels).
  { apply count_pos_exists. apply List.Exists_exists in Hex as (l & Hl & Hne).
    exists (l, l). split; [apply in_combine_diag, Hl|]. simpl.
    rewrite List.Forall_forall in Hrange. specialize (Hrange l Hl).
    unfold Spec.counted. rewrite Z.eqb_refl, !andb_true_iff, negb_true_iff.
    repeat split; lia. }
  unfold Spec.micro_f1, Spec.precision, Spec.recall. rewrite Hfp, Hfn.
  pose proof (ratio_same _ Htp) as E.
  set (r := Spec.ratio _ _) in *.
  destruct (Qeq_bool (r + r) 0) eqn:E0.
  - apply Qeq_bool_iff in E0. lra.
  - rewrite E. field.
Qed.

Lemma klue_re_micro_f1_perfect_witness :
  exists f, klue_re_micro_f1 [0; 3; 3; 17] [0; 3; 3; 17] = Return f /\ (f == 100)%Q.
Proof.
  apply (klue_re_micro_f1_perfect [0; 3; 3; 17]).
  - repeat constructor; lia.
  - apply Exists_cons_tl, Exists_cons_hd. lia.
Defined.

(** The warnings of [klue_re_micro_f1] on arrays of equal length: none,
    unless the counted classes have neither a predicted nor a true
    example. *)
Lemma klue_re_micro_f1_warnings_value (preds labels : list Z) :
  length preds = length labels ->
  klue_re_micro_f1_warnings preds labels
  = Return (if (Spec.true_positives (Spec.counted 0) labels preds
                + Spec.false_negatives (Spec.counted 0) labels preds =? 0)
               && (Spec.true_positives (Spec.counted 0) labels preds
                   + Spec.false_positives (Spec.counted 0) labels preds =? 0)
            then [sklearn.UndefinedMetricWarning "F-score"] else []).
Proof.
  intros Hlen. unfold klue_re_micro_f1_warnings. rewrite label_indices_value.
  set (L := map Z.of_nat (seq 1 29)).
  cbn [mbind outcome_bind]. unfold sklearn.f1_score_warnings, sklearn.fbeta_score_micro_warnings,
    sklearn.multilabel_confusion_matrix, sklearn.check_consistent_length.
  rewrite <- Hlen, Nat.eqb_refl. cbn [mbind outcome_bind mret outcome_ret].
  rewrite !map_map. cbn [sklearn.tp sklearn.fp sklearn.fn].
  set (tp_bins := map fst _).
  assert (Eps : np.sumZ (map (fun x => np.bincount tp_bins x + (np.bincount preds x - np.bincount tp_bins x)) L)
                = Spec.true_positives (Spec.counted 0) labels preds
                  + Spec.false_positives (Spec.counted 0) labels preds).
  { rewrite (map_ext _ (np.bincount preds)) by (intros; lia).
    rewrite sumZ_bincount by apply NoDup_indices.
    rewrite (count_ext _ (Spec.counted 0)) by (intros; apply counted_indices).
    rewrite (count_snd _ labels preds) by lia. apply pred_sum_split. }
  assert (Ets : np.sumZ (map (fun x => np.bincount tp_bins x + (np.bincount labels x - np.bincount tp_bins x)) L)
                = Spec.true_positives (Spec.counted 0) labels preds
                  + Spec.false_negatives (Spec.counted 0) labels preds).
  { rewrite (map_ext _ (np.bincount labels)) by (intros; lia).
    rewrite sumZ_bincount by apply NoDup_indices.
    rewrite (count_ext _ (Spec.counted 0)) by (intros; apply counted_indices).
    rewrite (count_fst _ labels preds) by lia. apply true_sum_split. }
  rewrite Eps, Ets. unfold sklearn._prf_divide_warnings.
  cbn [existsb combine fst snd String.eqb Ascii.eqb Bool.eqb orb negb].
  rewrite !Qeq_bool_inject_Z, !orb_false_r.
  destruct (_ + Spec.false_positives _ _ _ =? 0); destruct (_ + Spec.false_negatives _ _ _ =? 0);
    reflexivity.
Qed.

(** C5 as stated fails: on a batch with every prediction [no_relation] and
    a true label that is not, the score is 0 but the library emits no
    warning. *)
Lemma klue_re_micro_f1_silent_counterexample :
  Forall (fun p => p = 0) [0; 0; 0]
  /\ Exists (fun l => l <> 0) [0; 5; 29]
  /\ (exists f, klue_re_micro_f1 [0; 0; 0] [0; 5; 29] = Return f /\ (f == 0)%Q)
  /\ klue_re_micro_f1_warnings [0; 0; 0] [0; 5; 29] = Return [].
Proof.
  split; [repeat constructor|]. split; [right; left; discriminate|].
  split; [eexists; split; reflexivity|reflexivity].
Qed.

(** C5, as the code has it. When every prediction is the index of
    [no_relation], [klue_re_micro_f1] returns 0 for all labels: the pooled
    true positives and false positives are both zero, the quotient of the
    one by their sum is the undefined 0/0, and the library puts 0 in its
    place instead of raising. It does so without a warning whenever a true
    label is one of the 29 counted classes; the only warning of the call,
    for an F-score without predicted and without true examples, appears
    exactly when no true label is a counted class. *)
Theorem klue_re_micro_f1_always_no_relation (preds labels : list Z) :
  length preds = length labels ->
  Forall (fun p => p = 0) preds ->
  Spec.true_positives (Spec.counted 0) labels preds
    + Spec.false_positives (Spec.counted 0) labels preds = 0
  /\ Float.div (Float.of_Z (Spec.true_positives (Spec.counted 0) labels preds))
               (Float.of_Z (Spec.true_positives (Spec.counted 0) labels preds
                            + Spec.false_positives (Spec.counted 0) labels preds)) = NaN
  /\ (exists f, klue_re_micro_f1 preds labels = Return f /\ (f == 0)%Q)
  /\ klue_re_micro_f1_warnings preds labels
     = Return (if existsb (Spec.counted 0) labels then []
               else [sklearn.UndefinedMetricWarning "F-score"]).
Proof.
  intros Hlen Hzero.
  assert (Hsnd : forall lp, In lp (combine labels preds) -> snd lp = 0).
  { intros [l p] Hin. apply in_combine_r in Hin. rewrite List.Forall_forall in Hzero.
    apply Hzero, Hin. }
  assert (Htp : Spec.true_positives (Spec.counted 0) labels preds = 0).
  { apply count_none. intros lp Hin. rewrite (Hsnd lp Hin).
    destruct (Z.eqb_spec (fst lp) 0) as [->|]; [reflexivity|apply andb_false_r]. }
  assert (Hfp : Spec.false_positives (Spec.counted 0) labels preds = 0).
  { apply count_none. intros lp Hin. rewrite (Hsnd lp Hin). reflexivity. }
  split; [lia|]. split; [rewrite Htp, Hfp; reflexivity|]. split.
  - destruct (klue_re_micro_f1_value preds labels Hlen) as (f & Hf & Hv).
    exists f. split; [exact Hf|]. rewrite Hv.
    unfold Spec.micro_f1, Spec.precision. rewrite Htp, Hfp. change (Spec.ratio 0 (0 + 0)) with 0%Q.
    destruct (Qeq_bool _ 0) eqn:E; [field|].
    apply Qeq_bool_neq in E. field. intros H. apply E. rewrite H. reflexivity.
  - rewrite (klue_re_micro_f1_warnings_value preds labels Hlen), Htp, Hfp.
    cbn [Z.add Z.eqb andb]. rewrite andb_true_r.
    assert (Hfn : Spec.false_negatives (Spec.counted 0) labels preds
                  = count (Spec.counted 0) labels).
    { unfold Spec.false_negatives. rewrite (count_fst (Spec.counted 0) labels preds) by lia.
      apply count_ext. intros lp Hin. rewrite (Hsnd lp Hin).
      destruct (Spec.counted 0 (fst lp)) eqn:Ec; [|reflexivity].
      destruct (Z.eqb_spec (fst lp) 0) as [E0|]; [|reflexivity].
      rewrite E0 in Ec. discriminate. }
    rewrite Hfn, Z.add_0_l. destruct (existsb (Spec.counted 0) labels) eqn:Eex.
    + apply existsb_exists in Eex as (l & Hl & Hc).
      pose proof (count_pos_exists (Spec.counted 0) labels (ex_intro _ l (conj Hl Hc))).
      destruct (Z.eqb_spec (count (Spec.counted 0) labels) 0); [lia|reflexivity].
    + rewrite count_none; [reflexivity|]. intros l Hl.
      destruct (Spec.counted 0 l) eqn:Ec; [|reflexivity].
      assert (existsb (Spec.counted 0) labels = true); [|congruence].
      apply existsb_exists. exists l. split; assumption.
Qed.

Lemma klue_re_micro_f1_always_no_relation_witness :
  Spec.true_positives (Spec.counted 0) [0; 5; 29] [0; 0; 0]
    + Spec.false_positives (Spec.counted 0) [0; 5; 29] [0; 0; 0] = 0
  /\ Float.div (Float.of_Z (Spec.true_positives (Spec.counted 0) [0; 5; 29] [0; 0; 0]))
               (Float.of_Z (Spec.true_positives (Spec.counted 0) [0; 5; 29] [0; 0; 0]
                            + Spec.false_positives (Spec.counted 0) [0; 5; 29] [0; 0; 0])) = NaN
  /\ (exists f, klue_re_micro_f1 [0; 0; 0] [0; 5; 29] = Return f /\ (f == 0)%Q)
  /\ klue_re_micro_f1_warnings [0; 0; 0] [0; 5; 29]
     = Return (if existsb (Spec.counted 0) [0; 5; 29] then []
               else [sklearn.UndefinedMetricWarning "F-score"]).
Proof.
  apply (klue_re_micro_f1_always_no_relation [0; 0; 0] [0; 5; 29]).
  - reflexivity.
  - repeat constructor.
Defined.

(** C7. On labels [0,0,1] and predictions [0,1,1] the script returns
    200/3 (one true positive and one false positive of class 1, no false
    negative), which is 100 times the reference micro F1 restricted to the
    classes other than 0. *)
Theorem klue_re_micro_f1_scenario :
  exists f, klue_re_micro_f1 [0; 1; 1] [0; 0; 1] = Return f
            /\ (f == 200 / 3)%Q
            /\ (f == 100 * Spec.micro_f1 (fun c => negb (c =? 0)) [0; 0; 1]%Z [0; 1; 1]%Z)%Q.
Proof.
  eexists. split; [reflexivity|]. split; reflexivity.
Qed.

(** ** The label codec and the training run *)

Lemma traverse_cons {A B : Type} (f : A -> outcome B) (a : A) (l : list A) :
  traverse f (a :: l) =
    match f a with
    | Return b => match traverse f l with
                  | Return bs => Return (b :: bs)
                  | Raise e => Raise e
                  end
    | Raise e => Raise e
    end.
Proof. reflexivity. Qed.

Section Codec.

Variable dict : gmap string Z.

Lemma traverse_getitem_present (label : list string) :
Forall (fun v => is_Some (dict !! v)) label ->
exists nums, traverse (dict_getitem dict) label = Return nums
             /\ length nums = length label
             /\ Forall2 (fun v n => dict !! v = Some n) label nums.
Proof.
induction 1 as [|v label [n Hn] _ (nums & E & Hlen & HF)].
- exists []. repeat split; constructor.
- exists (n :: nums). rewrite traverse_cons, E. unfold dict_getitem. rewrite Hn.
  repeat split; [simpl; congruence|]. constructor; assumption.
Qed.

Lemma traverse_getitem_absent (label : list string) :
Exists (fun v => dict !! v = None) label ->
exists v, In v label /\ dict !! v = None
          /\ traverse (dict_getitem dict) label = Raise (KeyError v).
Proof.
induction label as [|w label IH]; intros Hex; [inversion Hex|].
rewrite traverse_cons. unfold dict_getitem at 1.
destruct (dict !! w) as [n|] eqn:Hw.
- assert (Hex' : Exists (fun v => dict !! v = None) label).
  { inversion Hex; subst; [congruence|assumption]. }
  destruct (IH Hex') as (v & Hin & Hv & E).
  exists v. repeat split; [right; exact Hin|exact Hv|].
  rewrite E. reflexivity.
- exists w. repeat split; [left; reflexivity|exact Hw].
Qed.

Variable d : disk.
Hypothesis Hfile : d !! mapping_file = Some dict.

Lemma label_to_num_unfold (label : list string) :
label_to_num label d = (traverse (dict_getitem dict) label, load_events).
Proof using Hfile.
unfold label_to_num, mbind, io_bind, open_and_load, lift. rewrite Hfile.
rewrite app_nil_r. reflexivity.
Qed.

Lemma bind_unfold {A B : Type} (m : io A) (k : A -> io B) :
(m ≫= k) d =
  match m d with
  | (Return a, t1) => let (r, t2) := k a d in (r, t1 ++ t2)
  | (Raise e, t1) => (Raise e, t1)
  end.
Proof using Type. reflexivity. Qed.

Lemma bind_emit {B : Type} (e : event) (k : unit -> io B) :
(emit e ≫= k) d = let (r, t) := k tt d in (r, e :: t).
Proof using Type. reflexivity. Qed.

Lemma bind_getattr_in {B : Type} (args : Namespace) (name : string) (k : unit -> io B) :
name ∈ args -> (getattr args name ≫= k) d = k tt d.
Proof using Type.
intros H. rewrite bind_unfold. unfold getattr, lift.
destruct (decide (name ∈ args)); [|contradiction]. destruct (k tt d). reflexivity.
Qed.

Lemma bind_getattr_out {B : Type} (args : Namespace) (name : string) (k : unit -> io B) :
name ∉ args -> (getattr args name ≫= k) d = (Raise (AttributeError name), []).
Proof using Type.
intros H. rewrite bind_unfold. unfold getattr, lift.
destruct (decide (name ∈ args)); [contradiction|reflexivity].
Qed.

Lemma bind_label_to_num {B : Type} (label : list string) (k : list Z -> io B) :
(label_to_num label ≫= k) d =
  match traverse (dict_getitem dict) label with
  | Return nums => let (r, t) := k nums d in (r, load_events ++ t)
  | Raise e => (Raise e, load_events)
  end.
Proof using Hfile.
rewrite bind_unfold, label_to_num_unfold.
destruct (traverse (dict_getitem dict) label) as [nums|e]; reflexivity.
Qed.

(** A run of [train] under the script's parser. *)
Lemma train_unfold (tl dl : list string) :
train parse_args tl dl d =
  match traverse (dict_getitem dict) tl with
  | Raise e => (Raise e, before_labels ++ load_events)
  | Return _ =>
      match traverse (dict_getitem dict) dl with
      | Raise e => (Raise e, before_labels ++ load_events ++ load_events)
      | Return _ => (Raise (AttributeError "tokenize"),
                     before_labels ++ (load_events ++ load_events) ++ before_tokenize)
      end
  end.
Proof using Hfile.
unfold train.
repeat (first [ rewrite bind_emit
              | rewrite bind_getattr_in by (apply (bool_decide_unpack _); vm_compute; exact I) ];
        cbv beta).
rewrite bind_label_to_num.
destruct (traverse (dict_getitem dict) tl) as [a|e]; [|reflexivity].
rewrite bind_label_to_num.
destruct (traverse (dict_getitem dict) dl) as [b|e]; [|reflexivity].
repeat (first [ rewrite bind_emit
              | rewrite bind_getattr_in by (apply (bool_decide_unpack _); vm_compute; exact I) ];
        cbv beta).
rewrite bind_getattr_out by (apply (bool_decide_unpack _); vm_compute; exact I).
reflexivity.
Qed.

End Codec.

Lemma not_in_label_phase (e : event) (n : nat) :
  is_call e -> (forall c, e = EvCall c -> ~ In e before_labels) ->
  ~ In e (before_labels ++ concat (repeat load_events n)).
Proof.
  intros Hc Hpre Hin. apply in_app_or in Hin as [Hin|Hin].
  - destruct e; try contradiction. exact (Hpre _ eq_refl Hin).
  - apply in_concat in Hin as (evs & Hevs & Hin). apply repeat_spec in Hevs. subst evs.
    destruct e; try contradiction. simpl in Hin. intuition discriminate.
Qed.

(** C3. With the mapping file holding [dict]: if every label is a key of
    [dict], [label_to_num] returns the indices of the labels, as many as
    the labels and in their order; if some label is not a key, it raises
    KeyError for such a label, and a training run (under the arguments
    that the script's parser defines) that converts these labels, as
    training or as validation labels, ends in that error before any
    tokenization or training. *)
Theorem label_to_num_order_length_or_abort
    (d : disk) (dict : gmap string Z) (label : list string) :
  d !! mapping_file = Some dict ->
  (Forall (fun v => is_Some (dict !! v)) label ->
     exists nums, fst (label_to_num label d) = Return nums
                  /\ length nums = length label
                  /\ Forall2 (fun v n => dict !! v = Some n) label nums)
  /\ (Exists (fun v => dict !! v = None) label ->
      (exists v, In v label /\ dict !! v = None
                 /\ fst (label_to_num label d) = Raise (KeyError v))
      /\ forall other, aborted dict (train parse_args label other d)
                       /\ aborted dict (train parse_args other label d)).
Proof.
  intros Hfile. split.
  - intros Hall. rewrite (label_to_num_unfold dict d Hfile).
    apply traverse_getitem_present, Hall.
  - intros Hex. destruct (traverse_getitem_absent dict label Hex) as (v & Hin & Hv & E).
    split.
    + exists v. rewrite (label_to_num_unfold dict d Hfile). auto.
    + intros other. split.
      * rewrite (train_unfold dict d Hfile), E. split; [exists v; auto|].
        split; apply (not_in_label_phase _ 1); simpl; try exact I;
          intros c _ H; intuition discriminate.
      * rewrite (train_unfold dict d Hfile), E.
        destruct (traverse (dict_getitem dict) other) as [nums|e] eqn:Eo.
        -- split; [exists v; auto|].
           split; apply (not_in_label_phase _ 2); simpl; try exact I;
             intros c _ H; intuition discriminate.
        -- assert (Hk : exists k, e = KeyError k /\ dict !! k = None).
           { clear -Eo. revert e Eo. induction other as [|w other IH]; intros e Eo; [discriminate|].
             rewrite traverse_cons in Eo. unfold dict_getitem at 1 in Eo.
             destruct (dict !! w) eqn:Hw.
             - destruct (traverse (dict_getitem dict) other); [discriminate|].
               injection Eo as <-. apply IH. reflexivity.
             - injection Eo as <-. eauto. }
           destruct Hk as (k & -> & Hk). split; [exists k; auto|].
           split; apply (not_in_label_phase _ 1); simpl; try exact I;
             intros c _ H; intuition discriminate.
Qed.

Lemma label_to_num_order_length_or_abort_witness :
  exists nums, fst (label_to_num ["no_relation"; "no_relation"] disk0) = Return nums
               /\ length nums = 2%nat
               /\ Forall2 (fun v n => ({[ "no_relation"%string := 0 ]} : gmap string Z) !! v = Some n)
                    ["no_relation"; "no_relation"]%string nums.
Proof.
  apply (label_to_num_order_length_or_abort disk0 {[ "no_relation"%string := 0 ]}
           ["no_relation"; "no_relation"]%string).
  - reflexivity.
  - repeat constructor; eexists; reflexivity.
Defined.




(** ** Traversals and the one-hot encoding *)

Section Traverse.

Context {A B : Type}.

Lemma traverse_ext (f g : A -> outcome B) (l : list A) :
  (forall a, In a l -> f a = g a) -> traverse f l = traverse g l.
Proof.
  induction l as [|a l IH]; intros H; [reflexivity|].
  rewrite !traverse_cons, (H a) by (left; reflexivity).
  rewrite IH; [reflexivity|]. intros b Hb. apply H. right. exact Hb.
Qed.

Lemma traverse_return (f : A -> outcome B) (g : A -> B) (l : list A) :
  (forall a, In a l -> f a = Return (g a)) -> traverse f l = Return (map g l).
Proof.
  induction l as [|a l IH]; intros H; [reflexivity|].
  rewrite traverse_cons, (H a) by (left; reflexivity).
  rewrite IH; [reflexivity|]. intros b Hb. apply H. right. exact Hb.
Qed.

Lemma traverse_length (f : A -> outcome B) (l : list A) (bs : list B) :
  traverse f l = Return bs -> length bs = length l.
Proof.
  revert bs. induction l as [|a l IH]; intros bs H.
  - injection H as <-. reflexivity.
  - rewrite traverse_cons in H. destruct (f a); [|discriminate].
    destruct (traverse f l) eqn:E; [|discriminate].
    injection H as <-. simpl. f_equal. apply IH. reflexivity.
Qed.

Lemma traverse_raise (f : A -> outcome B) (l : list A) (e : exn) :
  traverse f l = Raise e -> exists a, In a l /\ f a = Raise e.
Proof.
  induction l as [|a l IH]; intros H; [discriminate|].
  rewrite traverse_cons in H. destruct (f a) eqn:Ea.
  - destruct (traverse f l); [discriminate|]. injection H as ->.
    destruct IH as (b & Hb & Eb); [reflexivity|]. exists b. split; [right|]; assumption.
  - injection H as ->. exists a. split; [left; reflexivity|assumption].
Qed.

Lemma traverse_raise_first (f : A -> outcome B) (l1 l2 : list A) (a : A) (e : exn) :
  (forall b, In b l1 -> returns (f b)) -> f a = Raise e ->
  traverse f (l1 ++ a :: l2) = Raise e.
Proof.
  intros H Ha. induction l1 as [|b l1 IH]; simpl app.
  - rewrite traverse_cons, Ha. reflexivity.
  - rewrite traverse_cons. destruct (H b) as [v ->]; [left; reflexivity|].
    rewrite IH; [reflexivity|]. intros c Hc. apply H. right. exact Hc.
Qed.

End Traverse.

Section OneHot.

Lemma eye_row (k : nat) : (k < 30)%nat -> nth_error (np.eye 30) k = Some (one_hot k).
Proof.
  intros H. unfold np.eye. rewrite nth_error_map, nth_error_seq.
  destruct (Nat.ltb_spec k 30); [reflexivity|lia].
Qed.

Lemma eye_length : length (np.eye 30) = 30%nat.
Proof. reflexivity. Qed.

Lemma one_hot_nth (k c : nat) :
  (c < 30)%nat -> nth_error (one_hot k) c = Some (if Nat.eqb k c then 1%Q else 0%Q).
Proof.
  intros H. unfold one_hot. rewrite nth_error_map, nth_error_seq.
  destruct (Nat.ltb_spec c 30); [reflexivity|lia].
Qed.

Lemma normalize_index_in (l : Z) :
  -30 <= l < 30 -> np.normalize_index 30 l = Return (row_of l) /\ (row_of l < 30)%nat.
Proof.
  intros H. unfold np.normalize_index, row_of.
  destruct (Z.leb_spec 0 l); destruct (Z.ltb_spec l (Z.of_nat 30)); simpl; try lia.
  - rewrite Z.mod_small by lia. split; [reflexivity|lia].
  - destruct (Z.leb_spec (- Z.of_nat 30) l); destruct (Z.ltb_spec l 0); simpl; try lia.
    assert (E : l mod 30 = l + Z.of_nat 30).
    { symmetry. apply Z.mod_unique with (q := -1); lia. }
    rewrite E. split; [reflexivity|lia].
Qed.

Lemma normalize_index_out (l : Z) :
  l < -30 \/ 30 <= l -> np.normalize_index 30 l = Raise IndexError.
Proof.
  intros H. unfold np.normalize_index.
  destruct (Z.leb_spec 0 l); destruct (Z.ltb_spec l (Z.of_nat 30)); simpl; try lia;
  destruct (Z.leb_spec (- Z.of_nat 30) l); destruct (Z.ltb_spec l 0); simpl; try lia; reflexivity.
Qed.

Lemma getitem_rows_eye (labels : list Z) :
  Forall (fun l => -30 <= l < 30) labels ->
  np.getitem_rows (np.eye 30) labels = Return (map (fun l => one_hot (row_of l)) labels).
Proof.
  intros H. unfold np.getitem_rows. apply traverse_return.
  intros l Hl. rewrite List.Forall_forall in H. specialize (H l Hl).
  destruct (normalize_index_in l H) as [E Hlt].
  rewrite eye_length, E. cbn [mbind outcome_bind]. rewrite (eye_row _ Hlt). reflexivity.
Qed.

Lemma getitem_rows_eye_out (labels : list Z) :
  Exists (fun l => l < -30 \/ 30 <= l) labels ->
  np.getitem_rows (np.eye 30) labels = Raise IndexError.
Proof.
  intros H. unfold np.getitem_rows.
  induction H as [l labels Hl | l labels _ IH].
  - rewrite traverse_cons, eye_length, (normalize_index_out l Hl). reflexivity.
  - rewrite traverse_cons, IH.
    destruct (np.normalize_index _ l) as [k|e] eqn:E; cbn [mbind outcome_bind].
    + destruct (nth_error (np.eye 30) k); reflexivity.
    + unfold np.normalize_index in E.
      repeat match type of E with (if ?b then _ else _) = _ => destruct b end;
        congruence.
Qed.

Lemma take_column_one_hot (labels : list Z) (c : nat) :
  (c < 30)%nat ->
  np.take_column (map (fun l => one_hot (row_of l)) labels) c
  = Return (map (fun l => if Nat.eqb (row_of l) c then 1%Q else 0%Q) labels).
Proof.
  intros Hc. unfold np.take_column. induction labels as [|l labels IH]; [reflexivity|].
  simpl map. rewrite traverse_cons, IH, (one_hot_nth _ _ Hc). reflexivity.
Qed.

Lemma one_vs_rest_row (labels : list Z) (c : nat) :
  Forall (fun l => 0 <= l < 30) labels ->
  map (fun l => if Nat.eqb (row_of l) c then 1%Q else 0%Q) labels
  = AuprcSpec.one_vs_rest c labels.
Proof.
  intros H. unfold AuprcSpec.one_vs_rest. apply map_ext_in. intros l Hl.
  rewrite List.Forall_forall in H. specialize (H l Hl). unfold row_of.
  rewrite Z.mod_small by lia.
  destruct (Nat.eqb_spec (Z.to_nat l) c); destruct (Z.eqb_spec l (Z.of_nat c)); try reflexivity; lia.
Qed.

End OneHot.

Lemma klue_re_auprc_unfold (probs : list (list Q)) (labels : list Z) :
  Forall (fun l => 0 <= l < 30) labels ->
  klue_re_auprc probs labels = AuprcSpec.mean_area probs labels.
Proof.
  intros H. unfold klue_re_auprc, AuprcSpec.mean_area.
  rewrite getitem_rows_eye by (eapply List.Forall_impl; [|exact H]; simpl; lia).
  cbn [mbind outcome_bind].
  rewrite (traverse_ext _ (AuprcSpec.class_area probs labels)).
  - destruct (traverse _ _) as [score|e] eqn:E; [|reflexivity].
    cbn [mbind outcome_bind]. unfold np.average, AuprcSpec.mean30.
    rewrite (traverse_length _ _ _ E). reflexivity.
  - intros c Hc. apply in_seq in Hc.
    rewrite take_column_one_hot by lia. cbn [mbind outcome_bind].
    rewrite one_vs_rest_row by exact H. reflexivity.
Qed.

(** ** The precision-recall curve and its area *)

Section ArrayFacts.

Lemma insert_by_score_length {A : Type} (s : Q * A) (l : list (Q * A)) :
  length (np.insert_by_score s l) = S (length l).
Proof.
  induction l as [|t l IH]; [reflexivity|].
  simpl. destruct (Qle_bool (fst s) (fst t)); simpl; [reflexivity|]. now rewrite IH.
Qed.

Lemma sort_by_score_length {A : Type} (l : list (Q * A)) :
  length (np.sort_by_score l) = length l.
Proof.
  induction l as [|s l IH]; [reflexivity|].
  simpl. rewrite insert_by_score_length, IH. reflexivity.
Qed.

Lemma diff_length {A : Type} (sub : A -> A -> A) (x : list A) :
  length (np.diff sub x) = (length x - 1)%nat.
Proof.
  induction x as [|a [|b x] IH]; [reflexivity..|].
  change (np.diff sub (a :: b :: x)) with (sub b a :: np.diff sub (b :: x)).
  simpl length in *. rewrite IH. lia.
Qed.

Lemma cumsum_from_length (acc : Q) (x : list Q) :
  length (np.cumsum_from acc x) = length x.
Proof.
  revert acc. induction x as [|v x IH]; intros acc; [reflexivity|].
  simpl. now rewrite IH.
Qed.

(** A running sum of non-negative entries starts above its seed and never
    decreases. *)
Lemma cumsum_from_mono (x : list Q) :
  Forall (fun v => (0 <= v)%Q) x ->
  forall acc i j, (i <= j < length x)%nat ->
    (acc <= nth i (np.cumsum_from acc x) 0 /\
     nth i (np.cumsum_from acc x) 0 <= nth j (np.cumsum_from acc x) 0)%Q.
Proof.
  induction 1 as [|v x Hv Hx IH]; intros acc i j Hij; [simpl in Hij; lia|].
  simpl np.cumsum_from. destruct j as [|j].
  - assert (i = 0%nat) as -> by lia. simpl. split; lra.
  - destruct i as [|i]; simpl nth.
    + destruct (IH (acc + v)%Q j j) as [H1 _]; [simpl in Hij; lia|]. split; lra.
    + destruct (IH (acc + v)%Q i j) as [H1 H2]; [simpl in Hij; lia|]. split; lra.
Qed.

(** The positions that [np.where] reports increase and stay within the
    array. *)
Lemma where_from_sorted (x : list Q) (i : nat) :
  StronglySorted lt (np.where_from i x)
  /\ Forall (fun k => (i <= k < i + length x)%nat) (np.where_from i x).
Proof.
  revert i. induction x as [|v x IH]; intros i; [split; constructor|].
  destruct (IH (S i)) as [Hs Hb]. simpl.
  assert (Hb' : Forall (fun k => (i <= k < i + S (length x))%nat) (np.where_from (S i) x)).
  { eapply List.Forall_impl; [|exact Hb]. simpl. intros; lia. }
  destruct (Qeq_bool v 0); [split; assumption|]. split.
  - constructor; [exact Hs|]. eapply List.Forall_impl; [|exact Hb]. simpl. intros; lia.
  - constructor; [lia|exact Hb'].
Qed.

Lemma StronglySorted_snoc_lt (l : list nat) (m : nat) :
  StronglySorted lt l -> Forall (fun k => (k < m)%nat) l -> StronglySorted lt (l ++ [m]).
Proof.
  intros Hs Hb. apply StronglySorted_app_2; [|exact Hs|repeat constructor].
  intros a b Ha Hb'. apply list_elem_of_In in Ha. apply list_elem_of_In in Hb'.
  rewrite List.Forall_forall in Hb. destruct Hb' as [<-|[]]. apply Hb, Ha.
Qed.

Lemma StronglySorted_map_mono {A B : Type} (R : relation A) (R' : relation B)
    (g : A -> B) (l : list A) :
  StronglySorted R l ->
  (forall x y, In x l -> In y l -> R x y -> R' (g x) (g y)) ->
  StronglySorted R' (map g l).
Proof.
  induction 1 as [|a l Hs IH Ha]; intros Hg; [constructor|].
  simpl. constructor.
  - apply IH. intros x y Hx Hy. apply Hg; right; assumption.
  - rewrite List.Forall_forall in *. intros b Hb. apply in_map_iff in Hb as (x & <- & Hx).
    apply Hg; [left; reflexivity|right; exact Hx|]. apply Ha, Hx.
Qed.

Lemma firstn_In {A : Type} (k : nat) (l : list A) (x : A) :
  In x (firstn k l) -> In x l.
Proof.
  revert l. induction k as [|k IH]; intros [|a l] H; simpl in *; try tauto.
  destruct H as [H|H]; [left; exact H|right; apply IH, H].
Qed.

Lemma StronglySorted_firstn {A : Type} (R : relation A) (k : nat) (l : list A) :
  StronglySorted R l -> StronglySorted R (firstn k l).
Proof.
  intros H. rewrite <- (firstn_skipn k l) in H. eapply StronglySorted_app_1_l, H.
Qed.

Lemma StronglySorted_rev_flip {A : Type} (R : relation A) (l : list A) :
  StronglySorted R l -> StronglySorted (flip R) (rev l).
Proof.
  induction 1 as [|a l Hs IH Ha]; [constructor|].
  simpl. apply StronglySorted_app_2; [|exact IH|repeat constructor].
  intros x y Hx Hy. apply list_elem_of_In in Hx. apply list_elem_of_In in Hy.
  destruct Hy as [<-|[]]. apply in_rev in Hx. rewrite List.Forall_forall in Ha.
  apply Ha, Hx.
Qed.

End ArrayFacts.

Section Curve.

Lemma binary_values (y : list Q) :
  binary y ->
  forallb (fun v => existsb (Qeq_bool v) [0; 1]%Q) y = true
  /\ forallb (fun v => existsb (Qeq_bool v) [0]%Q) y = negb (existsb (Qeq_bool 1) y)
  /\ forallb (fun v => existsb (Qeq_bool v) [1]%Q) y = negb (existsb (Qeq_bool 0) y).
Proof.
  induction 1 as [|v y [->| ->] _ (IH1 & IH2 & IH3)]; [repeat split|..];
    cbn [forallb]; rewrite IH1, IH2, IH3; repeat split.
Qed.

Lemma check_pos_label_binary (y : list Q) :
  y <> [] -> binary y -> sklearn._check_pos_label_consistency y = Return 1%Q.
Proof.
  intros Hne Hb. unfold sklearn._check_pos_label_consistency.
  destruct (binary_values y Hb) as (H01 & H0 & H1).
  assert (Hsome : existsb (Qeq_bool 0) y || existsb (Qeq_bool 1) y = true).
  { destruct Hb as [|v y [->| ->] _]; [congruence|reflexivity|].
    cbn [existsb]. change (Qeq_bool 1 1) with true. apply orb_true_r. }
  assert (E : existsb (sklearn.same_values y) [[0; 1]; [-1; 1]; [0]; [-1]; [1]]%Q = true).
  { apply existsb_exists. unfold sklearn.same_values.
    destruct (existsb (Qeq_bool 0) y) eqn:E0; destruct (existsb (Qeq_bool 1) y) eqn:E1;
      try discriminate.
    - exists [0; 1]%Q. split; [simpl; tauto|]. rewrite H01. cbn [forallb]. rewrite E0, E1. reflexivity.
    - exists [0]%Q. split; [simpl; tauto|]. rewrite H0. cbn [forallb]. rewrite E0. reflexivity.
    - exists [1]%Q. split; [simpl; tauto|]. rewrite H1. cbn [forallb]. rewrite E1. reflexivity. }
  rewrite E. reflexivity.
Qed.

(** The curve of a non-empty binary problem: one count per threshold, the
    true positive counts non-negative and non-decreasing. *)
Lemma binary_clf_curve_returns (y s : list Q) :
  y <> [] -> length y = length s -> binary y ->
  exists fps tps ths,
    sklearn._binary_clf_curve y s = Return (fps, tps, ths)
    /\ length fps = length tps /\ length ths = length tps /\ tps <> []
    /\ StronglySorted Qle tps /\ Forall (fun t => (0 <= t)%Q) tps.
Proof.
  intros Hne Hlen Hb. unfold sklearn._binary_clf_curve, sklearn.check_consistent_length.
  rewrite Hlen, Nat.eqb_refl, (check_pos_label_binary y Hne Hb).
  cbn [mbind outcome_bind].
  set (sorted := rev (np.sort_by_score _)).
  set (ind := map (fun b : bool => if b then 1%Q else 0%Q) (map snd sorted)).
  set (idxs := np.where_ _ ++ [_]).
  assert (Hn : length sorted = length y).
  { unfold sorted. rewrite length_rev, sort_by_score_length, length_combine, length_map. lia. }
  assert (Hpos : (0 < length y)%nat) by (destruct y; [congruence|simpl; lia]).
  assert (Hidx : StronglySorted lt idxs /\ Forall (fun k => (k < length y)%nat) idxs).
  { unfold idxs, np.where_.
    destruct (where_from_sorted (np.diff Qminus (map fst sorted)) 0) as [Hs Hbd].
    rewrite diff_length, !length_map, Hn in *.
    split.
    - apply StronglySorted_snoc_lt; [exact Hs|].
      eapply List.Forall_impl; [|exact Hbd]. simpl. intros; lia.
    - apply Forall_app. split; [|repeat constructor; lia].
      eapply List.Forall_impl; [|exact Hbd]. simpl. intros; lia. }
  destruct Hidx as [Hs Hbd].
  assert (Hind : Forall (fun v => (0 <= v)%Q) ind).
  { unfold ind. apply List.Forall_forall. intros v Hv.
    apply in_map_iff in Hv as ([|] & <- & _); lra. }
  assert (Hcs : forall i j, (i <= j < length y)%nat ->
            (0 <= nth i (np.cumsum ind) 0 <= nth j (np.cumsum ind) 0)%Q).
  { intros i j Hij. apply (cumsum_from_mono ind Hind 0%Q i j).
    unfold ind. rewrite !length_map, Hn. exact Hij. }
  eexists _, _, _. split; [reflexivity|]. unfold np.getitem.
  rewrite length_map, length_combine, !length_map. repeat split.
  - lia.
  - unfold idxs. destruct (np.where_ _); discriminate.
  - apply (StronglySorted_map_mono lt Qle); [exact Hs|].
    intros a b Ha Hb' Hab. rewrite List.Forall_forall in Hbd.
    apply (Hcs a b). split; [lia|]. apply Hbd, Hb'.
  - apply List.Forall_forall. intros t Ht. apply in_map_iff in Ht as (i & <- & Hi).
    rewrite List.Forall_forall in Hbd. apply (Hcs i i). split; [lia|]. apply Hbd, Hi.
Qed.

End Curve.

Section Area.

Lemma diff_cons2 {A : Type} (sub : A -> A -> A) (a b : A) (x : list A) :
  np.diff sub (a :: b :: x) = sub b a :: np.diff sub (b :: x).
Proof. reflexivity. Qed.

Lemma diff_descending (l : list Q) :
  StronglySorted (flip Qle) l ->
  forallb (fun d => Float.leb d (Fin 0)) (np.diff Float.sub (map Fin l)) = true.
Proof.
  induction 1 as [|a l Hs IH Ha]; [reflexivity|].
  destruct l as [|b l]; [reflexivity|].
  simpl map in *. rewrite diff_cons2. cbn [forallb]. rewrite IH, andb_true_r.
  apply Forall_inv in Ha. unfold flip in Ha. simpl. apply Qle_bool_iff. lra.
Qed.

Lemma diff_after_nan (l : list float) (z : float) :
  Forall (fun v => v = NaN) l ->
  existsb (fun d => Float.ltb d (Fin 0)) (np.diff Float.sub (l ++ [z])) = false.
Proof.
  induction 1 as [|v l -> _ IH]; [reflexivity|].
  simpl app. destruct (l ++ [z]) as [|b r] eqn:E; [reflexivity|].
  rewrite diff_cons2. cbn [existsb]. rewrite IH.
  destruct b; reflexivity.
Qed.

Lemma last_nonneg (l : list Q) :
  Forall (fun t => (0 <= t)%Q) l -> (0 <= List.last l 0)%Q.
Proof.
  induction 1 as [|a l Ha Hl IH]; [simpl; lra|].
  destruct l; [exact Ha|exact IH].
Qed.

Lemma descending_recall (rs : list Q) (k : nat) :
  StronglySorted Qle rs -> Forall (fun t => (0 <= t)%Q) rs ->
  StronglySorted (flip Qle) (rev (firstn k rs) ++ [0%Q]).
Proof.
  intros Hs Hpos. apply StronglySorted_app_2; [| |repeat constructor].
  - intros a b Ha Hb. apply list_elem_of_In in Ha. apply list_elem_of_In in Hb.
    destruct Hb as [<-|[]]. apply in_rev in Ha. apply firstn_In in Ha.
    rewrite List.Forall_forall in Hpos. apply Hpos, Ha.
  - apply StronglySorted_rev_flip, StronglySorted_firstn, Hs.
Qed.

(** The recall axis that the curve hands to [auc] is accepted by it. *)
Lemma auc_of_curve_returns (fps tps : list Q) :
  length fps = length tps -> tps <> [] ->
  StronglySorted Qle tps -> Forall (fun t => (0 <= t)%Q) tps ->
  let precision :=
    map (fun tf : Q * Q =>
           match Float.div (Fin (fst tf)) (Fin (fst tf + snd tf)) with
           | NaN => Fin 0
           | v => v
           end) (combine tps fps) in
  let recall := map (fun t => Float.div (Fin t) (Fin (List.last tps 0%Q))) tps in
  let last_ind := np.searchsorted tps (List.last tps 0%Q) in
  returns (sklearn.auc (np.slice_down recall last_ind ++ [Fin 0])
                       (np.slice_down precision last_ind ++ [Fin 1])).
Proof.
  intros Hlen Hne Hs Hpos precision recall last_ind.
  unfold sklearn.auc, sklearn.check_consistent_length, np.slice_down.
  assert (Hlr : length recall = length tps) by (unfold recall; apply length_map).
  assert (Hlp : length precision = length tps).
  { unfold precision. rewrite length_map, length_combine. lia. }
  assert (Hpos' : (0 < length tps)%nat) by (destruct tps; [congruence|simpl; lia]).
  rewrite !length_app, !length_rev, !length_firstn, Hlr, Hlp, Nat.eqb_refl.
  cbn [mbind outcome_bind length].
  destruct (Nat.ltb_spec (Init.Nat.min (S last_ind) (length tps) + 1) 2) as [Hlt|_]; [lia|].
  set (T := List.last tps 0%Q) in *.
  assert (HT : (0 <= T)%Q) by (apply last_nonneg, Hpos).
  destruct (Qeq_bool T 0) eqn:ET.
  - assert (Hnan : Forall (fun v => v = NaN) recall).
    { unfold recall. apply List.Forall_forall. intros v Hv.
      apply in_map_iff in Hv as (t & <- & _). simpl. rewrite ET. reflexivity. }
    rewrite diff_after_nan; [eexists; reflexivity|].
    apply List.Forall_forall. intros v Hv. apply in_rev in Hv. apply firstn_In in Hv.
    rewrite List.Forall_forall in Hnan. apply Hnan, Hv.
  - apply Qeq_bool_neq in ET.
    assert (Erec : recall = map Fin (map (fun t => t / T)%Q tps)).
    { unfold recall. rewrite map_map. apply map_ext. intros t. simpl.
      destruct (Qeq_bool T 0) eqn:E; [apply Qeq_bool_iff in E; contradiction|reflexivity]. }
    rewrite Erec, List.firstn_map, <- map_rev.
    change [Fin 0] with (map Fin [0%Q]). rewrite <- map_app.
    rewrite diff_descending.
    + destruct (existsb _ _); eexists; reflexivity.
    + apply descending_recall.
      * apply (StronglySorted_map_mono Qle Qle); [exact Hs|].
        intros x y _ _ Hxy. apply Qmult_le_compat_r; [exact Hxy|].
        apply Qinv_le_0_compat, HT.
      * apply List.Forall_forall. intros v Hv. apply in_map_iff in Hv as (t & <- & Ht).
        rewrite List.Forall_forall in Hpos. specialize (Hpos t Ht).
        apply Qle_shift_div_l; [lra|]. lra.
Qed.

Lemma precision_recall_auc_returns (y s : list Q) :
  y <> [] -> length y = length s -> binary y ->
  returns ('(precision, recall, _) ← sklearn.precision_recall_curve y s;
           sklearn.auc recall precision).
Proof.
  intros Hne Hlen Hb.
  destruct (binary_clf_curve_returns y s Hne Hlen Hb)
    as (fps & tps & ths & E & Hl & _ & Htps & Hs & Hpos).
  unfold sklearn.precision_recall_curve. rewrite E. cbn [mbind outcome_bind].
  apply (auc_of_curve_returns fps tps Hl Htps Hs Hpos).
Qed.

End Area.

(** ** The curve as a threshold sweep *)

Section Sorting.

Context {A : Type}.

Lemma insert_by_score_perm (s : Q * A) (l : list (Q * A)) :
  Permutation (np.insert_by_score s l) (s :: l).
Proof.
  induction l as [|t l IH]; [reflexivity|].
  simpl. destruct (Qle_bool (fst s) (fst t)); [reflexivity|].
  rewrite IH. apply perm_swap.
Qed.

Lemma sort_by_score_perm (l : list (Q * A)) : Permutation (np.sort_by_score l) l.
Proof.
  induction l as [|s l IH]; [reflexivity|].
  simpl. rewrite insert_by_score_perm, IH. reflexivity.
Qed.

Lemma insert_by_score_sorted (s : Q * A) (l : list (Q * A)) :
  StronglySorted (fun a b => (fst a <= fst b)%Q) l ->
  StronglySorted (fun a b => (fst a <= fst b)%Q) (np.insert_by_score s l).
Proof.
  induction 1 as [|t l Hs IH Ht]; [repeat constructor|].
  simpl. destruct (Qle_bool (fst s) (fst t)) eqn:E.
  - apply Qle_bool_iff in E. constructor; [constructor; assumption|].
    constructor; [exact E|]. eapply List.Forall_impl; [|exact Ht].
    simpl. intros z Hz. lra.
  - assert (Hlt : (fst t < fst s)%Q).
    { apply Qnot_le_lt. intros H. apply Qle_bool_iff in H. congruence. }
    constructor; [exact IH|].
    apply (Permutation_Forall (Permutation_sym (insert_by_score_perm s l))).
    constructor; [lra|exact Ht].
Qed.

Lemma sort_by_score_sorted (l : list (Q * A)) :
  StronglySorted (fun a b => (fst a <= fst b)%Q) (np.sort_by_score l).
Proof.
  induction l as [|s l IH]; [constructor|]. simpl. apply insert_by_score_sorted, IH.
Qed.

Lemma sorted_samples (l : list (Q * A)) :
  descending (rev (np.sort_by_score l)) /\ Permutation (rev (np.sort_by_score l)) l.
Proof.
  split.
  - apply (StronglySorted_rev_flip _ _ (sort_by_score_sorted l)).
  - rewrite <- Permutation_rev. apply sort_by_score_perm.
Qed.

End Sorting.

Section Counts.

Lemma count_app {A : Type} (p : A -> bool) (l1 l2 : list A) :
  count p (l1 ++ l2) = count p l1 + count p l2.
Proof.
  induction l1 as [|a l1 IH]; [unfold count; simpl; lia|].
  simpl app. rewrite !count_cons, IH. lia.
Qed.

Lemma count_perm {A : Type} (p : A -> bool) (l1 l2 : list A) :
  Permutation l1 l2 -> count p l1 = count p l2.
Proof.
  induction 1 as [|a l1 l2 _ IH|a b l|l1 l2 l3 _ IH1 _ IH2];
    rewrite ?count_cons; lia.
Qed.

Lemma count_all {A : Type} (p : A -> bool) (l : list A) :
  Forall (fun a => p a = true) l -> count p l = Z.of_nat (length l).
Proof.
  induction 1 as [|a l Ha _ IH]; [reflexivity|].
  rewrite count_cons, Ha, IH. simpl length. lia.
Qed.

(** The running count of positives among the samples up to position [i]. *)
Lemma cumsum_count (bs : list bool) (acc : Q) (i : nat) :
  (i < length bs)%nat ->
  (nth i (np.cumsum_from acc (map (fun b : bool => if b then 1 else 0) bs)) 0
   == acc + inject_Z (count (fun b : bool => b) (firstn (S i) bs)))%Q.
Proof.
  revert acc i. induction bs as [|b bs IH]; intros acc i Hi; [simpl in Hi; lia|].
  simpl map. simpl np.cumsum_from. destruct i as [|i].
  - simpl nth. change (firstn 1 (b :: bs)) with [b]. rewrite count_cons, count_nil, Z.add_0_r.
    destruct b; unfold inject_Z; ring.
  - simpl nth. rewrite IH by (simpl in Hi; lia).
    change (firstn (S (S i)) (b :: bs)) with (b :: firstn (S i) bs).
    rewrite count_cons, inject_Z_plus. destruct b; unfold inject_Z at 2; ring.
Qed.

End Counts.

Section RunEnds.

Lemma where_from_In (x : list Q) (a i : nat) :
  In i (np.where_from a x) ->
  exists j, i = (a + j)%nat /\ (j < length x)%nat /\ Qeq_bool (nth j x 0%Q) 0 = false.
Proof.
  revert a. induction x as [|v x IH]; intros a Hin; [destruct Hin|].
  simpl in Hin. destruct (Qeq_bool v 0) eqn:E.
  - destruct (IH _ Hin) as (j & -> & Hj & Hv). exists (S j). simpl. repeat split; [lia|lia|exact Hv].
  - destruct Hin as [<-|Hin].
    + exists 0%nat. simpl. repeat split; [lia|lia|exact E].
    + destruct (IH _ Hin) as (j & -> & Hj & Hv). exists (S j). simpl.
      repeat split; [lia|lia|exact Hv].
Qed.

Lemma diff_nth (x : list Q) (j : nat) :
  (S j < length x)%nat ->
  nth j (np.diff Qminus x) 0%Q = (nth (S j) x 0 - nth j x 0)%Q.
Proof.
  revert j. induction x as [|a [|b x] IH]; intros j Hj; simpl in Hj; try lia.
  rewrite diff_cons2. destruct j as [|j]; [reflexivity|].
  change (nth (S j) (b - a :: np.diff Qminus (b :: x)) 0)%Q with (nth j (np.diff Qminus (b :: x)) 0%Q).
  rewrite IH by (simpl; lia). reflexivity.
Qed.

Context {A : Type}.

Lemma descending_tail (l1 l2 : list (Q * A)) (x : Q * A) :
  descending (l1 ++ x :: l2) ->
  Forall (fun z => (fst x <= fst z)%Q) l1
  /\ Forall (fun z => (fst z <= fst x)%Q) l2
  /\ descending l2.
Proof.
  intros H. apply StronglySorted_app in H as (H12 & _ & H2).
  apply StronglySorted_inv in H2 as [H2 Hx]. split; [|split; assumption].
  apply List.Forall_forall. intros z Hz. apply (H12 z x).
  - apply list_elem_of_In, Hz.
  - apply list_elem_of_In. left. reflexivity.
Qed.

Lemma split_at (S : list (Q * A)) (i : nat) :
  (i < length S)%nat -> exists l1 x l2, S = l1 ++ x :: l2 /\ length l1 = i.
Proof.
  intros Hi. destruct S as [|d S]; [simpl in Hi; lia|].
  destruct (nth_split (d :: S) d Hi) as (l1 & l2 & E & Hl). eauto.
Qed.

Lemma nth_score (l1 l2 : list (Q * A)) (x : Q * A) :
  nth (length l1) (map fst (l1 ++ x :: l2)) 0%Q = fst x.
Proof.
  rewrite map_app. simpl map. rewrite <- (length_map fst l1). apply nth_middle.
Qed.

(** The positions that the curve keeps are the ends of the runs of equal
    scores. *)
Lemma threshold_idxs_run_ends (S : list (Q * A)) :
  descending S -> S <> [] ->
  Forall (run_end S) (np.where_ (np.diff Qminus (map fst S)) ++ [(length (map snd S) - 1)%nat]).
Proof.
  intros Hd Hne. apply Forall_app. split.
  - apply List.Forall_forall. intros i Hi. apply where_from_In in Hi as (j & -> & Hj & Hv).
    simpl. rewrite diff_length, length_map in Hj.
    destruct (split_at S j) as (l1 & x & l2 & -> & <-); [lia|].
    rewrite diff_nth in Hv by (rewrite length_map; lia).
    destruct l2 as [|z0 l2]; [rewrite length_app in Hj; simpl in Hj; lia|].
    rewrite nth_score in Hv.
    replace (S (length l1)) with (length (l1 ++ [x])) in Hv by (rewrite length_app; simpl; lia).
    replace (l1 ++ x :: z0 :: l2) with ((l1 ++ [x]) ++ z0 :: l2) in Hv
      by (rewrite <- app_assoc; reflexivity).
    rewrite nth_score in Hv.
    destruct (descending_tail _ _ _ Hd) as (_ & Hle & Hd2).
    apply StronglySorted_inv in Hd2 as [_ Hz0].
    assert (Hlt : (fst z0 < fst x)%Q).
    { apply Forall_inv in Hle. apply Qeq_bool_neq in Hv. lra. }
    exists l1, x, (z0 :: l2). repeat split. constructor; [exact Hlt|].
    eapply List.Forall_impl; [|exact Hz0]. simpl. intros z Hz. lra.
  - repeat constructor. rewrite length_map.
    destruct (exists_last Hne) as (l1 & x & ->).
    exists l1, x, []. rewrite length_app. simpl. repeat split; [lia|constructor].
Qed.

Variable p : A -> bool.

Lemma run_end_counts (l1 l2 : list (Q * A)) (x : Q * A) :
  descending (l1 ++ x :: l2) -> Forall (fun z => (fst z < fst x)%Q) l2 ->
  count (fun z => p (snd z) && Qle_bool (fst x) (fst z)) (l1 ++ x :: l2)
    = count (fun z => p (snd z)) (l1 ++ [x])
  /\ count (fun z => Qle_bool (fst x) (fst z)) (l1 ++ x :: l2) = Z.of_nat (S (length l1)).
Proof.
  intros Hd Hlt. destruct (descending_tail _ _ _ Hd) as (H1 & _ & _).
  assert (Hx : Qle_bool (fst x) (fst x) = true) by (apply Qle_bool_iff; lra).
  assert (E1 : forall z, In z l1 -> Qle_bool (fst x) (fst z) = true).
  { intros z Hz. rewrite List.Forall_forall in H1. apply Qle_bool_iff, H1, Hz. }
  assert (E2 : forall z, In z l2 -> Qle_bool (fst x) (fst z) = false).
  { intros z Hz. rewrite List.Forall_forall in Hlt. specialize (Hlt z Hz).
    apply not_true_is_false. intros H. apply Qle_bool_iff in H. lra. }
  rewrite !count_app, !count_cons, count_nil, Hx, andb_true_r. split.
  - rewrite (count_ext _ (fun z => p (snd z)) l1)
      by (intros z Hz; rewrite (E1 z Hz); apply andb_true_r).
    rewrite (count_none _ l2) by (intros z Hz; rewrite (E2 z Hz); apply andb_false_r).
    lia.
  - rewrite (count_all _ l1) by (apply List.Forall_forall; exact E1).
    rewrite (count_none _ l2) by exact E2. lia.
Qed.

End RunEnds.

Section SweptCurve.

Lemma count_map {A B : Type} (p : B -> bool) (f : A -> B) (l : list A) :
  count p (map f l) = count (fun a => p (f a)) l.
Proof.
  induction l as [|a l IH]; [reflexivity|]. simpl map. rewrite !count_cons, IH. reflexivity.
Qed.

Lemma count_samples_tp (y s : list Q) (t : Q) :
  count (fun z : Q * bool => snd z && Qle_bool t (fst z)) (combine s (map AuprcSpec.is_positive y))
  = AuprcSpec.true_positives_at y s t.
Proof.
  unfold AuprcSpec.true_positives_at. revert s. induction y as [|v y IH]; intros [|a s];
    try reflexivity.
  simpl map. simpl combine. rewrite !count_cons, IH. reflexivity.
Qed.

Lemma count_samples_reached (y s : list Q) (t : Q) :
  count (fun z : Q * bool => Qle_bool t (fst z)) (combine s (map AuprcSpec.is_positive y))
  = AuprcSpec.true_positives_at y s t + AuprcSpec.false_positives_at y s t.
Proof.
  unfold AuprcSpec.true_positives_at, AuprcSpec.false_positives_at. revert s.
  induction y as [|v y IH]; intros [|a s]; try reflexivity.
  simpl map. simpl combine. rewrite !count_cons, IH. simpl fst. simpl snd.
  unfold AuprcSpec.reached. destruct (AuprcSpec.is_positive v); destruct (Qle_bool t a); simpl; lia.
Qed.

Lemma count_samples_positive (y s : list Q) :
  length y = length s ->
  count (fun z : Q * bool => snd z) (combine s (map AuprcSpec.is_positive y)) = AuprcSpec.positives y.
Proof.
  unfold AuprcSpec.positives. revert s. induction y as [|v y IH]; intros [|a s] H;
    try discriminate; [reflexivity|].
  simpl map. simpl combine. rewrite !count_cons, IH by (simpl in H; lia). reflexivity.
Qed.

Variables y s : list Q.
Variable samples : list (Q * bool).
Hypothesis Hdesc : descending samples.
Hypothesis Hperm : Permutation samples (combine s (map AuprcSpec.is_positive y)).

Let scores := map fst samples.
Let cs := np.cumsum (map (fun b : bool => if b then 1%Q else 0%Q) (map snd samples)).

(** At the end of a run the samples seen so far are those whose score
    reaches the score of the run. *)
Lemma run_end_point (i : nat) :
  run_end samples i ->
  In (nth i scores 0%Q) s
  /\ (nth i cs 0 == inject_Z (AuprcSpec.true_positives_at y s (nth i scores 0)))%Q
  /\ (1 + inject_Z (Z.of_nat i)
      == inject_Z (AuprcSpec.true_positives_at y s (nth i scores 0)
                   + AuprcSpec.false_positives_at y s (nth i scores 0)))%Q.
Proof using Hdesc Hperm.
  intros (l1 & x & l2 & E & Hi & Hlt). subst i. unfold scores, cs. rewrite E in *.
  rewrite nth_score.
  destruct (run_end_counts (fun b : bool => b) l1 l2 x Hdesc Hlt) as [Etp Eall].
  rewrite (count_perm _ _ _ Hperm), count_samples_tp in Etp.
  rewrite (count_perm _ _ _ Hperm), count_samples_reached in Eall.
  split; [|split].
  - apply (in_combine_l s (map AuprcSpec.is_positive y) (fst x) (snd x)).
    rewrite <- surjective_pairing. apply (Permutation_in _ Hperm).
    apply in_or_app. right. left. reflexivity.
  - unfold np.cumsum. rewrite cumsum_count by (rewrite length_map, length_app; simpl; lia).
    rewrite List.firstn_map, count_map.
    replace (l1 ++ x :: l2) with ((l1 ++ [x]) ++ l2) by (rewrite <- app_assoc; reflexivity).
    replace (S (length l1)) with (length (l1 ++ [x])) by (rewrite length_app; simpl; lia).
    rewrite take_app_length, Etp. ring.
  - rewrite Eall, Nat2Z.inj_succ, <- Z.add_1_l, inject_Z_plus. reflexivity.
Qed.

Lemma run_ends_decrease (i j : nat) :
  run_end samples i -> (i < j < length samples)%nat ->
  (nth j scores 0 < nth i scores 0)%Q.
Proof using Type.
  intros (l1 & x & l2 & E & Hi & Hlt) Hj. subst i. unfold scores. rewrite E in Hj |- *.
  rewrite nth_score. rewrite length_app in Hj. simpl in Hj.
  rewrite map_app. simpl map. rewrite app_nth2 by (rewrite length_map; lia).
  rewrite length_map. destruct (j - length l1)%nat as [|k] eqn:Ek; [lia|].
  simpl nth. rewrite List.Forall_forall in Hlt.
  change 0%Q with (fst (0%Q, false)). rewrite map_nth. apply Hlt, nth_In. lia.
Qed.

End SweptCurve.

Section CurveShape.

Lemma combine_map_r {A B : Type} (g : A -> B) (l : list A) :
  combine l (map g l) = map (fun a => (a, g a)) l.
Proof. induction l as [|a l IH]; [reflexivity|]. simpl. rewrite IH. reflexivity. Qed.

Lemma combine_map_both {A B C : Type} (f : A -> B) (g : A -> C) (l : list A) :
  combine (map f l) (map g l) = map (fun a => (f a, g a)) l.
Proof. induction l as [|a l IH]; [reflexivity|]. simpl. rewrite IH. reflexivity. Qed.

Lemma slice_down_map {A B : Type} (f : A -> B) (l : list A) (k : nat) :
  np.slice_down (map f l) k = map f (np.slice_down l k).
Proof. unfold np.slice_down. rewrite List.firstn_map, map_rev. reflexivity. Qed.

Lemma slice_down_In {A : Type} (l : list A) (k : nat) (a : A) :
  In a (np.slice_down l k) -> In a l.
Proof. unfold np.slice_down. intros H. apply in_rev in H. apply firstn_In in H. exact H. Qed.

Lemma Forall2_maps {A B C : Type} (R : B -> C -> Prop) (f : A -> B) (g : A -> C) (l : list A) :
  Forall (fun a => R (f a) (g a)) l -> Forall2 R (map f l) (map g l).
Proof. induction 1; simpl; constructor; assumption. Qed.

Lemma threshold_idxs_sorted (x : list Q) (n : nat) :
  length x = (n - 1)%nat -> (0 < n)%nat ->
  StronglySorted lt (np.where_ x ++ [(n - 1)%nat])
  /\ Forall (fun k => (k < n)%nat) (np.where_ x ++ [(n - 1)%nat]).
Proof.
  intros Hx Hn. unfold np.where_. destruct (where_from_sorted x 0) as [Hs Hbd].
  rewrite Hx in Hbd. split.
  - apply StronglySorted_snoc_lt; [exact Hs|].
    eapply List.Forall_impl; [|exact Hbd]. simpl. intros; lia.
  - apply Forall_app. split; [|repeat constructor; lia].
    eapply List.Forall_impl; [|exact Hbd]. simpl. intros; lia.
Qed.

Lemma div_eqv (a a' b b' : Q) :
  (a == a')%Q -> (b == b')%Q ->
  Float.eqv (Float.div (Fin a) (Fin b)) (Float.div (Fin a') (Fin b')).
Proof.
  intros Ha Hb. simpl.
  assert (E : Qeq_bool b 0 = Qeq_bool b' 0).
  { destruct (Qeq_bool b' 0) eqn:E'.
    - apply Qeq_bool_iff in E'. apply Qeq_bool_iff. rewrite Hb. exact E'.
    - apply Qeq_bool_neq in E'. apply not_true_is_false. intros H.
      apply Qeq_bool_iff in H. apply E'. rewrite <- Hb. exact H. }
  rewrite E. destruct (Qeq_bool b' 0); simpl; [exact I|]. rewrite Ha, Hb. reflexivity.
Qed.

End CurveShape.

(** Every point of the curve that [precision_recall_curve] returns is the
    precision and the recall of the rule "positive when the score reaches
    [t]" for a threshold [t] among the scores; the thresholds increase. *)
Lemma precision_recall_curve_swept (y s : list Q) (p r : list float) (ths : list Q) :
  sklearn.precision_recall_curve y s = Return (p, r, ths) -> AuprcSpec.swept y s p r ths.
Proof.
  unfold sklearn.precision_recall_curve, sklearn._binary_clf_curve,
    sklearn.check_consistent_length, sklearn._check_pos_label_consistency.
  destruct (Nat.eqb_spec (length y) (length s)) as [Hlen|_]; [|discriminate].
  cbn [mbind outcome_bind].
  destruct y as [|v0 y0]; [discriminate|]. set (y := v0 :: y0) in *.
  destruct (existsb _ _); [|discriminate]. cbn [mbind outcome_bind].
  change (map (fun t => Qeq_bool t 1) y) with (map AuprcSpec.is_positive y).
  set (samples := rev (np.sort_by_score (combine s (map AuprcSpec.is_positive y)))).
  destruct (sorted_samples (combine s (map AuprcSpec.is_positive y))) as [Hdesc Hperm].
  fold samples in Hdesc, Hperm.
  assert (Hn : length samples = length y).
  { rewrite (Permutation_length Hperm), length_combine, length_map. lia. }
  assert (Hne : samples <> []) by (intros E; rewrite E in Hn; discriminate).
  set (scores := map fst samples).
  set (cs := np.cumsum (map (fun b : bool => if b then 1%Q else 0%Q) (map snd samples))).
  set (idxs := np.where_ (np.diff Qminus scores) ++ [(length (map snd samples) - 1)%nat]).
  pose proof (threshold_idxs_run_ends samples Hdesc Hne) as Hends. fold scores idxs in Hends.
  destruct (threshold_idxs_sorted (np.diff Qminus scores) (length (map snd samples)))
    as [Hsorted Hbound].
  { unfold scores. rewrite diff_length, !length_map. reflexivity. }
  { rewrite length_map, Hn. simpl. lia. }
  fold idxs in Hsorted, Hbound. rewrite length_map in Hbound.
  unfold np.getitem. rewrite combine_map_r, map_map, combine_map_both, !map_map.
  cbn [fst snd].
  set (T := List.last (map (fun i => nth i cs 0%Q) idxs) 0%Q).
  set (k := np.searchsorted _ T).
  rewrite !slice_down_map. set (kept := np.slice_down idxs k).
  intros H. injection H as <- <- <-.
  assert (Hkept : Forall (run_end samples) kept).
  { apply List.Forall_forall. intros i Hi. apply slice_down_In in Hi.
    rewrite List.Forall_forall in Hends. apply Hends, Hi. }
  assert (Hpoint := fun i Hi => run_end_point y s samples Hdesc Hperm i Hi).
  fold scores cs in Hpoint.
  assert (HT : (T == inject_Z (AuprcSpec.positives y))%Q).
  { unfold T, idxs. rewrite map_app. simpl map. rewrite last_last.
    unfold cs, np.cumsum. rewrite cumsum_count by (rewrite !length_map, Hn; simpl; lia).
    rewrite length_map.
    replace (S (length samples - 1)) with (length (map snd samples))
      by (rewrite length_map, Hn; simpl; lia).
    rewrite firstn_all, count_map, (count_perm _ _ _ Hperm), count_samples_positive by exact Hlen.
    ring. }
  repeat split.
  - apply List.Forall_forall. intros t Ht. apply in_map_iff in Ht as (i & <- & Hi).
    rewrite List.Forall_forall in Hkept. apply (Hpoint i (Hkept i Hi)).
  - apply (StronglySorted_map_mono (flip lt) Qlt).
    + apply StronglySorted_rev_flip, StronglySorted_firstn, Hsorted.
    + intros i j Hi Hj Hji. unfold flip in Hji.
      rewrite List.Forall_forall in Hkept, Hbound.
      apply (run_ends_decrease samples j i (Hkept j Hj)). split; [exact Hji|].
      apply Hbound. apply slice_down_In in Hi. exact Hi.
  - rewrite map_map. apply Forall2_app; [|repeat constructor; reflexivity].
    apply Forall2_maps. apply List.Forall_forall. intros i Hi.
    rewrite List.Forall_forall in Hkept.
    destruct (Hpoint i (Hkept i Hi)) as (_ & Htp & Hall).
    unfold AuprcSpec.precision_at, Spec.ratio.
    set (TP := AuprcSpec.true_positives_at y s (nth i scores 0%Q)) in *.
    set (FP := AuprcSpec.false_positives_at y s (nth i scores 0%Q)) in *.
    assert (Hpos : TP + FP = 1 + Z.of_nat i).
    { apply inject_Z_injective. rewrite <- Hall, inject_Z_plus. reflexivity. }
    destruct (Z.eqb_spec (TP + FP) 0) as [E|_]; [lia|].
    assert (Hden : (nth i cs 0 + (1 + inject_Z (Z.of_nat i) - nth i cs 0) == inject_Z (TP + FP))%Q).
    { rewrite <- Hall. ring. }
    assert (Hnz : ~ (inject_Z (TP + FP) == 0)%Q).
    { change 0%Q with (inject_Z 0). rewrite inject_Z_injective. lia. }
    simpl Float.div.
    destruct (Qeq_bool _ 0) eqn:E0.
    { apply Qeq_bool_iff in E0. rewrite Hden in E0. contradiction. }
    simpl. rewrite Hden, Htp. reflexivity.
  - rewrite map_map. apply Forall2_app; [|repeat constructor; reflexivity].
    apply Forall2_maps. apply List.Forall_forall. intros i Hi.
    rewrite List.Forall_forall in Hkept.
    destruct (Hpoint i (Hkept i Hi)) as (_ & Htp & _).
    unfold AuprcSpec.recall_at, Float.of_Z. apply div_eqv; assumption.
Qed.

(** ** The mean area: totality and index errors *)

Lemma traverse_returns {A B : Type} (f : A -> outcome B) (l : list A) :
  (forall a, In a l -> returns (f a)) -> returns (traverse f l).
Proof.
  induction l as [|a l IH]; intros H; [eexists; reflexivity|].
  rewrite traverse_cons. destruct (H a) as [b ->]; [left; reflexivity|].
  destruct IH as [bs ->]; [intros c Hc; apply H; right; exact Hc|].
  eexists; reflexivity.
Qed.

Lemma take_column_rows {A : Type} (a : list (list A)) (c : nat) :
  Forall (fun row => (c < length row)%nat) a ->
  exists col, np.take_column a c = Return col /\ length col = length a.
Proof.
  unfold np.take_column. induction 1 as [|row a Hrow _ (col & E & Hlen)].
  - exists []. split; reflexivity.
  - rewrite traverse_cons, E.
    destruct (nth_error row c) as [v|] eqn:Ev.
    + exists (v :: col). split; [reflexivity|simpl; congruence].
    + apply nth_error_None in Ev. lia.
Qed.

Lemma klue_re_auprc_wrapped (probs : list (list Q)) (labels : list Z) :
  Forall (fun l => -30 <= l < 30) labels ->
  klue_re_auprc probs labels =
    (score ← traverse (class_area_wrapped probs labels) (seq 0 30);
     Return (Float.mul (AuprcSpec.mean30 score) (Fin 100))).
Proof.
  intros H. unfold klue_re_auprc. rewrite (getitem_rows_eye labels H).
  cbn [mbind outcome_bind].
  rewrite (traverse_ext _ (class_area_wrapped probs labels)).
  - destruct (traverse _ _) as [score|e] eqn:E; [|reflexivity].
    cbn [mbind outcome_bind]. unfold np.average, AuprcSpec.mean30.
    rewrite (traverse_length _ _ _ E). reflexivity.
  - intros c Hc. apply in_seq in Hc.
    rewrite take_column_one_hot by lia. reflexivity.
Qed.

(** On a non-empty batch with 30 scores per example and labels that index
    the 30 rows (possibly from the end), every step succeeds. *)
Lemma klue_re_auprc_returns (probs : list (list Q)) (labels : list Z) :
  labels <> [] -> length probs = length labels ->
  Forall (fun row => length row = 30%nat) probs ->
  Forall (fun l => -30 <= l < 30) labels ->
  returns (klue_re_auprc probs labels).
Proof.
  intros Hne Hlen Hrows Hl. rewrite (klue_re_auprc_wrapped probs labels Hl).
  destruct (traverse_returns (class_area_wrapped probs labels) (seq 0 30)) as [score ->];
    [|eexists; reflexivity].
  intros c Hc. apply in_seq in Hc. unfold class_area_wrapped.
  destruct (take_column_rows probs c) as (col & -> & Hcol).
  { eapply List.Forall_impl; [|exact Hrows]. simpl. intros row ->. lia. }
  cbn [mbind outcome_bind]. apply precision_recall_auc_returns.
  - destruct labels; [congruence|discriminate].
  - rewrite length_map. lia.
  - apply List.Forall_forall. intros v Hv. apply in_map_iff in Hv as (l & <- & _).
    destruct (Nat.eqb _ _); auto.
Qed.

Lemma klue_re_auprc_out_of_bounds (probs : list (list Q)) (labels : list Z) :
  Exists (fun l => l < -30 \/ 30 <= l) labels ->
  klue_re_auprc probs labels = Raise IndexError.
Proof.
  intros H. unfold klue_re_auprc. rewrite (getitem_rows_eye_out labels H). reflexivity.
Qed.


Lemma traverse_Forall2 {A B : Type} (f : A -> outcome B) (l : list A) (bs : list B) :
  traverse f l = Return bs -> Forall2 (fun a b => f a = Return b) l bs.
Proof.
  revert bs. induction l as [|a l IH]; intros bs H.
  - injection H as <-. constructor.
  - rewrite traverse_cons in H. destruct (f a) as [b|] eqn:Ea; [|discriminate].
    destruct (traverse f l) as [bs'|]; [|discriminate].
    injection H as <-. constructor; [exact Ea|]. apply IH. reflexivity.
Qed.

(** C10, as the code has it. The labels index the rows of the 30 by 30
    identity matrix with numpy's rules, and the areas of exactly the
    classes 0..29 are averaged. On a non-empty batch with 30 scores per
    example the function returns a value when every label lies in
    [-30, 30): a label l in [0, 30) selects row l and a negative label l in
    [-30, 0) selects row l + 30. Every input with a label of 30 or more (or
    below -30) fails in the one-hot step with IndexError. *)
Theorem klue_re_auprc_index_bounds (probs : list (list Q)) (labels : list Z) :
  labels <> [] -> length probs = length labels ->
  Forall (fun row => length row = 30%nat) probs ->
  (Forall (fun l => -30 <= l < 30) labels ->
     np.getitem_rows (np.eye 30) labels = Return (map (fun l => one_hot (row_of l)) labels)
     /\ returns (klue_re_auprc probs labels))
  /\ (Exists (fun l => l < -30 \/ 30 <= l) labels ->
     np.getitem_rows (np.eye 30) labels = Raise IndexError
     /\ klue_re_auprc probs labels = Raise IndexError).
Proof.
  intros Hne Hlen Hrows. split.
  - intros Hl. split; [apply getitem_rows_eye, Hl|].
    apply klue_re_auprc_returns; assumption.
  - intros Hex. split; [apply getitem_rows_eye_out, Hex|].
    apply klue_re_auprc_out_of_bounds, Hex.
Qed.

Lemma klue_re_auprc_index_bounds_witness :
  np.getitem_rows (np.eye 30) [3; -1] = Return (map (fun l => one_hot (row_of l)) [3; -1])
  /\ returns (klue_re_auprc [repeat 0%Q 30; repeat 1%Q 30] [3; -1]).
Proof.
  apply (klue_re_auprc_index_bounds [repeat 0%Q 30; repeat 1%Q 30] [3; -1]).
  - discriminate.
  - reflexivity.
  - repeat constructor.
  - repeat constructor; lia.
Defined.

(** C10 as stated fails: returning a value does not need the labels to lie
    in [0, 30); the label -1 is accepted and read as class 29. *)
Lemma klue_re_auprc_negative_label_counterexample :
  ~ (forall probs labels,
       returns (klue_re_auprc probs labels) -> Forall (fun l => 0 <= l < 30) labels).
Proof.
  intros H. specialize (H [repeat 0%Q 30] [-1]).
  assert (Hret : returns (klue_re_auprc [repeat 0%Q 30] [-1])).
  { eexists. vm_compute. reflexivity. }
  apply H in Hret. apply Forall_inv in Hret. lia.
Qed.

(** ** Rescaling the scores *)

Section Rescaling.

Variable f : Q -> Q.
Hypothesis Hf : Batch.order_preserving f.

Lemma rescale_le (x y : Q) : Qle_bool (f x) (f y) = Qle_bool x y.
Proof using Hf.
  destruct (Qle_bool x y) eqn:E.
  - apply Qle_bool_iff in E. apply Qle_bool_iff. apply Qnot_lt_le. intros H.
    apply Hf in H. lra.
  - apply not_true_is_false. intros H. apply Qle_bool_iff in H.
    assert (Hlt : (y < x)%Q).
    { apply Qnot_le_lt. intros Hle. apply Qle_bool_iff in Hle. congruence. }
    apply Hf in Hlt. lra.
Qed.

Lemma rescale_tie (x y : Q) : Qeq_bool (f y - f x) 0 = Qeq_bool (y - x) 0.
Proof using Hf.
  pose proof (rescale_le x y) as H1. pose proof (rescale_le y x) as H2.
  destruct (Qeq_bool (y - x) 0) eqn:E.
  - apply Qeq_bool_iff in E. apply Qeq_bool_iff.
    assert (Hxy : Qle_bool x y = true) by (apply Qle_bool_iff; lra).
    assert (Hyx : Qle_bool y x = true) by (apply Qle_bool_iff; lra).
    rewrite Hxy in H1. rewrite Hyx in H2. apply Qle_bool_iff in H1, H2. lra.
  - apply Qeq_bool_neq in E. apply not_true_is_false. intros H. apply Qeq_bool_iff in H.
    assert (Hxy : Qle_bool (f x) (f y) = true) by (apply Qle_bool_iff; lra).
    assert (Hyx : Qle_bool (f y) (f x) = true) by (apply Qle_bool_iff; lra).
    rewrite Hxy in H1. rewrite Hyx in H2. symmetry in H1, H2.
    apply Qle_bool_iff in H1, H2. apply E. lra.
Qed.

Context {A : Type}.

Lemma insert_rescaled (s : Q * A) (l : list (Q * A)) :
  np.insert_by_score (on_score f s) (map (on_score f) l) = map (on_score f) (np.insert_by_score s l).
Proof using Hf.
  induction l as [|t l IH]; [reflexivity|].
  simpl. rewrite rescale_le. destruct (Qle_bool (fst s) (fst t)); [reflexivity|].
  simpl. rewrite IH. reflexivity.
Qed.

Lemma sort_rescaled (l : list (Q * A)) :
  np.sort_by_score (map (on_score f) l) = map (on_score f) (np.sort_by_score l).
Proof using Hf.
  induction l as [|s l IH]; [reflexivity|].
  simpl. rewrite IH. apply insert_rescaled.
Qed.

Lemma combine_rescaled (s : list Q) (y : list A) :
  combine (map f s) y = map (on_score f) (combine s y).
Proof.
  revert y. induction s as [|a s IH]; intros [|b y]; try reflexivity.
  simpl. rewrite IH. reflexivity.
Qed.

Lemma where_rescaled (x : list Q) (i : nat) :
  np.where_from i (np.diff Qminus (map f x)) = np.where_from i (np.diff Qminus x).
Proof using Hf.
  revert i. induction x as [|a [|b x] IH]; intros i; [reflexivity..|].
  change (map f (a :: b :: x)) with (f a :: f b :: map f x).
  rewrite !diff_cons2. cbn [np.where_from]. rewrite rescale_tie.
  change (f b :: map f x) with (map f (b :: x)). rewrite (IH (S i)). reflexivity.
Qed.

End Rescaling.

Section RescaledCurve.

Variable f : Q -> Q.
Hypothesis Hf : Batch.order_preserving f.

(** The counts of the curve only depend on the order of the scores. *)
Lemma binary_clf_curve_rescaled (y s : list Q) :
  match sklearn._binary_clf_curve y (map f s), sklearn._binary_clf_curve y s with
  | Return (fps', tps', _), Return (fps, tps, _) => fps' = fps /\ tps' = tps
  | Raise e', Raise e => e' = e
  | _, _ => False
  end.
Proof using Hf.
  unfold sklearn._binary_clf_curve, sklearn.check_consistent_length.
  rewrite length_map. destruct (Nat.eqb _ _); [|reflexivity].
  cbn [mbind outcome_bind].
  destruct (sklearn._check_pos_label_consistency y) as [pos_label|e]; [|reflexivity].
  cbn [mbind outcome_bind].
  rewrite combine_rescaled, (sort_rescaled f Hf), <- map_rev.
  set (sorted := rev (np.sort_by_score _)).
  assert (E1 : map fst (map (on_score f) sorted) = map f (map fst sorted)).
  { rewrite !map_map. reflexivity. }
  assert (E2 : map snd (map (on_score f) sorted) = map snd sorted).
  { rewrite !map_map. reflexivity. }
  rewrite E1, E2. unfold np.where_. rewrite (where_rescaled f Hf).
  split; reflexivity.
Qed.

Lemma precision_recall_auc_rescaled (y s : list Q) :
  ('(precision, recall, _) ← sklearn.precision_recall_curve y (map f s);
   sklearn.auc recall precision)
  = ('(precision, recall, _) ← sklearn.precision_recall_curve y s;
     sklearn.auc recall precision).
Proof using Hf.
  unfold sklearn.precision_recall_curve.
  pose proof (binary_clf_curve_rescaled y s) as H.
  destruct (sklearn._binary_clf_curve y (map f s)) as [[[fps' tps'] ths']|e'];
    destruct (sklearn._binary_clf_curve y s) as [[[fps tps] ths]|e]; try contradiction.
  - destruct H as [-> ->]. reflexivity.
  - subst. reflexivity.
Qed.

End RescaledCurve.

Lemma nth_error_indexed (F : nat -> Q -> Q) (row : list Q) (a c : nat) :
  nth_error (map (fun cv : nat * Q => F (fst cv) (snd cv)) (combine (seq a (length row)) row)) c
  = option_map (F (a + c)%nat) (nth_error row c).
Proof.
  revert a c. induction row as [|v row IH]; intros a [|c]; try reflexivity.
  - simpl. rewrite Nat.add_0_r. reflexivity.
  - simpl. rewrite IH. replace (S a + c)%nat with (a + S c)%nat by lia. reflexivity.
Qed.

Lemma take_column_rescaled (F : nat -> Q -> Q) (probs : list (list Q)) (c : nat) :
  np.take_column (Batch.rescale F probs) c
  = (col ← np.take_column probs c; Return (map (F c) col)).
Proof.
  unfold np.take_column, Batch.rescale. induction probs as [|row probs IH]; [reflexivity|].
  simpl map. rewrite !traverse_cons, IH, (nth_error_indexed F row 0 c).
  destruct (nth_error row c); [|reflexivity]. simpl.
  destruct (traverse _ probs); reflexivity.
Qed.

Lemma class_areas_rescaled
    (F : nat -> Q -> Q) (probs onehot : list (list Q)) (classes : list nat) :
  (forall c, Batch.order_preserving (F c)) ->
  traverse (fun c =>
              targets_c ← np.take_column onehot c;
              preds_c ← np.take_column (Batch.rescale F probs) c;
              '(precision, recall, _) ← sklearn.precision_recall_curve targets_c preds_c;
              sklearn.auc recall precision) classes
  = traverse (fun c =>
                targets_c ← np.take_column onehot c;
                preds_c ← np.take_column probs c;
                '(precision, recall, _) ← sklearn.precision_recall_curve targets_c preds_c;
                sklearn.auc recall precision) classes.
Proof.
  intros HF. apply traverse_ext. intros c _.
  destruct (np.take_column onehot c) as [targets_c|e]; cbn [mbind outcome_bind];
    [|reflexivity].
  rewrite take_column_rescaled.
  destruct (np.take_column probs c) as [preds_c|e]; cbn [mbind outcome_bind];
    [|reflexivity].
  apply (precision_recall_auc_rescaled (F c) (HF c)).
Qed.

(** C6. Applying to the scores of every class a transformation that keeps
    their relative order (a strictly increasing rescaling, which may differ
    from class to class) does not change the value of [klue_re_auprc], nor
    whether it raises. *)
Theorem klue_re_auprc_rescaling_invariant
    (F : nat -> Q -> Q) (probs : list (list Q)) (labels : list Z) :
  (forall c, Batch.order_preserving (F c)) ->
  klue_re_auprc (Batch.rescale F probs) labels = klue_re_auprc probs labels.
Proof.
  intros HF. unfold klue_re_auprc.
  generalize (np.getitem_rows (np.eye 30) labels).
  intros [onehot|e]; cbn [mbind outcome_bind]; [|reflexivity].
  rewrite (class_areas_rescaled F probs onehot _ HF).
  reflexivity.
Qed.

Lemma klue_re_auprc_rescaling_invariant_witness :
  klue_re_auprc (Batch.rescale example_rescaling example_probs) example_labels
  = klue_re_auprc example_probs example_labels.
Proof.
  apply (klue_re_auprc_rescaling_invariant example_rescaling example_probs example_labels).
  intros c x y. unfold example_rescaling. split; intros H; lra.
Defined.


(** ** Accuracy *)

Section Argmax.

Lemma argmax_from_spec (row seen : list Q) (best : Q) (besti : nat) :
  (besti < length seen)%nat -> nth besti seen 0%Q = best ->
  (forall j, (j < length seen)%nat -> (nth j seen 0 <= best)%Q) ->
  (forall j, (j < besti)%nat -> (nth j seen 0 < best)%Q) ->
  first_max (seen ++ row) (Z.of_nat (np.argmax_from best besti (length seen) row)).
Proof.
  revert seen best besti. induction row as [|v row IH]; intros seen best besti Hi Hb Hmax Hfirst.
  - simpl. rewrite app_nil_r. unfold first_max. rewrite Nat2Z.id, Hb.
    split; [lia|]. split; assumption.
  - simpl np.argmax_from.
    replace (seen ++ v :: row) with ((seen ++ [v]) ++ row) by (rewrite <- app_assoc; reflexivity).
    replace (S (length seen)) with (length (seen ++ [v])) by (rewrite length_app; simpl; lia).
    destruct (Qle_bool v best) eqn:E.
    + apply Qle_bool_iff in E. apply IH.
      * rewrite length_app. simpl. lia.
      * rewrite app_nth1 by lia. exact Hb.
      * intros j Hj. rewrite length_app in Hj. simpl in Hj.
        destruct (Nat.eq_dec j (length seen)) as [->|Hne].
        -- rewrite nth_middle. exact E.
        -- rewrite app_nth1 by lia. apply Hmax. lia.
      * intros j Hj. rewrite app_nth1 by lia. apply Hfirst, Hj.
    + assert (Hlt : (best < v)%Q).
      { apply Qnot_le_lt. intros H. apply Qle_bool_iff in H. congruence. }
      replace (length seen) with (length (seen ++ [v]) - 1)%nat at 1
        by (rewrite length_app; simpl; lia).
      apply IH.
      * rewrite length_app. simpl. lia.
      * rewrite length_app. simpl. replace (length seen + 1 - 1)%nat with (length seen) by lia.
        apply nth_middle.
      * intros j Hj. rewrite length_app in Hj. simpl in Hj.
        destruct (Nat.eq_dec j (length seen)) as [->|Hne].
        -- rewrite nth_middle. lra.
        -- rewrite app_nth1 by lia. specialize (Hmax j ltac:(lia)). lra.
      * intros j Hj. rewrite length_app in Hj. simpl in Hj.
        rewrite app_nth1 by lia. specialize (Hmax j ltac:(lia)). lra.
Qed.

Lemma argmax_first_max (row : list Q) :
  row <> [] -> exists p, np.argmax row = Return p /\ first_max row p.
Proof.
  destruct row as [|v row]; [congruence|]. intros _. eexists. split; [reflexivity|].
  apply (argmax_from_spec row [v] v 0).
  - simpl. lia.
  - reflexivity.
  - intros [|j] Hj; simpl in *; [lra|lia].
  - intros j Hj. lia.
Qed.

Lemma argmax_rows (rows : list (list Q)) :
  Forall (fun row => length row = 30%nat) rows ->
  exists preds, traverse np.argmax rows = Return preds
                /\ Forall2 first_max rows preds.
Proof.
  induction 1 as [|row rows Hrow _ (preds & E & HF)].
  - exists []. split; [reflexivity|constructor].
  - destruct (argmax_first_max row) as (p & Ep & Hp).
    { intros ->. discriminate. }
    exists (p :: preds). rewrite traverse_cons, Ep, E. split; [reflexivity|].
    constructor; assumption.
Qed.

End Argmax.

Section Accuracy.

Lemma sum_indicators (lp : list (Z * Z)) :
  exists q, fold_right Float.add (Fin 0)
              (map (fun tp : Z * Z => if fst tp =? snd tp then Fin 1 else Fin 0) lp) = Fin q
            /\ (q == inject_Z (count (fun tp : Z * Z => fst tp =? snd tp) lp))%Q.
Proof.
  induction lp as [|[l p] lp (q & E & Hq)].
  - exists 0%Q. split; reflexivity.
  - simpl map. cbn [fold_right]. rewrite E, count_cons. simpl fst. simpl snd.
    destruct (l =? p); eexists; (split; [reflexivity|]);
      rewrite inject_Z_plus, Hq; simpl; ring.
Qed.

Lemma accuracy_score_value (labels preds : list Z) :
  labels <> [] -> length labels = length preds ->
  exists q, sklearn.accuracy_score labels preds = Return (Fin q)
            /\ (q == inject_Z (Spec.true_positives (fun _ => true) labels preds)
                     / inject_Z (Z.of_nat (length labels)))%Q.
Proof.
  intros Hne Hlen. unfold sklearn.accuracy_score, sklearn.check_consistent_length.
  rewrite Hlen, Nat.eqb_refl. cbn [mbind outcome_bind]. unfold np.average.
  destruct (sum_indicators (combine labels preds)) as (q & -> & Hq).
  rewrite length_map, length_combine, <- Hlen, Nat.min_id.
  unfold Float.of_Z, Float.div. rewrite Qeq_bool_inject_Z.
  destruct (Z.eqb_spec (Z.of_nat (length labels)) 0) as [E|_].
  { destruct labels; [congruence|simpl in E; lia]. }
  eexists. split; [reflexivity|]. rewrite Hq. unfold Spec.true_positives.
  rewrite (count_ext _ (fun lp : Z * Z => true && (fst lp =? snd lp))) by reflexivity.
  reflexivity.
Qed.

End Accuracy.

(** C8. On a well-formed batch [compute_metrics] returns, and its
    'accuracy' entry is the number of examples whose first largest score
    sits at the position of the true label, divided by the number of
    examples. Matches of every class are counted, those of [no_relation]
    (class 0) included: the count is the pooled true positives of the
    reference definition with no class left out. *)
Theorem compute_metrics_accuracy (pred : EvalPrediction) :
  Batch.well_formed (predictions pred) (label_ids pred) ->
  exists preds m q,
    Forall2 first_max (predictions pred) preds
    /\ compute_metrics pred = Return m
    /\ accuracy m = Fin q
    /\ (q == inject_Z (Spec.true_positives (fun _ => true) (label_ids pred) preds)
             / inject_Z (Z.of_nat (length (label_ids pred))))%Q.
Proof.
  intros [Hne Hlen Hl Hrows].
  destruct (argmax_rows (predictions pred) Hrows) as (preds & Ep & Hpreds).
  assert (Hlp : length preds = length (label_ids pred)).
  { rewrite (traverse_length _ _ _ Ep). exact Hlen. }
  destruct (klue_re_micro_f1_value preds (label_ids pred) Hlp) as (f1 & Ef & _).
  destruct (klue_re_auprc_returns (predictions pred) (label_ids pred) Hne Hlen Hrows) as (a & Ea).
  { eapply List.Forall_impl; [|exact Hl]. simpl. lia. }
  destruct (accuracy_score_value (label_ids pred) preds Hne (eq_sym Hlp)) as (q & Eq & Hq).
  exists preds. eexists. exists q. split; [exact Hpreds|].
  unfold compute_metrics. rewrite Ep. cbn [mbind outcome_bind]. rewrite Ef.
  cbn [mbind outcome_bind]. rewrite Ea. cbn [mbind outcome_bind]. rewrite Eq.
  cbn [mbind outcome_bind mret outcome_ret]. split; [reflexivity|]. split; [reflexivity|exact Hq].
Qed.

Lemma compute_metrics_accuracy_witness :
  exists preds m q,
    Forall2 first_max example_probs preds
    /\ compute_metrics {| predictions := example_probs; label_ids := example_labels |} = Return m
    /\ accuracy m = Fin q
    /\ (q == inject_Z (Spec.true_positives (fun _ => true) example_labels preds)
             / inject_Z (Z.of_nat (length example_labels)))%Q.
Proof.
  apply (compute_metrics_accuracy {| predictions := example_probs; label_ids := example_labels |}).
  constructor.
  - discriminate.
  - reflexivity.
  - repeat constructor; lia.
  - repeat constructor.
Defined.

(** * Further properties of the metrics and of the label codec *)

(** ** Micro F1: closed form, range and symmetries *)

Section MicroF1Algebra.

Variable keep : Z -> bool.

Lemma inject_Z_nonzero (z : Z) : z <> 0 -> ~ (inject_Z z == 0)%Q.
Proof. intros H E. apply H. apply inject_Z_injective. exact E. Qed.

Lemma ratio_zero_num (b : Z) : (Spec.ratio 0 b == 0)%Q.
Proof.
  unfold Spec.ratio. destruct (b =? 0); [reflexivity|]. unfold Qdiv. apply Qmult_0_l.
Qed.

(** The harmonic mean of the pooled precision and recall in one ratio. *)
Lemma micro_f1_closed_form (labels preds : list Z) :
  (Spec.micro_f1 keep labels preds
   == Spec.ratio (2 * Spec.true_positives keep labels preds)
                 (2 * Spec.true_positives keep labels preds
                  + Spec.false_positives keep labels preds
                  + Spec.false_negatives keep labels preds))%Q.
Proof.
  unfold Spec.micro_f1, Spec.precision, Spec.recall.
  set (TP := Spec.true_positives keep labels preds).
  set (FP := Spec.false_positives keep labels preds).
  set (FN := Spec.false_negatives keep labels preds).
  assert (HTP : 0 <= TP) by apply count_nonneg.
  assert (HFP : 0 <= FP) by apply count_nonneg.
  assert (HFN : 0 <= FN) by apply count_nonneg.
  destruct (Z.eq_dec TP 0) as [E|E].
  - rewrite E. simpl Z.mul.
    pose proof (ratio_zero_num (0 + FP)) as HP. pose proof (ratio_zero_num (0 + FN)) as HR.
    pose proof (ratio_zero_num (0 + FP + FN)) as HF. rewrite HF.
    destruct (Qeq_bool _ 0) eqn:E0; [reflexivity|].
    apply Qeq_bool_neq in E0. exfalso. apply E0. rewrite HP, HR. reflexivity.
  - unfold Spec.ratio.
    destruct (Z.eqb_spec (TP + FP) 0); [lia|]. destruct (Z.eqb_spec (TP + FN) 0); [lia|].
    destruct (Z.eqb_spec (2 * TP + FP + FN) 0); [lia|].
    assert (H1 : ~ (inject_Z TP == 0)%Q) by (apply inject_Z_nonzero; lia).
    assert (H2 : ~ (inject_Z TP + inject_Z FP == 0)%Q)
      by (rewrite <- inject_Z_plus; apply inject_Z_nonzero; lia).
    assert (H3 : ~ (inject_Z TP + inject_Z FN == 0)%Q)
      by (rewrite <- inject_Z_plus; apply inject_Z_nonzero; lia).
    assert (H4 : ~ (2 * inject_Z TP + inject_Z FP + inject_Z FN == 0)%Q).
    { change 2%Q with (inject_Z 2). rewrite <- inject_Z_mult, <- !inject_Z_plus.
      apply inject_Z_nonzero. lia. }
    rewrite !inject_Z_plus, inject_Z_mult. change (inject_Z 2) with 2%Q.
    assert (Hsum : ~ (inject_Z TP / (inject_Z TP + inject_Z FP)
                     + inject_Z TP / (inject_Z TP + inject_Z FN) == 0)%Q).
    { intros H. apply H1.
      assert (Hx : (0 < inject_Z TP)%Q) by (change 0%Q with (inject_Z 0); rewrite <- Zlt_Qlt; lia).
      assert (Hy : (0 <= inject_Z FP)%Q) by (change 0%Q with (inject_Z 0); rewrite <- Zle_Qle; lia).
      assert (Hz : (0 <= inject_Z FN)%Q) by (change 0%Q with (inject_Z 0); rewrite <- Zle_Qle; lia).
      assert (Ha : (0 < inject_Z TP / (inject_Z TP + inject_Z FP))%Q).
      { apply Qlt_shift_div_l; lra. }
      assert (Hb : (0 < inject_Z TP / (inject_Z TP + inject_Z FN))%Q).
      { apply Qlt_shift_div_l; lra. }
      lra. }
    destruct (Qeq_bool _ 0) eqn:E0; [apply Qeq_bool_iff in E0; contradiction|].
    field. repeat split; try assumption.
    intros H.
    assert (H' : (inject_Z TP * (2 * inject_Z TP + inject_Z FP + inject_Z FN) == 0)%Q)
      by (rewrite <- H; ring).
    apply Qmult_integral in H'. tauto.
Qed.

End MicroF1Algebra.

Section MicroF1Counts.

Variable keep : Z -> bool.

Lemma micro_f1_counts (labels preds labels' preds' : list Z) :
  Spec.true_positives keep labels preds = Spec.true_positives keep labels' preds' ->
  Spec.false_positives keep labels preds = Spec.false_positives keep labels' preds' ->
  Spec.false_negatives keep labels preds = Spec.false_negatives keep labels' preds' ->
  Spec.micro_f1 keep labels preds = Spec.micro_f1 keep labels' preds'.
Proof.
  intros H1 H2 H3. unfold Spec.micro_f1, Spec.precision, Spec.recall.
  rewrite H1, H2, H3. reflexivity.
Qed.

Lemma count_combine_swap (f : Z * Z -> bool) (a b : list Z) :
  count f (combine a b) = count (fun x : Z * Z => f (snd x, fst x)) (combine b a).
Proof.
  revert b. induction a as [|x a IH]; intros [|y b]; try reflexivity.
  simpl combine. rewrite !count_cons, IH. reflexivity.
Qed.

Lemma counts_swapped (labels preds : list Z) :
  Spec.true_positives keep preds labels = Spec.true_positives keep labels preds
  /\ Spec.false_positives keep preds labels = Spec.false_negatives keep labels preds
  /\ Spec.false_negatives keep preds labels = Spec.false_positives keep labels preds.
Proof.
  unfold Spec.true_positives, Spec.false_positives, Spec.false_negatives.
  rewrite !(count_combine_swap _ preds labels). cbn [fst snd]. repeat split.
  - apply count_ext. intros [l p] _. cbn [fst snd].
    rewrite (Z.eqb_sym p l). destruct (Z.eqb_spec l p) as [->|]; [reflexivity|].
    rewrite !andb_false_r. reflexivity.
  - apply count_ext. intros [l p] _. cbn [fst snd]. rewrite (Z.eqb_sym p l). reflexivity.
  - apply count_ext. intros [l p] _. cbn [fst snd]. rewrite (Z.eqb_sym p l). reflexivity.
Qed.

Lemma combine_app_aligned (a1 a2 b1 b2 : list Z) :
  length a1 = length b1 ->
  combine (a1 ++ a2) (b1 ++ b2) = combine a1 b1 ++ combine a2 b2.
Proof.
  revert b1. induction a1 as [|x a1 IH]; intros [|y b1] H; try discriminate; [reflexivity|].
  simpl. rewrite IH by (simpl in H; lia). reflexivity.
Qed.

End MicroF1Counts.

Lemma micro_f1_range (keep : Z -> bool) (labels preds : list Z) :
  (0 <= Spec.micro_f1 keep labels preds <= 1)%Q.
Proof.
  rewrite micro_f1_closed_form.
  pose proof (count_nonneg (fun lp : Z * Z => keep (fst lp) && (fst lp =? snd lp)) (combine labels preds)) as HTP.
  pose proof (count_nonneg (fun lp : Z * Z => keep (snd lp) && negb (fst lp =? snd lp)) (combine labels preds)) as HFP.
  pose proof (count_nonneg (fun lp : Z * Z => keep (fst lp) && negb (fst lp =? snd lp)) (combine labels preds)) as HFN.
  fold (Spec.true_positives keep labels preds) in HTP.
  fold (Spec.false_positives keep labels preds) in HFP.
  fold (Spec.false_negatives keep labels preds) in HFN.
  split; [apply ratio_nonneg; lia|].
  unfold Spec.ratio. destruct (Z.eqb_spec (2 * Spec.true_positives keep labels preds
    + Spec.false_positives keep labels preds + Spec.false_negatives keep labels preds) 0);
    [lra|].
  apply Qle_shift_div_r.
  - change 0%Q with (inject_Z 0). rewrite <- Zlt_Qlt. lia.
  - rewrite Qmult_1_l, <- Zle_Qle. lia.
Qed.

(** X1. On arrays of equal length [klue_re_micro_f1] returns 100 times
    2 TP / (2 TP + FP + FN), where TP, FP and FN are the true positives,
    false positives and false negatives pooled over the 29 classes other
    than [no_relation], and 0 when that denominator is 0: the harmonic
    mean of the pooled precision and recall in one ratio. *)
Theorem klue_re_micro_f1_closed_form (preds labels : list Z) :
  length preds = length labels ->
  exists f, klue_re_micro_f1 preds labels = Return f
    /\ (f == 100 * Spec.ratio (2 * Spec.true_positives (Spec.counted 0) labels preds)
                 (2 * Spec.true_positives (Spec.counted 0) labels preds
                  + Spec.false_positives (Spec.counted 0) labels preds
                  + Spec.false_negatives (Spec.counted 0) labels preds))%Q.
Proof.
  intros Hlen. destruct (klue_re_micro_f1_value preds labels Hlen) as (f & Ef & Hf).
  exists f. split; [exact Ef|]. rewrite Hf, micro_f1_closed_form. reflexivity.
Qed.

Lemma klue_re_micro_f1_closed_form_witness :
  exists f, klue_re_micro_f1 example_preds example_labels = Return f
    /\ (f == 100 * Spec.ratio (2 * Spec.true_positives (Spec.counted 0) example_labels example_preds)
                 (2 * Spec.true_positives (Spec.counted 0) example_labels example_preds
                  + Spec.false_positives (Spec.counted 0) example_labels example_preds
                  + Spec.false_negatives (Spec.counted 0) example_labels example_preds))%Q.
Proof. apply (klue_re_micro_f1_closed_form example_preds example_labels). reflexivity. Defined.

(** X2. On arrays of equal length [klue_re_micro_f1] returns a value
    between 0 and 100. *)
Theorem klue_re_micro_f1_bounds (preds labels : list Z) :
  length preds = length labels ->
  exists f, klue_re_micro_f1 preds labels = Return f /\ (0 <= f <= 100)%Q.
Proof.
  intros Hlen. destruct (klue_re_micro_f1_value preds labels Hlen) as (f & Ef & Hf).
  exists f. split; [exact Ef|]. rewrite Hf.
  pose proof (micro_f1_range (Spec.counted 0) labels preds). lra.
Qed.

Lemma klue_re_micro_f1_bounds_witness :
  exists f, klue_re_micro_f1 example_preds example_labels = Return f /\ (0 <= f <= 100)%Q.
Proof. apply (klue_re_micro_f1_bounds example_preds example_labels). reflexivity. Defined.

(** X3. The score is 0 exactly when no example of a class other than
    [no_relation] is predicted correctly, and 100 exactly when at least one
    such example is and no counted class has a false positive or a false
    negative. *)
Theorem klue_re_micro_f1_extremes (preds labels : list Z) :
  length preds = length labels ->
  exists f, klue_re_micro_f1 preds labels = Return f
    /\ ((f == 0)%Q <-> Spec.true_positives (Spec.counted 0) labels preds = 0)
    /\ ((f == 100)%Q <->
        (0 < Spec.true_positives (Spec.counted 0) labels preds
         /\ Spec.false_positives (Spec.counted 0) labels preds = 0
         /\ Spec.false_negatives (Spec.counted 0) labels preds = 0)).
Proof.
  intros Hlen. destruct (klue_re_micro_f1_value preds labels Hlen) as (f & Ef & Hf).
  exists f. split; [exact Ef|]. rewrite Hf, micro_f1_closed_form.
  set (TP := Spec.true_positives (Spec.counted 0) labels preds).
  set (FP := Spec.false_positives (Spec.counted 0) labels preds).
  set (FN := Spec.false_negatives (Spec.counted 0) labels preds).
  assert (HTP : 0 <= TP) by apply count_nonneg.
  assert (HFP : 0 <= FP) by apply count_nonneg.
  assert (HFN : 0 <= FN) by apply count_nonneg.
  unfold Spec.ratio. destruct (Z.eqb_spec (2 * TP + FP + FN) 0) as [E|E].
  - split; split; intros H.
    + lia.
    + ring.
    + exfalso. lra.
    + exfalso. lia.
  - assert (Hd : (0 < inject_Z (2 * TP + FP + FN))%Q)
      by (change 0%Q with (inject_Z 0); rewrite <- Zlt_Qlt; lia).
    assert (Hq : forall a : Z, (100 * (inject_Z a / inject_Z (2 * TP + FP + FN))
                   == 100 * inject_Z a * / inject_Z (2 * TP + FP + FN))%Q)
      by (intros; unfold Qdiv; ring).
    split; split.
    + intros H. assert (H0 : (inject_Z (2 * TP) == 0)%Q).
      { assert (Hx : (inject_Z (2 * TP) == (100 * (inject_Z (2 * TP) / inject_Z (2 * TP + FP + FN)))
                         * inject_Z (2 * TP + FP + FN) / 100)%Q) by (field; lra).
        rewrite Hx, H. field. }
      change 0%Q with (inject_Z 0) in H0. rewrite inject_Z_injective in H0. lia.
    + intros H. replace (2 * TP) with 0 by lia. change (inject_Z 0) with 0%Q.
      unfold Qdiv. ring.
    + intros H. assert (H0 : (inject_Z (2 * TP) == inject_Z (2 * TP + FP + FN))%Q).
      { assert (Hx : (inject_Z (2 * TP) == (100 * (inject_Z (2 * TP) / inject_Z (2 * TP + FP + FN)))
                         * inject_Z (2 * TP + FP + FN) / 100)%Q) by (field; lra).
        rewrite Hx, H. field. }
      rewrite inject_Z_injective in H0. lia.
    + intros (H1 & H2 & H3). rewrite H2, H3, !Z.add_0_r. field.
      apply inject_Z_nonzero. lia.
Qed.

Lemma klue_re_micro_f1_extremes_witness :
  exists f, klue_re_micro_f1 example_preds example_labels = Return f
    /\ ((f == 0)%Q <-> Spec.true_positives (Spec.counted 0) example_labels example_preds = 0)
    /\ ((f == 100)%Q <->
        (0 < Spec.true_positives (Spec.counted 0) example_labels example_preds
         /\ Spec.false_positives (Spec.counted 0) example_labels example_preds = 0
         /\ Spec.false_negatives (Spec.counted 0) example_labels example_preds = 0)).
Proof. apply (klue_re_micro_f1_extremes example_preds example_labels). reflexivity. Defined.

(** X4. The score does not depend on which of the two arrays holds the
    predictions: exchanging predictions and labels exchanges false
    positives and false negatives and leaves the value unchanged. *)
Theorem klue_re_micro_f1_symmetric (preds labels : list Z) :
  length preds = length labels ->
  exists f g, klue_re_micro_f1 preds labels = Return f
              /\ klue_re_micro_f1 labels preds = Return g
              /\ (f == g)%Q.
Proof.
  intros Hlen. destruct (klue_re_micro_f1_value preds labels Hlen) as (f & Ef & Hf).
  destruct (klue_re_micro_f1_value labels preds (eq_sym Hlen)) as (g & Eg & Hg).
  exists f, g. repeat split; [exact Ef|exact Eg|].
  rewrite Hf, Hg, !micro_f1_closed_form.
  destruct (counts_swapped (Spec.counted 0) labels preds) as (-> & -> & ->).
  replace (2 * Spec.true_positives (Spec.counted 0) labels preds
           + Spec.false_negatives (Spec.counted 0) labels preds
           + Spec.false_positives (Spec.counted 0) labels preds)
    with (2 * Spec.true_positives (Spec.counted 0) labels preds
           + Spec.false_positives (Spec.counted 0) labels preds
           + Spec.false_negatives (Spec.counted 0) labels preds) by lia.
  reflexivity.
Qed.

Lemma klue_re_micro_f1_symmetric_witness :
  exists f g, klue_re_micro_f1 example_preds example_labels = Return f
              /\ klue_re_micro_f1 example_labels example_preds = Return g
              /\ (f == g)%Q.
Proof. apply (klue_re_micro_f1_symmetric example_preds example_labels). reflexivity. Defined.

(** X5. The score depends on the examples only as a multiset of (label,
    prediction) pairs: two batches whose pairs are a permutation of each
    other get the same value. *)
Theorem klue_re_micro_f1_order_of_examples (preds labels preds' labels' : list Z) :
  length preds = length labels -> length preds' = length labels' ->
  Permutation (combine labels preds) (combine labels' preds') ->
  exists f g, klue_re_micro_f1 preds labels = Return f
              /\ klue_re_micro_f1 preds' labels' = Return g
              /\ (f == g)%Q.
Proof.
  intros Hlen Hlen' Hperm.
  destruct (klue_re_micro_f1_value preds labels Hlen) as (f & Ef & Hf).
  destruct (klue_re_micro_f1_value preds' labels' Hlen') as (g & Eg & Hg).
  exists f, g. repeat split; [exact Ef|exact Eg|].
  rewrite Hf, Hg.
  rewrite (micro_f1_counts (Spec.counted 0) labels preds labels' preds');
    [reflexivity|apply count_perm, Hperm..].
Qed.

Lemma klue_re_micro_f1_order_of_examples_witness :
  exists f g, klue_re_micro_f1 [29; 1] [29; 0] = Return f
              /\ klue_re_micro_f1 [1; 29] [0; 29] = Return g
              /\ (f == g)%Q.
Proof.
  apply (klue_re_micro_f1_order_of_examples [29; 1] [29; 0] [1; 29] [0; 29]).
  - reflexivity.
  - reflexivity.
  - apply perm_swap.
Defined.

(** X6. An example whose label and prediction are both outside the 29
    counted classes (both [no_relation], say) does not change the score,
    wherever it stands in the batch. *)
Theorem klue_re_micro_f1_ignores_uncounted
    (ps1 ps2 ls1 ls2 : list Z) (p l : Z) :
  length ps1 = length ls1 -> length ps2 = length ls2 ->
  Spec.counted 0 p = false -> Spec.counted 0 l = false ->
  exists f g, klue_re_micro_f1 (ps1 ++ p :: ps2) (ls1 ++ l :: ls2) = Return f
              /\ klue_re_micro_f1 (ps1 ++ ps2) (ls1 ++ ls2) = Return g
              /\ (f == g)%Q.
Proof.
  intros H1 H2 Hp Hl.
  destruct (klue_re_micro_f1_value (ps1 ++ p :: ps2) (ls1 ++ l :: ls2)) as (f & Ef & Hf).
  { rewrite !length_app. simpl. lia. }
  destruct (klue_re_micro_f1_value (ps1 ++ ps2) (ls1 ++ ls2)) as (g & Eg & Hg).
  { rewrite !length_app. lia. }
  exists f, g. repeat split; [exact Ef|exact Eg|]. rewrite Hf, Hg.
  rewrite (micro_f1_counts (Spec.counted 0) (ls1 ++ l :: ls2) (ps1 ++ p :: ps2)
             (ls1 ++ ls2) (ps1 ++ ps2)); [reflexivity|..];
    unfold Spec.true_positives, Spec.false_positives, Spec.false_negatives;
    rewrite !combine_app_aligned by lia; simpl combine;
    rewrite !count_app, count_cons; cbn [fst snd]; rewrite ?Hp, ?Hl; simpl; lia.
Qed.

Lemma klue_re_micro_f1_ignores_uncounted_witness :
  exists f g, klue_re_micro_f1 ([29] ++ 0 :: [1]) ([29] ++ 0 :: [2]) = Return f
              /\ klue_re_micro_f1 ([29] ++ [1]) ([29] ++ [2]) = Return g
              /\ (f == g)%Q.
Proof.
  apply (klue_re_micro_f1_ignores_uncounted [29] [1] [29] [2] 0 0); reflexivity.
Defined.

(** [f1_score] checks the lengths of its two arrays first. *)
Lemma f1_score_misaligned (y_true y_pred labels : list Z) :
  length y_true <> length y_pred ->
  sklearn.f1_score y_true y_pred sklearn.micro labels = Raise ValueError.
Proof.
  intros H. unfold sklearn.f1_score, sklearn.fbeta_score_micro,
    sklearn.multilabel_confusion_matrix, sklearn.check_consistent_length.
  destruct (Nat.eqb_spec (length y_true) (length y_pred)) as [E|_]; [congruence|].
  reflexivity.
Qed.

(** X7. When predictions and labels differ in length [klue_re_micro_f1]
    raises ValueError (scikit-learn's length check). *)
Theorem klue_re_micro_f1_length_mismatch (preds labels : list Z) :
  length preds <> length labels ->
  klue_re_micro_f1 preds labels = Raise ValueError.
Proof.
  intros H. unfold klue_re_micro_f1. rewrite label_indices_value.
  cbn [mbind outcome_bind]. rewrite f1_score_misaligned by congruence. reflexivity.
Qed.

Lemma klue_re_micro_f1_length_mismatch_witness :
  klue_re_micro_f1 [1] [] = Raise ValueError.
Proof. apply (klue_re_micro_f1_length_mismatch [1] []). discriminate. Defined.

Lemma counts_without_no_relation (labels preds : list Z) :
  length preds = length labels ->
  Forall (fun l => Spec.counted 0 l = true) labels ->
  Forall (fun p => Spec.counted 0 p = true) preds ->
  Spec.true_positives (Spec.counted 0) labels preds
    = Spec.true_positives (fun _ => true) labels preds
  /\ Spec.true_positives (Spec.counted 0) labels preds
     + Spec.false_positives (Spec.counted 0) labels preds = Z.of_nat (length labels)
  /\ Spec.true_positives (Spec.counted 0) labels preds
     + Spec.false_negatives (Spec.counted 0) labels preds = Z.of_nat (length labels).
Proof.
  intros Hlen Hl Hp. rewrite List.Forall_forall in Hl, Hp.
  assert (Hn : length (combine labels preds) = length labels)
    by (rewrite length_combine; lia).
  unfold Spec.true_positives, Spec.false_positives, Spec.false_negatives. repeat split.
  - apply count_ext. intros [l p] Hin. cbn [fst snd]. apply in_combine_l in Hin.
    rewrite (Hl l Hin). reflexivity.
  - rewrite <- pred_sum_split, <- Hn. apply count_all. apply List.Forall_forall.
    intros [l p] Hin. apply in_combine_r in Hin. apply Hp, Hin.
  - rewrite <- true_sum_split, <- Hn. apply count_all. apply List.Forall_forall.
    intros [l p] Hin. apply in_combine_l in Hin. apply Hl, Hin.
Qed.

(** X8. On a non-empty batch in which neither a label nor a prediction is
    [no_relation] (all are in 1..29) the value of the micro F1 is 100
    times the share of the examples that are predicted correctly: every
    wrong prediction is one false positive and one false negative of
    counted classes. The value is that of the exact arithmetic of the
    model; it is not compared with the rounded output of another call. *)
Theorem klue_re_micro_f1_share_correct_without_no_relation (preds labels : list Z) :
  labels <> [] -> length preds = length labels ->
  Forall (fun l => 1 <= l <= 29) labels ->
  Forall (fun p => 1 <= p <= 29) preds ->
  exists f, klue_re_micro_f1 preds labels = Return f
            /\ (f == 100 * (inject_Z (Spec.true_positives (fun _ => true) labels preds)
                            / inject_Z (Z.of_nat (length labels))))%Q.
Proof.
  intros Hne Hlen Hl Hp.
  destruct (klue_re_micro_f1_value preds labels Hlen) as (f & Ef & Hf).
  exists f. split; [exact Ef|].
  assert (Hc : forall x, 1 <= x <= 29 -> Spec.counted 0 x = true).
  { intros x Hx. unfold Spec.counted. rewrite !andb_true_iff, negb_true_iff. repeat split; lia. }
  destruct (counts_without_no_relation labels preds Hlen) as (E1 & E2 & E3).
  { eapply List.Forall_impl; [|exact Hl]. exact Hc. }
  { eapply List.Forall_impl; [|exact Hp]. exact Hc. }
  rewrite Hf, micro_f1_closed_form, <- E1.
  set (TP := Spec.true_positives (Spec.counted 0) labels preds) in *.
  replace (2 * TP + Spec.false_positives (Spec.counted 0) labels preds
           + Spec.false_negatives (Spec.counted 0) labels preds)
    with (2 * Z.of_nat (length labels)) by lia.
  assert (Hn : Z.of_nat (length labels) <> 0) by (destruct labels; [congruence|simpl; lia]).
  unfold Spec.ratio. destruct (Z.eqb_spec (2 * Z.of_nat (length labels)) 0); [lia|].
  rewrite !inject_Z_mult. change (inject_Z 2) with 2%Q. field.
  apply inject_Z_nonzero, Hn.
Qed.

Lemma klue_re_micro_f1_share_correct_without_no_relation_witness :
  exists f, klue_re_micro_f1 [1; 3; 7] [1; 2; 7] = Return f
            /\ (f == 100 * (inject_Z (Spec.true_positives (fun _ => true) [1; 2; 7]%Z [1; 3; 7]%Z)
                            / inject_Z (Z.of_nat (length [1; 2; 7]%Z))))%Q.
Proof.
  apply (klue_re_micro_f1_share_correct_without_no_relation [1; 3; 7] [1; 2; 7]).
  - discriminate.
  - reflexivity.
  - repeat constructor; lia.
  - repeat constructor; lia.
Defined.

(** ** The label codec: missing file, unknown labels, concatenation *)

Lemma traverse_app {A B : Type} (f : A -> outcome B) (l1 l2 : list A) :
  traverse f (l1 ++ l2) =
    match traverse f l1 with
    | Return b1 => match traverse f l2 with
                   | Return b2 => Return (b1 ++ b2)
                   | Raise e => Raise e
                   end
    | Raise e => Raise e
    end.
Proof.
  induction l1 as [|a l1 IH]; simpl app.
  - simpl. destruct (traverse f l2); reflexivity.
  - rewrite !traverse_cons, IH. destruct (f a); [|reflexivity].
    destruct (traverse f l1); [|reflexivity]. destruct (traverse f l2); reflexivity.
Qed.

(** X9. Without the pickled mapping file [label_to_num] raises
    FileNotFoundError before it looks at any label and leaves nothing in
    the trace; [train], run under the arguments that the script's parser
    defines, then stops with the same error right after the split, before
    any tokenization, model construction or training. *)
Theorem label_to_num_missing_file (d : disk) (label tl dl : list string) :
  d !! mapping_file = None ->
  label_to_num label d = (Raise (FileNotFoundError mapping_file), [])
  /\ train parse_args tl dl d = (Raise (FileNotFoundError mapping_file), before_labels).
Proof.
  intros H. assert (E : forall l, label_to_num l d = (Raise (FileNotFoundError mapping_file), [])).
  { intros l. unfold label_to_num, mbind, io_bind, open_and_load. rewrite H. reflexivity. }
  split; [apply E|]. unfold train.
  repeat (first [ rewrite bind_emit
                | rewrite bind_getattr_in by (apply (bool_decide_unpack _); vm_compute; exact I) ];
          cbv beta).
  rewrite bind_unfold, E. reflexivity.
Qed.

Lemma label_to_num_missing_file_witness :
  label_to_num ["no_relation"%string] (∅ : disk) = (Raise (FileNotFoundError mapping_file), [])
  /\ train parse_args ["no_relation"%string] [] (∅ : disk)
     = (Raise (FileNotFoundError mapping_file), before_labels).
Proof.
  apply (label_to_num_missing_file (∅ : disk) ["no_relation"%string] ["no_relation"%string] []).
  reflexivity.
Defined.

(** X10. [label_to_num] raises KeyError for the first label that the
    mapping does not know: the labels before it are looked up
    successfully and whatever follows it is never looked at. *)
Theorem label_to_num_first_unknown (d : disk) (dict : gmap string Z)
    (known rest : list string) (v : string) :
  d !! mapping_file = Some dict ->
  Forall (fun k => is_Some (dict !! k)) known -> dict !! v = None ->
  fst (label_to_num (known ++ v :: rest) d) = Raise (KeyError v).
Proof.
  intros Hfile Hk Hv. rewrite (label_to_num_unfold dict d Hfile). cbn [fst].
  rewrite traverse_app. destruct (traverse_getitem_present dict known Hk) as (nums & -> & _).
  rewrite traverse_cons. unfold dict_getitem at 1. rewrite Hv. reflexivity.
Qed.

Lemma label_to_num_first_unknown_witness :
  fst (label_to_num ["no_relation"; "per:title"; "no_relation"; "org:members"]%string disk0)
  = Raise (KeyError "per:title").
Proof.
  apply (label_to_num_first_unknown disk0 {[ "no_relation"%string := 0 ]}
           ["no_relation"%string] ["no_relation"; "org:members"]%string "per:title"%string).
  - reflexivity.
  - repeat constructor; eexists; reflexivity.
  - reflexivity.
Defined.

(** X11. Converting a concatenation of label columns is converting the
    parts and concatenating the results; an unknown label in the first
    part wins over one in the second. *)
Theorem label_to_num_concat (d : disk) (dict : gmap string Z) (a b : list string) :
  d !! mapping_file = Some dict ->
  fst (label_to_num (a ++ b) d) =
    match fst (label_to_num a d), fst (label_to_num b d) with
    | Return na, Return nb => Return (na ++ nb)
    | Return _, Raise e => Raise e
    | Raise e, _ => Raise e
    end.
Proof.
  intros Hfile. rewrite !(label_to_num_unfold dict d Hfile). cbn [fst]. apply traverse_app.
Qed.

Lemma label_to_num_concat_witness :
  fst (label_to_num ["no_relation"; "per:title"]%string disk0) =
    match fst (label_to_num ["no_relation"%string] disk0),
          fst (label_to_num ["per:title"%string] disk0) with
    | Return na, Return nb => Return (na ++ nb)
    | Return _, Raise e => Raise e
    | Raise e, _ => Raise e
    end.
Proof.
  apply (label_to_num_concat disk0 {[ "no_relation"%string := 0 ]}
           ["no_relation"%string] ["per:title"%string]).
  reflexivity.
Defined.

(** X12. When the mapping gives different labels different numbers the
    conversion loses nothing: two different label columns that are both
    converted get different numeric columns. *)
Theorem label_to_num_injective (d : disk) (dict : gmap string Z)
    (l1 l2 : list string) (n1 n2 : list Z) :
  d !! mapping_file = Some dict ->
  (forall k1 k2 n, dict !! k1 = Some n -> dict !! k2 = Some n -> k1 = k2) ->
  fst (label_to_num l1 d) = Return n1 ->
  fst (label_to_num l2 d) = Return n2 ->
  l1 <> l2 -> n1 <> n2.
Proof.
  intros Hfile Hinj H1 H2 Hne E. apply Hne. subst n2. clear Hne.
  rewrite (label_to_num_unfold dict d Hfile) in H1, H2. cbn [fst] in H1, H2.
  revert l2 n1 H1 H2. induction l1 as [|a l1 IH]; intros [|b l2] nums H1 H2.
  - reflexivity.
  - injection H1 as <-. rewrite traverse_cons in H2.
    destruct (dict_getitem dict b); [|discriminate]. destruct (traverse _ l2); discriminate.
  - injection H2 as <-. rewrite traverse_cons in H1.
    destruct (dict_getitem dict a); [|discriminate]. destruct (traverse _ l1); discriminate.
  - rewrite traverse_cons in H1, H2. unfold dict_getitem at 1 in H1. unfold dict_getitem at 1 in H2.
    destruct (dict !! a) as [na|] eqn:Ea; [|discriminate].
    destruct (dict !! b) as [nb|] eqn:Eb; [|discriminate].
    destruct (traverse _ l1) as [m1|] eqn:E1; [|discriminate].
    destruct (traverse _ l2) as [m2|] eqn:E2; [|discriminate].
    injection H1 as <-. injection H2 as Hn Hr. subst.
    f_equal; [apply (Hinj a b na Ea Eb)|]. apply (IH l2 m1); [reflexivity|exact E2].
Qed.

Lemma label_to_num_injective_witness : [0; 4; 0] <> [4; 0; 0].
Proof.
  apply (label_to_num_injective disk1 {[ "no_relation"%string := 0; "per:title"%string := 4 ]}
           ["no_relation"; "per:title"; "no_relation"]%string
           ["per:title"; "no_relation"; "no_relation"]%string [0; 4; 0] [4; 0; 0]).
  - reflexivity.
  - intros k1 k2 n H1 H2.
    apply lookup_insert_Some in H1 as [[<- <-]|[_ H1]];
      apply lookup_insert_Some in H2 as [[<- E2]|[_ H2]]; try reflexivity; try discriminate.
    + apply lookup_singleton_Some in H2 as [_ E]. discriminate.
    + apply lookup_singleton_Some in H1 as [_ E]. subst n. discriminate.
    + apply lookup_singleton_Some in H1 as [<- _]. apply lookup_singleton_Some in H2 as [<- _].
      reflexivity.
  - reflexivity.
  - reflexivity.
  - discriminate.
Defined.

(** X24. The parser of the script defines neither [tokenize] nor
    [warmup_ratio], and [train] reads both. With the mapping file in place
    and all labels known, a run under the parsed arguments converts the
    labels and then ends in AttributeError at the first read of
    [args.tokenize], before anything is tokenized; with that attribute
    added it tokenizes, builds the model and ends at [args.warmup_ratio],
    before the trainer is built; only with both added does it train and
    save the model. *)
Theorem train_needs_undefined_arguments (d : disk) (dict : gmap string Z)
    (tl dl : list string) :
  d !! mapping_file = Some dict ->
  Forall (fun v => is_Some (dict !! v)) tl ->
  Forall (fun v => is_Some (dict !! v)) dl ->
  train parse_args tl dl d
  = (Raise (AttributeError "tokenize"),
     before_labels ++ (load_events ++ load_events) ++ before_tokenize)
  /\ (exists t, train (parse_args ∪ {[ "tokenize"%string ]}) tl dl d
                = (Raise (AttributeError "warmup_ratio"), t)
                /\ In (EvCall "tokenize") t /\ ~ In (EvCall "trainer.train") t)
  /\ (exists t, train (parse_args ∪ {[ "tokenize"%string ]} ∪ {[ "warmup_ratio"%string ]}) tl dl d
                = (Return tt, t)
                /\ In (EvCall "trainer.train") t
                /\ List.last t (EvCall "") = EvCall "model.save_pretrained").
Proof.
  intros Hfile Htl Hdl.
  destruct (traverse_getitem_present dict tl Htl) as (a & Ea & _).
  destruct (traverse_getitem_present dict dl Hdl) as (b & Eb & _).
  split; [rewrite (train_unfold dict d Hfile), Ea, Eb; reflexivity|]. split.
  - unfold train.
    repeat (first [ rewrite bind_emit
                  | rewrite bind_getattr_in by (apply (bool_decide_unpack _); vm_compute; exact I) ];
            cbv beta).
    rewrite (bind_label_to_num dict d Hfile), Ea.
    rewrite (bind_label_to_num dict d Hfile), Eb.
    repeat (first [ rewrite bind_emit
                  | rewrite bind_getattr_in by (apply (bool_decide_unpack _); vm_compute; exact I) ];
            cbv beta).
    rewrite bind_getattr_out by (apply (bool_decide_unpack _); vm_compute; exact I).
    eexists. split; [reflexivity|]. split; [simpl; tauto|].
    simpl. intuition discriminate.
  - unfold train.
    repeat (first [ rewrite bind_emit
                  | rewrite bind_getattr_in by (apply (bool_decide_unpack _); vm_compute; exact I) ];
            cbv beta).
    rewrite (bind_label_to_num dict d Hfile), Ea.
    rewrite (bind_label_to_num dict d Hfile), Eb.
    repeat (first [ rewrite bind_emit
                  | rewrite bind_getattr_in by (apply (bool_decide_unpack _); vm_compute; exact I) ];
            cbv beta).
    eexists. split; [reflexivity|]. split; [simpl; tauto|reflexivity].
Qed.

Lemma train_needs_undefined_arguments_witness :
  train parse_args ["no_relation"; "per:title"] ["per:title"] disk1
  = (Raise (AttributeError "tokenize"),
     before_labels ++ (load_events ++ load_events) ++ before_tokenize)
  /\ (exists t, train (parse_args ∪ {[ "tokenize"%string ]}) ["no_relation"; "per:title"]
                      ["per:title"] disk1
                = (Raise (AttributeError "warmup_ratio"), t)
                /\ In (EvCall "tokenize") t /\ ~ In (EvCall "trainer.train") t)
  /\ (exists t, train (parse_args ∪ {[ "tokenize"%string ]} ∪ {[ "warmup_ratio"%string ]})
                      ["no_relation"; "per:title"] ["per:title"] disk1
                = (Return tt, t)
                /\ In (EvCall "trainer.train") t
                /\ List.last t (EvCall "") = EvCall "model.save_pretrained").
Proof.
  apply (train_needs_undefined_arguments disk1
           {[ "no_relation"%string := 0; "per:title"%string := 4 ]}).
  - reflexivity.
  - repeat constructor; eexists; reflexivity.
  - repeat constructor; eexists; reflexivity.
Defined.

(** ** All metrics together: rejected batches and rescaled scores *)

Section MetricsErrors.

Lemma argmax_raises_value_error (rows : list (list Q)) (e : exn) :
  traverse np.argmax rows = Raise e -> e = ValueError.
Proof.
  intros H. apply traverse_raise in H as (row & _ & Hrow).
  destruct row; [injection Hrow as <-; reflexivity|discriminate].
Qed.

Lemma argmax_empty_row (rows : list (list Q)) :
  Exists (fun row => row = []) rows -> traverse np.argmax rows = Raise ValueError.
Proof.
  intros H. destruct (traverse np.argmax rows) as [preds|e] eqn:E.
  - exfalso. apply traverse_Forall2 in E. clear -H E.
    induction E as [|row p rows preds Hp _ IH]; inversion H; subst; [discriminate|auto].
  - f_equal. apply (argmax_raises_value_error rows e E).
Qed.

Lemma klue_re_auprc_no_examples : klue_re_auprc [] [] = Raise ValueError.
Proof. reflexivity. Qed.

(** X13. [compute_metrics] raises ValueError on an empty batch, on a batch
    whose number of score rows differs from its number of labels, and on
    a batch with a row without scores. *)
Theorem compute_metrics_rejects (pred : EvalPrediction) :
  label_ids pred = []
  \/ length (predictions pred) <> length (label_ids pred)
  \/ Exists (fun row => row = []) (predictions pred) ->
  compute_metrics pred = Raise ValueError.
Proof.
  intros H. unfold compute_metrics.
  destruct (traverse np.argmax (predictions pred)) as [preds|e] eqn:E.
  2:{ rewrite (argmax_raises_value_error _ _ E). reflexivity. }
  cbn [mbind outcome_bind]. pose proof (traverse_length _ _ _ E) as Hlen.
  destruct (Nat.eq_dec (length preds) (length (label_ids pred))) as [Heq|Hne].
  - destruct H as [H|[H|H]].
    + rewrite H in *. destruct preds; [|discriminate].
      destruct (predictions pred); [|discriminate]. reflexivity.
    + congruence.
    + rewrite (argmax_empty_row _ H) in E. discriminate.
  - unfold klue_re_micro_f1. rewrite label_indices_value. cbn [mbind outcome_bind].
    rewrite f1_score_misaligned by congruence. reflexivity.
Qed.

Lemma compute_metrics_rejects_witness :
  compute_metrics {| predictions := [[1%Q]; [1%Q]]; label_ids := [0] |} = Raise ValueError.
Proof.
  apply (compute_metrics_rejects {| predictions := [[1%Q]; [1%Q]]; label_ids := [0] |}).
  right. left. discriminate.
Defined.

End MetricsErrors.

Section GlobalRescaling.

Variable g : Q -> Q.
Hypothesis Hg : Batch.order_preserving g.

Lemma argmax_from_rescaled (row : list Q) (best : Q) (besti i : nat) :
  np.argmax_from (g best) besti i (map g row) = np.argmax_from best besti i row.
Proof using Hg.
  revert best besti i. induction row as [|v row IH]; intros best besti i; [reflexivity|].
  simpl. rewrite (rescale_le g Hg). destruct (Qle_bool v best); apply IH.
Qed.

Lemma argmax_rescaled (row : list Q) : np.argmax (map g row) = np.argmax row.
Proof using Hg.
  destruct row as [|v row]; [reflexivity|]. simpl. rewrite argmax_from_rescaled. reflexivity.
Qed.

Lemma rescale_all (probs : list (list Q)) :
  Batch.rescale (fun _ => g) probs = map (map g) probs.
Proof.
  unfold Batch.rescale. apply map_ext. intros row.
  generalize 0%nat. induction row as [|v row IH]; intros n; [reflexivity|].
  simpl. rewrite IH. reflexivity.
Qed.

Lemma traverse_map {A B C : Type} (f : B -> outcome C) (h : A -> B) (l : list A) :
  traverse f (map h l) = traverse (fun a => f (h a)) l.
Proof.
  induction l as [|a l IH]; [reflexivity|]. simpl map. rewrite !traverse_cons, IH. reflexivity.
Qed.

Lemma klue_re_auprc_rescaled_all (probs : list (list Q)) (labels : list Z) :
  klue_re_auprc (map (map g) probs) labels = klue_re_auprc probs labels.
Proof using Hg.
  rewrite <- rescale_all. unfold klue_re_auprc.
  generalize (np.getitem_rows (np.eye 30) labels).
  intros [onehot|e]; cbn [mbind outcome_bind]; [|reflexivity].
  rewrite (class_areas_rescaled (fun _ => g) probs onehot _ (fun _ => Hg)). reflexivity.
Qed.

End GlobalRescaling.

(** X14. All three metrics depend on the scores only through their order:
    applying one strictly increasing map to every score (softmax
    temperature, logits against probabilities of a fixed row shift, an
    affine rescaling) leaves the result of [compute_metrics] unchanged,
    errors included. *)
Theorem compute_metrics_rescaling_invariant (g : Q -> Q) (probs : list (list Q))
    (labels : list Z) :
  Batch.order_preserving g ->
  compute_metrics {| predictions := map (map g) probs; label_ids := labels |}
  = compute_metrics {| predictions := probs; label_ids := labels |}.
Proof.
  intros Hg. unfold compute_metrics. cbn [predictions label_ids].
  rewrite traverse_map, (traverse_ext _ np.argmax) by (intros; apply (argmax_rescaled g Hg)).
  destruct (traverse np.argmax probs) as [preds|e]; cbn [mbind outcome_bind]; [|reflexivity].
  destruct (klue_re_micro_f1 preds labels) as [f1|e]; cbn [mbind outcome_bind]; [|reflexivity].
  rewrite (klue_re_auprc_rescaled_all g Hg). reflexivity.
Qed.

Lemma compute_metrics_rescaling_invariant_witness :
  compute_metrics {| predictions := map (map (fun x => 2 * x + 1)%Q) example_probs;
                     label_ids := example_labels |}
  = compute_metrics {| predictions := example_probs; label_ids := example_labels |}.
Proof.
  apply (compute_metrics_rescaling_invariant (fun x => 2 * x + 1)%Q example_probs example_labels).
  intros x y. split; intros H; lra.
Defined.

(** ** All metrics together: the accuracy, and scores that are all tied *)

(** What [compute_metrics] computes on a well-formed batch, step by step. *)
Lemma compute_metrics_parts (pred : EvalPrediction) :
  Batch.well_formed (predictions pred) (label_ids pred) ->
  exists preds f1 a q,
    traverse np.argmax (predictions pred) = Return preds
    /\ length preds = length (label_ids pred)
    /\ Forall2 first_max (predictions pred) preds
    /\ klue_re_micro_f1 preds (label_ids pred) = Return f1
    /\ sklearn.accuracy_score (label_ids pred) preds = Return (Fin q)
    /\ compute_metrics pred = Return {| micro_f1_score := f1; auprc := a; accuracy := Fin q |}.
Proof.
  intros [Hne Hlen Hl Hrows].
  destruct (argmax_rows (predictions pred) Hrows) as (preds & Ep & Hpreds).
  assert (Hlp : length preds = length (label_ids pred)).
  { rewrite (traverse_length _ _ _ Ep). exact Hlen. }
  destruct (klue_re_micro_f1_value preds (label_ids pred) Hlp) as (f1 & Ef & _).
  destruct (klue_re_auprc_returns (predictions pred) (label_ids pred) Hne Hlen Hrows) as (a & Ea).
  { eapply List.Forall_impl; [|exact Hl]. simpl. lia. }
  destruct (accuracy_score_value (label_ids pred) preds Hne (eq_sym Hlp)) as (q & Eq & _).
  exists preds, f1, a, q. repeat split; try assumption.
  unfold compute_metrics. rewrite Ep. cbn [mbind outcome_bind]. rewrite Ef.
  cbn [mbind outcome_bind]. rewrite Ea. cbn [mbind outcome_bind]. rewrite Eq. reflexivity.
Qed.

Lemma all_matches (labels preds : list Z) :
  length preds = length labels ->
  (Spec.true_positives (fun _ => true) labels preds = Z.of_nat (length labels)
   <-> preds = labels).
Proof.
  unfold Spec.true_positives. revert preds.
  induction labels as [|l labels IH]; intros [|p preds] H; try discriminate.
  - split; reflexivity.
  - simpl combine. rewrite count_cons. cbn [fst snd]. rewrite andb_true_l.
    pose proof (count_nonneg (fun lp : Z * Z => true && (fst lp =? snd lp)) (combine labels preds)) as H0.
    assert (Hle : count (fun lp : Z * Z => true && (fst lp =? snd lp)) (combine labels preds)
                  <= Z.of_nat (length labels)).
    { unfold count. pose proof (List.filter_length_le (fun lp : Z * Z => true && (fst lp =? snd lp)) (combine labels preds)) as Hf.
      rewrite length_combine in Hf. lia. }
    simpl length. specialize (IH preds ltac:(simpl in H; lia)).
    rewrite Nat2Z.inj_succ.
    destruct (Z.eqb_spec l p) as [->|Hne].
    + split.
      * intros E. f_equal. apply IH. lia.
      * intros E. injection E as ->. assert (E' : labels = labels) by reflexivity.
        apply IH in E'. lia.
    + split; [intros E; lia|intros E; congruence].
Qed.

(** X15. On a well-formed batch the accuracy that [compute_metrics]
    reports lies between 0 and 1, and it is 1 exactly when the arg-max
    predictions equal the labels. *)
Theorem compute_metrics_accuracy_range (pred : EvalPrediction) :
  Batch.well_formed (predictions pred) (label_ids pred) ->
  exists preds m q,
    Forall2 first_max (predictions pred) preds
    /\ compute_metrics pred = Return m
    /\ accuracy m = Fin q
    /\ (0 <= q <= 1)%Q
    /\ ((q == 1)%Q <-> preds = label_ids pred).
Proof.
  intros Hwf. destruct (compute_metrics_parts pred Hwf) as (preds & f1 & a & q & Ep & Hlen & Hpreds & _ & Eq & Em).
  destruct Hwf as [Hne _ _ _].
  destruct (accuracy_score_value (label_ids pred) preds Hne (eq_sym Hlen)) as (q' & Eq' & Hq).
  rewrite Eq in Eq'. injection Eq' as <-.
  exists preds, {| micro_f1_score := f1; auprc := a; accuracy := Fin q |}, q.
  split; [exact Hpreds|]. split; [exact Em|]. split; [reflexivity|].
  assert (Hgoal : (0 <= q)%Q /\ (q <= 1)%Q /\ ((q == 1)%Q <-> preds = label_ids pred));
    [|tauto].
  split; [|split; [|split]].
  all: set (TP := Spec.true_positives (fun _ => true) (label_ids pred) preds) in *.
  all: assert (Hn : 0 < Z.of_nat (length (label_ids pred)))
         by (destruct (label_ids pred); [congruence|simpl; lia]).
  all: assert (Hn' : (0 < inject_Z (Z.of_nat (length (label_ids pred))))%Q)
         by (change 0%Q with (inject_Z 0); rewrite <- Zlt_Qlt; exact Hn).
  all: assert (HTP : 0 <= TP <= Z.of_nat (length (label_ids pred))).
  1,3,5,7: (split; [apply count_nonneg|]; unfold TP, Spec.true_positives, count;
      pose proof (List.filter_length_le (fun lp : Z * Z => true && (fst lp =? snd lp))
                    (combine (label_ids pred) preds)) as Hf;
      rewrite length_combine in Hf; lia).
  - rewrite Hq. apply Qle_shift_div_l; [exact Hn'|]. rewrite Qmult_0_l.
    change 0%Q with (inject_Z 0). rewrite <- Zle_Qle. lia.
  - rewrite Hq. apply Qle_shift_div_r; [exact Hn'|]. rewrite Qmult_1_l, <- Zle_Qle. lia.
  - intros H1. apply (all_matches (label_ids pred) preds Hlen).
    rewrite Hq in H1.
    assert (Hx : (inject_Z TP == inject_Z TP / inject_Z (Z.of_nat (length (label_ids pred)))
                    * inject_Z (Z.of_nat (length (label_ids pred))))%Q) by (field; lra).
    assert (HE : (inject_Z TP == inject_Z (Z.of_nat (length (label_ids pred))))%Q)
      by (rewrite Hx, H1; ring).
    rewrite inject_Z_injective in HE. exact HE.
  - intros E. apply (all_matches (label_ids pred) preds Hlen) in E. fold TP in E.
    rewrite Hq, E. field. lra.
Qed.

Lemma compute_metrics_accuracy_range_witness :
  exists preds m q,
    Forall2 first_max example_probs preds
    /\ compute_metrics {| predictions := example_probs; label_ids := example_labels |} = Return m
    /\ accuracy m = Fin q
    /\ (0 <= q <= 1)%Q
    /\ ((q == 1)%Q <-> preds = example_labels).
Proof.
  apply (compute_metrics_accuracy_range
           {| predictions := example_probs; label_ids := example_labels |}).
  constructor.
  - discriminate.
  - reflexivity.
  - repeat constructor; lia.
  - repeat constructor.
Defined.

Lemma argmax_constant_row (v : Q) (n : nat) : np.argmax (repeat v (S n)) = Return 0.
Proof.
  simpl. f_equal. generalize 1%nat. induction n as [|n IH]; intros i; [reflexivity|].
  simpl. assert (E : Qle_bool v v = true) by (apply Qle_bool_iff; lra). rewrite E. apply IH.
Qed.

(** X16. When every row of scores is constant (a model that does not
    discriminate at all) the arg-max picks class 0, [no_relation], for
    every example: the micro F1 is 0 and the accuracy is the share of
    [no_relation] among the labels. *)
Theorem compute_metrics_all_ties (pred : EvalPrediction) :
  Batch.well_formed (predictions pred) (label_ids pred) ->
  Forall (fun row => exists v, row = repeat v 30) (predictions pred) ->
  exists m q,
    compute_metrics pred = Return m
    /\ (micro_f1_score m == 0)%Q
    /\ accuracy m = Fin q
    /\ (q == inject_Z (count (fun l => l =? 0) (label_ids pred))
             / inject_Z (Z.of_nat (length (label_ids pred))))%Q.
Proof.
  intros Hwf Hties.
  destruct (compute_metrics_parts pred Hwf) as (preds & f1 & a & q & Ep & Hlen & _ & Ef & Eq & Em).
  assert (Hzero : Forall (fun p => p = 0) preds).
  { apply traverse_Forall2 in Ep. clear -Ep Hties.
    induction Ep as [|row p rows preds Hp _ IH]; [constructor|].
    inversion Hties as [|? ? [v Hv] Hrest]; subst. constructor; [|apply IH, Hrest].
    rewrite (argmax_constant_row v 29) in Hp. congruence. }
  destruct Hwf as [Hne _ _ _].
  destruct (klue_re_micro_f1_value preds (label_ids pred) Hlen) as (f1' & Ef' & Hf).
  rewrite Ef in Ef'. injection Ef' as <-.
  destruct (accuracy_score_value (label_ids pred) preds Hne (eq_sym Hlen)) as (q' & Eq' & Hq).
  rewrite Eq in Eq'. injection Eq' as <-.
  exists {| micro_f1_score := f1; auprc := a; accuracy := Fin q |}, q.
  split; [exact Em|]. cbn [micro_f1_score accuracy].
  assert (Hsnd : forall lp, In lp (combine (label_ids pred) preds) -> snd lp = 0).
  { intros [l p] Hin. apply in_combine_r in Hin. rewrite List.Forall_forall in Hzero.
    apply Hzero, Hin. }
  split; [|split; [reflexivity|]].
  - rewrite Hf, micro_f1_closed_form.
    assert (Htp : Spec.true_positives (Spec.counted 0) (label_ids pred) preds = 0).
    { apply count_none. intros lp Hin. rewrite (Hsnd lp Hin).
      destruct (Z.eqb_spec (fst lp) 0) as [->|]; [reflexivity|apply andb_false_r]. }
    rewrite Htp. simpl Z.mul. rewrite ratio_zero_num. ring.
  - rewrite Hq. unfold Spec.true_positives.
    rewrite (count_ext _ (fun lp : Z * Z => fst lp =? 0)).
    + rewrite <- (count_fst (fun l => l =? 0) (label_ids pred) preds) by (symmetry; exact Hlen).
      reflexivity.
    + intros lp Hin. rewrite (Hsnd lp Hin). reflexivity.
Qed.

Lemma compute_metrics_all_ties_witness :
  exists m q,
    compute_metrics {| predictions := [repeat (1 / 30)%Q 30; repeat 0%Q 30]; label_ids := [0; 5] |}
    = Return m
    /\ (micro_f1_score m == 0)%Q
    /\ accuracy m = Fin q
    /\ (q == inject_Z (count (fun l => l =? 0) [0; 5]%Z)
             / inject_Z (Z.of_nat (length [0; 5]%Z)))%Q.
Proof.
  apply (compute_metrics_all_ties
           {| predictions := [repeat (1 / 30)%Q 30; repeat 0%Q 30]; label_ids := [0; 5] |}).
  - constructor.
    + discriminate.
    + reflexivity.
    + repeat constructor; lia.
    + repeat constructor.
  - repeat constructor; eexists; reflexivity.
Defined.

(** ** AUPRC: surplus columns, negative labels, missing columns *)

Lemma take_column_firstn {A : Type} (a : list (list A)) (n c : nat) :
  (c < n)%nat -> np.take_column (map (firstn n) a) c = np.take_column a c.
Proof.
  intros Hc. unfold np.take_column. induction a as [|row a IH]; [reflexivity|].
  simpl map. rewrite !traverse_cons, IH, nth_error_firstn.
  destruct (Nat.ltb_spec c n); [reflexivity|lia].
Qed.

(** X17. [klue_re_auprc] reads only the first 30 columns of the scores:
    cutting every row down to its first 30 entries changes neither the
    value nor the error. *)
Theorem klue_re_auprc_ignores_extra_columns (probs : list (list Q)) (labels : list Z) :
  klue_re_auprc (map (firstn 30) probs) labels = klue_re_auprc probs labels.
Proof.
  unfold klue_re_auprc. generalize (np.getitem_rows (np.eye 30) labels).
  intros [onehot|e]; cbn [mbind outcome_bind]; [|reflexivity].
  rewrite (traverse_ext _ (fun c =>
             targets_c ← np.take_column onehot c;
             preds_c ← np.take_column probs c;
             '(precision, recall, _) ← sklearn.precision_recall_curve targets_c preds_c;
             sklearn.auc recall precision)); [reflexivity|].
  intros c Hc. apply in_seq in Hc. rewrite take_column_firstn by lia. reflexivity.
Qed.

Lemma row_of_mod (l : Z) : row_of (l mod 30) = row_of l.
Proof. unfold row_of. rewrite Z.mod_mod by lia. reflexivity. Qed.

(** X18. A negative label in [-30, 0) is not rejected but counted as the
    class 30 places up (numpy's indexing from the end): the result is that
    of the batch with every label reduced modulo 30. *)
Theorem klue_re_auprc_negative_labels_wrap (probs : list (list Q)) (labels : list Z) :
  Forall (fun l => -30 <= l < 30) labels ->
  klue_re_auprc probs labels = klue_re_auprc probs (map (fun l => l mod 30) labels).
Proof.
  intros H. rewrite (klue_re_auprc_wrapped probs labels H).
  rewrite (klue_re_auprc_wrapped probs (map (fun l => l mod 30) labels)).
  - rewrite (traverse_ext (class_area_wrapped probs (map (fun l => l mod 30) labels))
               (class_area_wrapped probs labels)); [reflexivity|].
    intros c _. unfold class_area_wrapped. rewrite map_map.
    rewrite (map_ext _ (fun l => if Nat.eqb (row_of l) c then 1%Q else 0%Q));
      [reflexivity|].
    intros l. rewrite row_of_mod. reflexivity.
  - apply List.Forall_forall. intros l Hl. apply in_map_iff in Hl as (x & <- & _).
    pose proof (Z.mod_pos_bound x 30). lia.
Qed.

Lemma klue_re_auprc_negative_labels_wrap_witness :
  klue_re_auprc example_probs [-1; 0; 0]
  = klue_re_auprc example_probs (map (fun l => l mod 30) [-1; 0; 0]).
Proof.
  apply (klue_re_auprc_negative_labels_wrap example_probs [-1; 0; 0]).
  repeat constructor; lia.
Defined.

Lemma class_area_wrapped_returns (probs : list (list Q)) (labels : list Z) (c : nat) :
  labels <> [] -> length probs = length labels ->
  Forall (fun row => (c < length row)%nat) probs ->
  returns (class_area_wrapped probs labels c).
Proof.
  intros Hne Hlen Hrows. unfold class_area_wrapped.
  destruct (take_column_rows probs c Hrows) as (col & -> & Hcol).
  cbn [mbind outcome_bind]. apply precision_recall_auc_returns.
  - destruct labels; [congruence|discriminate].
  - rewrite length_map. lia.
  - apply List.Forall_forall. intros v Hv. apply in_map_iff in Hv as (l & <- & _).
    destruct (Nat.eqb _ _); auto.
Qed.

(** X19. With fewer than 30 scores per example [klue_re_auprc] raises
    IndexError, whatever the labels (in range) are: the loop over the 30
    classes reaches a column that is not there. *)
Theorem klue_re_auprc_too_few_columns (probs : list (list Q)) (labels : list Z) (k : nat) :
  labels <> [] -> length probs = length labels ->
  Forall (fun l => -30 <= l < 30) labels ->
  Forall (fun row => length row = k) probs -> (k < 30)%nat ->
  klue_re_auprc probs labels = Raise IndexError.
Proof.
  intros Hne Hlen Hl Hrows Hk. rewrite (klue_re_auprc_wrapped probs labels Hl).
  assert (Hseq : seq 0 30 = seq 0 k ++ k :: seq (S k) (29 - k)).
  { replace 30%nat with (k + S (29 - k))%nat at 1 by lia. rewrite seq_app. reflexivity. }
  rewrite Hseq.
  rewrite (traverse_raise_first (class_area_wrapped probs labels) _ _ k IndexError);
    [reflexivity| |].
  - intros c Hc. apply in_seq in Hc. apply class_area_wrapped_returns; [assumption..|].
    eapply List.Forall_impl; [|exact Hrows]. simpl. intros row ->. lia.
  - unfold class_area_wrapped, np.take_column.
    destruct probs as [|row probs]; [destruct labels; [congruence|discriminate]|].
    rewrite traverse_cons. apply Forall_inv in Hrows.
    assert (E : nth_error row k = None) by (apply nth_error_None; lia).
    rewrite E. reflexivity.
Qed.

Lemma klue_re_auprc_too_few_columns_witness :
  klue_re_auprc [[1%Q; 0%Q]] [0] = Raise IndexError.
Proof.
  apply (klue_re_auprc_too_few_columns [[1%Q; 0%Q]] [0] 2).
  - discriminate.
  - reflexivity.
  - repeat constructor; lia.
  - repeat constructor.
  - lia.
Defined.

(** X20. On an empty batch, and on a batch whose number of score rows
    differs from the number of labels, [klue_re_auprc] raises ValueError
    (from [precision_recall_curve]). *)
Theorem klue_re_auprc_empty_or_misaligned (probs : list (list Q)) (labels : list Z) :
  Forall (fun l => -30 <= l < 30) labels ->
  Forall (fun row => length row = 30%nat) probs ->
  labels = [] \/ length probs <> length labels ->
  klue_re_auprc probs labels = Raise ValueError.
Proof.
  intros Hl Hrows H. rewrite (klue_re_auprc_wrapped probs labels Hl).
  change (seq 0 30) with (0%nat :: seq 1 29). rewrite traverse_cons.
  assert (E : class_area_wrapped probs labels 0 = Raise ValueError); [|rewrite E; reflexivity].
  unfold class_area_wrapped.
  destruct (take_column_rows probs 0) as (col & -> & Hcol).
  { eapply List.Forall_impl; [|exact Hrows]. simpl. intros row ->. lia. }
  cbn [mbind outcome_bind].
  unfold sklearn.precision_recall_curve, sklearn._binary_clf_curve,
    sklearn.check_consistent_length. rewrite length_map.
  destruct (Nat.eqb_spec (length labels) (length col)) as [Heq|Hne]; [|reflexivity].
  destruct H as [->|H]; [|congruence]. reflexivity.
Qed.

Lemma klue_re_auprc_empty_or_misaligned_witness :
  klue_re_auprc [one_hot 0; one_hot 1] [0] = Raise ValueError.
Proof.
  apply (klue_re_auprc_empty_or_misaligned [one_hot 0; one_hot 1] [0]).
  - repeat constructor; lia.
  - repeat constructor.
  - right. discriminate.
Defined.

(** ** AUPRC: the areas of the classes *)

Lemma positives_one_vs_rest (labels : list Z) (c : nat) :
  AuprcSpec.positives (AuprcSpec.one_vs_rest c labels) = count (fun l => l =? Z.of_nat c) labels.
Proof.
  unfold AuprcSpec.positives, AuprcSpec.one_vs_rest. rewrite count_map.
  apply count_ext. intros l _. destruct (l =? Z.of_nat c); reflexivity.
Qed.

Lemma count_zero_not_in (labels : list Z) (c : Z) :
  count (fun l => l =? c) labels = 0 <-> ~ In c labels.
Proof.
  split.
  - intros H Hin. pose proof (count_pos_exists (fun l => l =? c) labels) as Hpos.
    assert (0 < count (fun l => l =? c) labels); [|lia].
    apply Hpos. exists c. split; [exact Hin|apply Z.eqb_refl].
  - intros H. apply count_none. intros l Hl. destruct (Z.eqb_spec l c); [subst; contradiction|reflexivity].
Qed.

Lemma klue_re_auprc_areas (probs : list (list Q)) (labels : list Z) :
  Batch.well_formed probs labels ->
  exists areas,
    Forall2 (fun c a => AuprcSpec.class_area probs labels c = Return a) (seq 0 30) areas
    /\ klue_re_auprc probs labels = Return (Float.mul (AuprcSpec.mean30 areas) (Fin 100)).
Proof.
  intros [Hne Hlen Hl Hrows].
  assert (Hl' : Forall (fun l => -30 <= l < 30) labels).
  { eapply List.Forall_impl; [|exact Hl]. simpl. lia. }
  pose proof (klue_re_auprc_unfold probs labels Hl) as E.
  destruct (klue_re_auprc_returns probs labels Hne Hlen Hrows Hl') as (v & Ev).
  rewrite Ev in E. unfold AuprcSpec.mean_area in E.
  destruct (traverse (AuprcSpec.class_area probs labels) (seq 0 30)) as [areas|e] eqn:Ea;
    [|discriminate].
  exists areas. split; [apply traverse_Forall2, Ea|]. rewrite Ev. exact E.
Qed.

(** ** AUPRC: the range of the areas *)

Section Trapezoids.

Lemma diff_map_Fin (x : list Q) :
  np.diff Float.sub (map Fin x) = map Fin (np.diff Qminus x).
Proof.
  induction x as [|a [|b x] IH]; [reflexivity..|].
  change (map Fin (a :: b :: x)) with (Fin a :: Fin b :: map Fin x).
  rewrite !diff_cons2. simpl map. f_equal. exact IH.
Qed.

Lemma removelast_map {A B : Type} (f : A -> B) (l : list A) :
  removelast (map f l) = map f (removelast l).
Proof.
  induction l as [|a [|b l] IH]; [reflexivity..|].
  change (map f (a :: b :: l)) with (f a :: f b :: map f l).
  change (removelast (f a :: f b :: map f l)) with (f a :: removelast (f b :: map f l)).
  change (removelast (a :: b :: l)) with (a :: removelast (b :: l)).
  simpl map at 2. f_equal. exact IH.
Qed.

Lemma sum_map_Fin (l : list Q) :
  fold_right Float.add (Fin 0) (map Fin l) = Fin (fold_right Qplus 0%Q l).
Proof. induction l as [|a l IH]; [reflexivity|]. simpl. rewrite IH. reflexivity. Qed.

Lemma trapz_map_Fin (y x : list Q) :
  np.trapz (map Fin y) (map Fin x) = Fin (trapzQ y x).
Proof.
  unfold np.trapz, trapzQ. rewrite diff_map_Fin, removelast_map.
  replace (tl (map Fin y)) with (map Fin (tl y)) by (destruct y; reflexivity).
  rewrite <- sum_map_Fin. f_equal.
  generalize (np.diff Qminus x). generalize (removelast y). generalize (tl y).
  intros t r d. revert t r.
  induction d as [|a d IH]; intros [|b t] [|c r]; try reflexivity.
  change (combine (map Fin (b :: t)) (map Fin (c :: r)))
    with ((Fin b, Fin c) :: combine (map Fin t) (map Fin r)).
  change (combine (b :: t) (c :: r)) with ((b, c) :: combine t r).
  cbn [map combine]. f_equal. apply IH.
Qed.

Lemma trapzQ_cons2 (y0 y1 x0 x1 : Q) (y x : list Q) :
  trapzQ (y0 :: y1 :: y) (x0 :: x1 :: x)
  = ((x1 - x0) * (y1 + y0) / 2 + trapzQ (y1 :: y) (x1 :: x))%Q.
Proof. reflexivity. Qed.

(** Along a non-increasing abscissa and under ordinates between 0 and 1
    the trapezoidal sum lies between the total descent and 0. *)
Lemma trapzQ_descending (y x : list Q) :
  length y = length x ->
  Forall (fun v => (0 <= v <= 1)%Q) y ->
  Forall (fun d => (d <= 0)%Q) (np.diff Qminus x) ->
  (List.last x 0 - hd 0 x <= trapzQ y x <= 0)%Q.
Proof.
  revert y. induction x as [|x0 [|x1 x] IH]; intros y Hlen Hy Hd.
  - destruct y; [|discriminate]. unfold trapzQ. simpl. lra.
  - unfold trapzQ. simpl. lra.
  - destruct y as [|y0 [|y1 y]]; try discriminate.
    rewrite trapzQ_cons2. rewrite diff_cons2 in Hd.
    apply Forall_cons_iff in Hd as [Hd0 Hd]. apply Forall_cons_iff in Hy as [Hy0 Hy].
    specialize (IH (y1 :: y) ltac:(simpl in *; lia) Hy Hd).
    pose proof (Forall_inv Hy) as Hy1. cbn beta in Hy1, Hy0, Hd0.
    change (List.last (x0 :: x1 :: x) 0%Q) with (List.last (x1 :: x) 0%Q).
    change (hd 0%Q (x0 :: x1 :: x)) with x0. change (hd 0%Q (x1 :: x)) with x1 in IH.
    setoid_replace ((x1 - x0) * (y1 + y0) / 2)%Q
      with ((x1 - x0) * ((y1 + y0) * (1 # 2)))%Q using relation Qeq by field.
    pose proof (Qmult_le_0_compat (x0 - x1) ((y1 + y0) * (1 # 2)) ltac:(lra) ltac:(lra)) as H1.
    pose proof (Qmult_le_0_compat (x0 - x1) (1 - (y1 + y0) * (1 # 2)) ltac:(lra) ltac:(lra)) as H2.
    lra.
Qed.

Lemma trapzQ_ascending (y x : list Q) :
  length y = length x ->
  Forall (fun v => (0 <= v <= 1)%Q) y ->
  Forall (fun d => (0 <= d)%Q) (np.diff Qminus x) ->
  (0 <= trapzQ y x)%Q.
Proof.
  revert y. induction x as [|x0 [|x1 x] IH]; intros y Hlen Hy Hd.
  - unfold trapzQ. simpl. lra.
  - unfold trapzQ. simpl. lra.
  - destruct y as [|y0 [|y1 y]]; try discriminate.
    rewrite trapzQ_cons2. rewrite diff_cons2 in Hd.
    apply Forall_cons_iff in Hd as [Hd0 Hd]. apply Forall_cons_iff in Hy as [Hy0 Hy].
    specialize (IH (y1 :: y) ltac:(simpl in *; lia) Hy Hd).
    pose proof (Forall_inv Hy) as Hy1. cbn beta in Hy1, Hy0, Hd0.
    setoid_replace ((x1 - x0) * (y1 + y0) / 2)%Q
      with ((x1 - x0) * ((y1 + y0) * (1 # 2)))%Q using relation Qeq by field.
    pose proof (Qmult_le_0_compat (x1 - x0) ((y1 + y0) * (1 # 2)) ltac:(lra) ltac:(lra)) as H1.
    lra.
Qed.

(** The area that [auc] returns for a non-increasing abscissa: the
    trapezoidal sum with its sign turned. *)
Lemma auc_descending_value (x y : list Q) (a : float) :
  sklearn.auc (map Fin x) (map Fin y) = Return a ->
  Forall (fun v => (0 <= v <= 1)%Q) y ->
  Forall (fun d => (d <= 0)%Q) (np.diff Qminus x) ->
  exists q, a = Fin q /\ (q == - trapzQ y x)%Q /\ length y = length x.
Proof.
  unfold sklearn.auc, sklearn.check_consistent_length. rewrite !length_map.
  destruct (Nat.eqb_spec (length x) (length y)) as [Hlen|_]; [|discriminate].
  cbn [mbind outcome_bind]. destruct (length x <? 2)%nat; [discriminate|].
  rewrite diff_map_Fin, trapz_map_Fin. intros H Hy Hd.
  pose proof (trapzQ_descending y x (eq_sym Hlen) Hy Hd) as Hb.
  destruct (existsb _ _) eqn:Eex.
  - destruct (forallb _ _); [|discriminate]. cbn [mbind outcome_bind] in H.
    injection H as <-. eexists. split; [reflexivity|]. split; [ring|exact (eq_sym Hlen)].
  - cbn [mbind outcome_bind] in H. injection H as <-. eexists. split; [reflexivity|].
    assert (Hasc : Forall (fun d => (0 <= d)%Q) (np.diff Qminus x)).
    { apply List.Forall_forall. intros d Hin.
      destruct (Qlt_le_dec d 0) as [Hlt|Hle]; [|exact Hle]. exfalso.
      assert (Hex : existsb (fun d => Float.ltb d (Fin 0)) (map Fin (np.diff Qminus x)) = true).
      { apply existsb_exists. exists (Fin d). split; [apply in_map, Hin|].
        simpl. apply negb_true_iff. apply not_true_is_false. intros Hc.
        apply Qle_bool_iff in Hc. lra. }
      congruence. }
    pose proof (trapzQ_ascending y x (eq_sym Hlen) Hy Hasc).
    split; [lra|exact (eq_sym Hlen)].
Qed.

Lemma auc_descending (x y : list Q) (a : float) :
  sklearn.auc (map Fin x) (map Fin y) = Return a ->
  Forall (fun v => (0 <= v <= 1)%Q) y ->
  Forall (fun d => (d <= 0)%Q) (np.diff Qminus x) ->
  exists q, a = Fin q /\ (0 <= q <= hd 0 x - List.last x 0)%Q.
Proof.
  intros H Hy Hd. destruct (auc_descending_value x y a H Hy Hd) as (q & -> & Hq & Hlen).
  exists q. split; [reflexivity|]. pose proof (trapzQ_descending y x Hlen Hy Hd). lra.
Qed.

(** Under ordinates that are all 1 the trapezoidal sum is the total
    change of the abscissa. *)
Lemma trapzQ_unit (y x : list Q) :
  length y = length x ->
  Forall (fun v => (v == 1)%Q) y ->
  (trapzQ y x == List.last x 0 - hd 0 x)%Q.
Proof.
  revert y. induction x as [|x0 [|x1 x] IH]; intros y Hlen Hy.
  - unfold trapzQ. simpl. ring.
  - unfold trapzQ. simpl. ring.
  - destruct y as [|y0 [|y1 y]]; try discriminate.
    rewrite trapzQ_cons2.
    apply Forall_cons_iff in Hy as [Hy0 Hy].
    specialize (IH (y1 :: y) ltac:(simpl in *; lia) Hy).
    pose proof (Forall_inv Hy) as Hy1. cbn beta in Hy1, Hy0.
    change (List.last (x0 :: x1 :: x) 0%Q) with (List.last (x1 :: x) 0%Q).
    change (hd 0%Q (x0 :: x1 :: x)) with x0. change (hd 0%Q (x1 :: x)) with x1 in IH.
    rewrite IH, Hy0, Hy1. field.
Qed.

End Trapezoids.

Section CurveBounds.

Lemma count_le {A : Type} (p q : A -> bool) (l : list A) :
  (forall a, In a l -> p a = true -> q a = true) -> count p l <= count q l.
Proof.
  induction l as [|a l IH]; intros H; [reflexivity|].
  rewrite !count_cons. specialize (IH (fun b Hb => H b (or_intror Hb))).
  specialize (H a (or_introl eq_refl)).
  destruct (p a); [rewrite H by reflexivity; lia|destruct (q a); lia].
Qed.

Lemma count_combine_fst_le {A B : Type} (p : A -> bool) (l : list A) (l' : list B) :
  count (fun ab : A * B => p (fst ab)) (combine l l') <= count p l.
Proof.
  revert l'. induction l as [|a l IH]; intros [|b l']; try reflexivity.
  - apply count_nonneg.
  - simpl combine. rewrite !count_cons. specialize (IH l'). simpl fst. lia.
Qed.

Lemma true_positives_at_le_positives (y s : list Q) (t : Q) :
  AuprcSpec.true_positives_at y s t <= AuprcSpec.positives y.
Proof.
  unfold AuprcSpec.true_positives_at, AuprcSpec.positives.
  etransitivity; [|apply (count_combine_fst_le AuprcSpec.is_positive y s)].
  apply count_le. intros a _ H. apply andb_true_iff in H as [H _]. exact H.
Qed.

Lemma true_positives_at_antitone (y s : list Q) (t t' : Q) :
  (t <= t')%Q -> AuprcSpec.true_positives_at y s t' <= AuprcSpec.true_positives_at y s t.
Proof.
  intros Ht. apply count_le. intros a _ H. apply andb_true_iff in H as [H1 H2].
  rewrite H1. unfold AuprcSpec.reached in *. apply Qle_bool_iff in H2.
  apply Qle_bool_iff. apply (Qle_trans _ _ _ Ht H2).
Qed.

Lemma ratio_le_1 (a b : Z) : 0 <= a -> a <= b -> (Spec.ratio a b <= 1)%Q.
Proof.
  intros Ha Hb. unfold Spec.ratio. destruct (Z.eqb_spec b 0); [discriminate|].
  apply Qle_shift_div_r.
  - replace 0%Q with (inject_Z 0) by reflexivity. rewrite <- Zlt_Qlt. lia.
  - rewrite Qmult_1_l. rewrite <- Zle_Qle. exact Hb.
Qed.

Lemma ratio_antitone (a a' b : Z) : 0 < b -> a <= a' -> (Spec.ratio a b <= Spec.ratio a' b)%Q.
Proof.
  intros Hb Ha. unfold Spec.ratio. destruct (Z.eqb_spec b 0); [lia|].
  unfold Qdiv. apply Qmult_le_compat_r; [rewrite <- Zle_Qle; exact Ha|].
  apply Qinv_le_0_compat. replace 0%Q with (inject_Z 0) by reflexivity.
  rewrite <- Zle_Qle. lia.
Qed.

Lemma recall_at_ratio (y s : list Q) (t : Q) :
  AuprcSpec.positives y <> 0 ->
  AuprcSpec.recall_at y s t = Fin (recall_of y s t).
Proof.
  intros H. unfold AuprcSpec.recall_at, recall_of, Float.of_Z, Float.div, Spec.ratio.
  rewrite Qeq_bool_inject_Z. destruct (Z.eqb_spec (AuprcSpec.positives y) 0); [contradiction|].
  reflexivity.
Qed.

Lemma Forall2_eqv_unFin (l : list float) (qs : list Q) :
  Forall2 Float.eqv l (map Fin qs) ->
  l = map Fin (map unFin l) /\ Forall2 Qeq (map unFin l) qs.
Proof.
  revert l. induction qs as [|q qs IH]; intros l H; inversion H as [|v ? l' ? Hv Hl]; subst.
  - split; constructor.
  - destruct (IH l' Hl) as [E Hq]. destruct v as [q'|]; [|contradiction].
    split; [simpl; rewrite <- E; reflexivity|constructor; [exact Hv|exact Hq]].
Qed.

Lemma Forall_Qeq (P : Q -> Prop) (a b : list Q) :
  (forall x x', (x == x')%Q -> P x' -> P x) ->
  Forall2 Qeq a b -> Forall P b -> Forall P a.
Proof.
  intros HP. induction 1 as [|x x' a b Hx _ IH]; intros H; [constructor|].
  inversion H; subst. constructor; [apply (HP x x' Hx); assumption|apply IH; assumption].
Qed.

Lemma diff_Qeq (a b : list Q) :
  Forall2 Qeq a b -> Forall2 Qeq (np.diff Qminus a) (np.diff Qminus b).
Proof.
  induction 1 as [|x x' a b Hx Hab IH]; [constructor|].
  destruct Hab as [|z z' a b Hz Hab]; [constructor|].
  rewrite !diff_cons2. constructor; [rewrite Hx, Hz; reflexivity|exact IH].
Qed.

(** The steps of an antitone function along increasing thresholds, closed
    by 0, never go up. *)
Lemma diff_antitone (f : Q -> Q) (ths : list Q) :
  StronglySorted Qlt ths ->
  (forall t t', (t <= t')%Q -> (f t' <= f t)%Q) ->
  (forall t, (0 <= f t)%Q) ->
  Forall (fun d => (d <= 0)%Q) (np.diff Qminus (map f ths ++ [0%Q])).
Proof.
  intros Hs Hf H0. induction Hs as [|t ths Hs IH Ht]; [constructor|].
  destruct ths as [|t' ths].
  - simpl. constructor; [|constructor]. specialize (H0 t). lra.
  - change (map f (t :: t' :: ths) ++ [0%Q]) with (f t :: f t' :: (map f ths ++ [0%Q])).
    rewrite diff_cons2. constructor; [|exact IH].
    apply Forall_inv in Ht. specialize (Hf t t' (Qlt_le_weak _ _ Ht)). lra.
Qed.

Lemma descent_le_1 (x : list Q) :
  Forall (fun v => (0 <= v <= 1)%Q) x -> (hd 0 x - List.last x 0 <= 1)%Q.
Proof.
  intros H. assert (Hh : (0 <= hd 0 x <= 1)%Q) by (destruct H; simpl; lra).
  assert (Hl : (0 <= List.last x 0 <= 1)%Q).
  { clear Hh. induction H as [|a [|b x] Ha _ IH]; [simpl; lra|simpl; lra|].
    change (List.last (a :: b :: x) 0%Q) with (List.last (b :: x) 0%Q). exact IH. }
  lra.
Qed.

(** The curve in rationals: its points are those of the swept thresholds,
    in the unit square, with recall that never goes up. *)
Lemma curve_in_rationals (y s : list Q) (p r : list float) (ths : list Q) :
  sklearn.precision_recall_curve y s = Return (p, r, ths) ->
  AuprcSpec.positives y <> 0 ->
  exists pq rq,
    p = map Fin pq /\ r = map Fin rq
    /\ Forall2 Qeq pq (map (precision_of y s) ths ++ [1%Q])
    /\ Forall2 Qeq rq (map (recall_of y s) ths ++ [0%Q])
    /\ Forall (fun v => (0 <= v <= 1)%Q) pq
    /\ Forall (fun v => (0 <= v <= 1)%Q) rq
    /\ Forall (fun d => (d <= 0)%Q) (np.diff Qminus rq).
Proof.
  intros Ec Hpos.
  destruct (precision_recall_curve_swept _ _ _ _ _ Ec) as (_ & Hs & Hp & Hr).
  assert (HP : 0 < AuprcSpec.positives y).
  { pose proof (count_nonneg AuprcSpec.is_positive y). unfold AuprcSpec.positives in *. lia. }
  assert (Er : map (AuprcSpec.recall_at y s) ths ++ [Fin 0]
               = map Fin (map (recall_of y s) ths ++ [0%Q])).
  { rewrite map_app, map_map. f_equal. apply map_ext. intros t. apply recall_at_ratio, Hpos. }
  assert (Ep : map (AuprcSpec.precision_at y s) ths ++ [Fin 1]
               = map Fin (map (precision_of y s) ths ++ [1%Q])).
  { rewrite map_app, map_map. reflexivity. }
  rewrite Er in Hr. rewrite Ep in Hp.
  destruct (Forall2_eqv_unFin _ _ Hr) as [Err Hrq].
  destruct (Forall2_eqv_unFin _ _ Hp) as [Epp Hpq].
  assert (Hrf : forall t, (0 <= recall_of y s t <= 1)%Q).
  { intros t. unfold recall_of. pose proof (true_positives_at_le_positives y s t).
    pose proof (count_nonneg (fun ys : Q * Q => AuprcSpec.is_positive (fst ys)
                                                && AuprcSpec.reached t (snd ys)) (combine y s)) as H0.
    fold (AuprcSpec.true_positives_at y s t) in H0.
    split; [apply ratio_nonneg; lia|apply ratio_le_1; lia]. }
  assert (Hpf : forall t, (0 <= precision_of y s t <= 1)%Q).
  { intros t. unfold precision_of.
    pose proof (count_nonneg (fun ys : Q * Q => AuprcSpec.is_positive (fst ys)
                                                && AuprcSpec.reached t (snd ys)) (combine y s)) as H0.
    pose proof (count_nonneg (fun ys : Q * Q => negb (AuprcSpec.is_positive (fst ys))
                                                && AuprcSpec.reached t (snd ys)) (combine y s)) as H1.
    fold (AuprcSpec.true_positives_at y s t) in H0.
    fold (AuprcSpec.false_positives_at y s t) in H1.
    split; [apply ratio_nonneg; lia|apply ratio_le_1; lia]. }
  assert (Hunit : forall (f : Q -> Q) (e : Q), (forall t, (0 <= f t <= 1)%Q) -> (0 <= e <= 1)%Q ->
                  Forall (fun v => (0 <= v <= 1)%Q) (map f ths ++ [e])).
  { intros f e Hf He. apply Forall_app. split; [|repeat constructor; apply He].
    apply List.Forall_forall. intros v Hv. apply in_map_iff in Hv as (t & <- & _). apply Hf. }
  exists (map unFin p), (map unFin r).
  split; [exact Epp|]. split; [exact Err|]. split; [exact Hpq|]. split; [exact Hrq|].
  split; [|split].
  - apply (Forall_Qeq (fun v => (0 <= v <= 1)%Q) _ _
             ltac:(intros x x' E H; cbn beta in *; lra) Hpq).
    apply Hunit; [exact Hpf|lra].
  - apply (Forall_Qeq (fun v => (0 <= v <= 1)%Q) _ _
             ltac:(intros x x' E H; cbn beta in *; lra) Hrq).
    apply Hunit; [exact Hrf|lra].
  - apply (Forall_Qeq (fun d => (d <= 0)%Q) _ _
             ltac:(intros x x' E H; cbn beta in *; lra) (diff_Qeq _ _ Hrq)).
    apply diff_antitone; [exact Hs| |apply Hrf].
    intros t t' Ht. apply ratio_antitone; [exact HP|apply true_positives_at_antitone, Ht].
Qed.

(** The area under a precision-recall curve with a positive example is a
    number between 0 and 1. *)
Lemma curve_area_bounds (y s : list Q) (p r : list float) (ths : list Q) (a : float) :
  sklearn.precision_recall_curve y s = Return (p, r, ths) ->
  sklearn.auc r p = Return a ->
  AuprcSpec.positives y <> 0 ->
  exists q, a = Fin q /\ (0 <= q <= 1)%Q.
Proof.
  intros Ec Ea Hpos.
  destruct (curve_in_rationals _ _ _ _ _ Ec Hpos) as (pq & rq & -> & -> & _ & _ & Hy & Hx & Hd).
  destruct (auc_descending _ _ _ Ea Hy Hd) as (q & -> & Hq).
  exists q. split; [reflexivity|]. pose proof (descent_le_1 _ Hx). lra.
Qed.

Lemma class_area_bounds (probs : list (list Q)) (labels : list Z) (c : nat) (a : float) :
  AuprcSpec.class_area probs labels c = Return a ->
  class_present labels c ->
  exists q, a = Fin q /\ (0 <= q <= 1)%Q.
Proof.
  unfold AuprcSpec.class_area. intros H Hc.
  destruct (np.take_column probs c) as [scores|e]; [|discriminate].
  cbn [mbind outcome_bind] in H.
  destruct (sklearn.precision_recall_curve _ scores) as [[[p r] ths]|e] eqn:E; [|discriminate].
  cbn [mbind outcome_bind] in H.
  apply (curve_area_bounds _ _ _ _ _ _ E H).
  rewrite positives_one_vs_rest, count_zero_not_in. unfold class_present in Hc. tauto.
Qed.

Lemma sum_bounds (qs : list Q) :
  Forall (fun v => (0 <= v <= 1)%Q) qs ->
  (0 <= fold_right Qplus 0 qs <= inject_Z (Z.of_nat (length qs)))%Q.
Proof.
  induction 1 as [|q qs Hq _ IH].
  { change (0 <= 0 <= 0)%Q. lra. }
  cbn [fold_right length]. rewrite Nat2Z.inj_succ, <- Z.add_1_r, inject_Z_plus.
  change (inject_Z 1) with 1%Q. cbn beta in Hq. lra.
Qed.

End CurveBounds.

(** X22. On a well-formed batch in which every one of the 30 classes
    occurs [klue_re_auprc] returns a number between 0 and 100. *)
Theorem klue_re_auprc_bounds (probs : list (list Q)) (labels : list Z) :
  Batch.well_formed probs labels ->
  (forall c, (c < 30)%nat -> class_present labels c) ->
  exists v, klue_re_auprc probs labels = Return (Fin v) /\ (0 <= v <= 100)%Q.
Proof.
  intros Hwf Hall. destruct (klue_re_auprc_areas probs labels Hwf) as (areas & Hareas & ->).
  assert (Hb : exists qs, areas = map Fin qs /\ Forall (fun v => (0 <= v <= 1)%Q) qs).
  { assert (Hin : forall c, In c (seq 0 30) -> class_present labels c)
      by (intros c Hc; apply in_seq in Hc; apply Hall; lia).
    clear -Hareas Hin. induction Hareas as [|c a cs areas Hc _ IH].
    - exists []. split; constructor.
    - destruct IH as (qs & -> & Hqs); [intros c' Hc'; apply Hin; right; exact Hc'|].
      destruct (class_area_bounds _ _ _ _ Hc (Hin c (or_introl eq_refl))) as (q & -> & Hq).
      exists (q :: qs). split; [reflexivity|constructor; assumption]. }
  destruct Hb as (qs & -> & Hqs).
  assert (Hlen : length qs = 30%nat).
  { apply Forall2_length in Hareas. rewrite length_seq, length_map in Hareas. lia. }
  pose proof (sum_bounds qs Hqs) as Hsum. rewrite Hlen in Hsum.
  unfold AuprcSpec.mean30. rewrite sum_map_Fin.
  eexists. split; [reflexivity|].
  change (inject_Z (Z.of_nat 30)) with 30%Q in Hsum.
  set (S := fold_right Qplus 0%Q qs) in *.
  setoid_replace (S / 30 * 100)%Q with (S * (10 # 3))%Q using relation Qeq by field.
  lra.
Qed.

Lemma klue_re_auprc_bounds_witness :
  exists v, klue_re_auprc identity_probs identity_labels = Return (Fin v) /\ (0 <= v <= 100)%Q.
Proof.
  apply (klue_re_auprc_bounds identity_probs identity_labels).
  - constructor; [discriminate|reflexivity| |].
    + apply List.Forall_forall. intros l Hl. apply in_map_iff in Hl as (c & <- & Hc).
      apply in_seq in Hc. lia.
    + apply List.Forall_forall. intros row Hrow. apply in_map_iff in Hrow as (c & <- & _).
      reflexivity.
  - intros c Hc. apply in_map. apply in_seq. lia.
Defined.

(** ** AUPRC: where the curve is cut *)

Section Truncation.

Lemma searchsorted_first (a : list Q) (v : Q) :
  Exists (fun x => (v <= x)%Q) a ->
  (np.searchsorted a v < length a)%nat
  /\ (v <= nth (np.searchsorted a v) a 0)%Q
  /\ forall j, (j < np.searchsorted a v)%nat -> (nth j a 0 < v)%Q.
Proof.
  induction a as [|x a IH]; intros H; [inversion H|].
  cbn [np.searchsorted]. destruct (Qle_bool v x) eqn:E.
  - apply Qle_bool_iff in E. repeat split; [simpl; lia|exact E|intros j Hj; lia].
  - assert (Hlt : (x < v)%Q).
    { apply Qnot_le_lt. intros Hc. apply Qle_bool_iff in Hc. congruence. }
    destruct IH as (Hk & Hv & Hmin).
    { inversion H as [? ? Hx|? ? Hx]; subst; [lra|exact Hx]. }
    repeat split; [simpl; lia|exact Hv|].
    intros [|j] Hj; [exact Hlt|]. apply Hmin. lia.
Qed.

Lemma where_from_complete (x : list Q) (a j : nat) :
  (j < length x)%nat -> Qeq_bool (nth j x 0%Q) 0 = false -> In (a + j)%nat (np.where_from a x).
Proof.
  revert a j. induction x as [|v x IH]; intros a j Hj E; [simpl in Hj; lia|].
  cbn [np.where_from]. destruct j as [|j].
  - simpl in E. rewrite E, Nat.add_0_r. left. reflexivity.
  - replace (a + S j)%nat with (S a + j)%nat by lia.
    specialize (IH (S a) j ltac:(simpl in Hj; lia) E).
    destruct (Qeq_bool v 0); [exact IH|right; exact IH].
Qed.

Context {A : Type}.

(** Every end of a run of equal scores is one of the threshold positions. *)
Lemma run_end_threshold_idx (S : list (Q * A)) (i : nat) :
  run_end S i ->
  In i (np.where_ (np.diff Qminus (map fst S)) ++ [(length (map snd S) - 1)%nat]).
Proof.
  intros (l1 & x & l2 & -> & <- & Hl2). apply in_or_app. destruct l2 as [|w l2].
  - right. left. rewrite length_map, length_app. simpl. lia.
  - left. apply (where_from_complete _ 0 (length l1)).
    + rewrite diff_length, length_map, length_app. simpl. lia.
    + rewrite diff_nth by (rewrite length_map, length_app; simpl; lia).
      rewrite nth_score.
      replace (l1 ++ x :: w :: l2) with ((l1 ++ [x]) ++ w :: l2) by (rewrite <- app_assoc; reflexivity).
      replace (Datatypes.S (length l1)) with (length (l1 ++ [x])) by (rewrite length_app; simpl; lia).
      rewrite nth_score. apply Forall_inv in Hl2.
      apply not_true_is_false. intros Hc. apply Qeq_bool_iff in Hc. lra.
Qed.

(** Every score ends a run somewhere. *)
Lemma run_end_exists (S : list (Q * A)) (x : Q * A) :
  descending S -> In x S ->
  exists i, run_end S i /\ (nth i (map fst S) 0 == fst x)%Q.
Proof.
  intros Hd. revert x. induction Hd as [|a S Hd IH Ha]; intros x Hx; [destruct Hx|].
  assert (Hlift : forall z, In z S -> (fst z == fst x)%Q ->
                  exists i, run_end (a :: S) i /\ (nth i (map fst (a :: S)) 0 == fst x)%Q).
  { intros z Hz Ez. destruct (IH z Hz) as (i & (l1 & w & l2 & E & Hi & Hl2) & Hn).
    exists (Datatypes.S i). split.
    - exists (a :: l1), w, l2. rewrite E. repeat split; [simpl; lia|exact Hl2].
    - simpl. rewrite Hn. exact Ez. }
  destruct (List.Exists_dec (fun z => (fst z == fst a)%Q) S) as [Hex|Hno].
  { intros z. apply Qeq_dec. }
  - apply List.Exists_exists in Hex as (z & Hz & Ez).
    destruct Hx as [<-|Hx]; [apply (Hlift z Hz Ez)|].
    apply (Hlift x Hx). reflexivity.
  - destruct Hx as [<-|Hx]; [|apply (Hlift x Hx); reflexivity].
    exists 0%nat. split; [|reflexivity].
    exists [], a, S. repeat split. apply List.Forall_forall. intros z Hz.
    rewrite List.Forall_forall in Ha. specialize (Ha z Hz).
    destruct (Qeq_dec (fst z) (fst a)) as [E|E].
    + exfalso. apply Hno. apply List.Exists_exists. exists z. split; assumption.
    + apply Qle_lteq in Ha as [Hlt|Heq]; [exact Hlt|contradiction].
Qed.

Lemma sorted_nth_le (l : list nat) (k j : nat) :
  StronglySorted lt l -> (k <= j < length l)%nat -> (nth k l 0 <= nth j l 0)%nat.
Proof.
  intros Hs. revert k j. induction Hs as [|a l Hs IH Ha]; intros k j H; [simpl in H; lia|].
  destruct k as [|k]; destruct j as [|j]; try lia.
  - simpl. rewrite List.Forall_forall in Ha.
    assert (a < nth j l 0)%nat; [|lia]. apply Ha, nth_In. simpl in H. lia.
  - simpl. apply IH. simpl in H. lia.
Qed.

Lemma sorted_nth_lt (l : list nat) (k j : nat) :
  StronglySorted lt l -> (k < j < length l)%nat -> (nth k l 0 < nth j l 0)%nat.
Proof.
  intros Hs. revert k j. induction Hs as [|a l Hs IH Ha]; intros k j H; [simpl in H; lia|].
  destruct k as [|k]; destruct j as [|j]; try lia.
  - simpl. rewrite List.Forall_forall in Ha. apply Ha, nth_In. simpl in H. lia.
  - simpl. apply IH. simpl in H. lia.
Qed.

Lemma nth_In_firstn {B : Type} (l : list B) (j k : nat) (d : B) :
  (j < k)%nat -> (j < length l)%nat -> In (nth j l d) (firstn k l).
Proof.
  revert j k. induction l as [|a l IH]; intros j k Hjk Hj; [simpl in Hj; lia|].
  destruct k as [|k]; [lia|]. destruct j as [|j]; [left; reflexivity|].
  right. apply IH; [lia|simpl in Hj; lia].
Qed.

Lemma firstn_succ {B : Type} (l : list B) (k : nat) (d : B) :
  (k < length l)%nat -> firstn (S k) l = firstn k l ++ [nth k l d].
Proof.
  revert k. induction l as [|a l IH]; intros k Hk; [simpl in Hk; lia|].
  destruct k as [|k]; [reflexivity|].
  change (firstn (S (S k)) (a :: l)) with (a :: firstn (S k) l).
  rewrite (IH k) by (simpl in Hk; lia). reflexivity.
Qed.

Lemma in_combine_fst {B C : Type} (l : list B) (l' : list C) (v : B) :
  length l = length l' -> In v l -> exists b, In (v, b) (combine l l').
Proof.
  revert l'. induction l as [|a l IH]; intros [|b l'] Hlen Hv; try discriminate; [destruct Hv|].
  destruct Hv as [->|Hv]; [exists b; left; reflexivity|].
  destruct (IH l' ltac:(simpl in Hlen; lia) Hv) as (b' & Hb'). exists b'. right. exact Hb'.
Qed.

End Truncation.

Lemma true_positives_at_Qeq (y s : list Q) (t t' : Q) :
  (t == t')%Q -> AuprcSpec.true_positives_at y s t = AuprcSpec.true_positives_at y s t'.
Proof.
  intros E. apply Z.le_antisymm; apply true_positives_at_antitone; lra.
Qed.

(** The lowest threshold that [precision_recall_curve] keeps is the largest
    score that reaches every positive example, and no score from there on
    is skipped. *)
Lemma precision_recall_curve_truncated (y s : list Q) (p r : list float) (ths : list Q) :
  sklearn.precision_recall_curve y s = Return (p, r, ths) ->
  exists t0 rest,
    ths = t0 :: rest
    /\ AuprcSpec.true_positives_at y s t0 = AuprcSpec.positives y
    /\ (forall v, In v s -> AuprcSpec.true_positives_at y s v = AuprcSpec.positives y ->
                  (v <= t0)%Q)
    /\ (forall v, In v s -> (t0 <= v)%Q -> exists t, In t (t0 :: rest) /\ (t == v)%Q).
Proof.
  unfold sklearn.precision_recall_curve, sklearn._binary_clf_curve,
    sklearn.check_consistent_length, sklearn._check_pos_label_consistency.
  destruct (Nat.eqb_spec (length y) (length s)) as [Hlen|_]; [|discriminate].
  cbn [mbind outcome_bind].
  destruct y as [|v0 y0]; [discriminate|]. set (y := v0 :: y0) in *.
  destruct (existsb _ _); [|discriminate]. cbn [mbind outcome_bind].
  change (map (fun t => Qeq_bool t 1) y) with (map AuprcSpec.is_positive y).
  set (samples := rev (np.sort_by_score (combine s (map AuprcSpec.is_positive y)))).
  destruct (sorted_samples (combine s (map AuprcSpec.is_positive y))) as [Hdesc Hperm].
  fold samples in Hdesc, Hperm.
  assert (Hn : length samples = length y).
  { rewrite (Permutation_length Hperm), length_combine, length_map. lia. }
  assert (Hne : samples <> []) by (intros E; rewrite E in Hn; discriminate).
  set (scores := map fst samples).
  set (cs := np.cumsum (map (fun b : bool => if b then 1%Q else 0%Q) (map snd samples))).
  set (idxs := np.where_ (np.diff Qminus scores) ++ [(length (map snd samples) - 1)%nat]).
  pose proof (threshold_idxs_run_ends samples Hdesc Hne) as Hends. fold scores idxs in Hends.
  destruct (threshold_idxs_sorted (np.diff Qminus scores) (length (map snd samples)))
    as [Hsorted Hbound].
  { unfold scores. rewrite diff_length, !length_map. reflexivity. }
  { rewrite length_map, Hn. simpl. lia. }
  fold idxs in Hsorted, Hbound. rewrite length_map in Hbound.
  unfold np.getitem.
  set (tps := map (fun i => nth i cs 0%Q) idxs).
  set (T := List.last tps 0%Q). set (k := np.searchsorted tps T).
  rewrite !slice_down_map.
  intros H. injection H as _ _ <-.
  assert (Hpoint := fun i Hi => run_end_point y s samples Hdesc Hperm i Hi).
  fold scores cs in Hpoint.
  assert (HT : (T == inject_Z (AuprcSpec.positives y))%Q).
  { unfold T, tps, idxs. rewrite map_app. simpl map. rewrite last_last.
    unfold cs, np.cumsum. rewrite cumsum_count by (rewrite !length_map, Hn; simpl; lia).
    rewrite length_map.
    replace (S (length samples - 1)) with (length (map snd samples))
      by (rewrite length_map, Hn; simpl; lia).
    rewrite firstn_all, count_map, (count_perm _ _ _ Hperm), count_samples_positive by exact Hlen.
    ring. }
  destruct (searchsorted_first tps T) as (Hk & HkT & Hmin).
  { apply List.Exists_exists. exists T. split; [|apply Qle_refl].
    unfold T, tps, idxs. rewrite map_app. simpl map. rewrite last_last.
    apply in_or_app. right. left. reflexivity. }
  fold k in Hk, HkT, Hmin. unfold tps in Hk. rewrite length_map in Hk.
  assert (Htps : forall j, (j < length idxs)%nat -> nth j tps 0%Q = nth (nth j idxs 0%nat) cs 0%Q).
  { intros j Hj. unfold tps.
    rewrite (nth_indep _ 0%Q (nth 0%nat cs 0%Q)) by (rewrite length_map; exact Hj).
    apply (map_nth (fun i => nth i cs 0%Q)). }
  set (i0 := nth k idxs 0%nat).
  assert (Hi0 : In i0 idxs) by (apply nth_In, Hk).
  assert (Hrun0 : run_end samples i0) by (rewrite List.Forall_forall in Hends; apply Hends, Hi0).
  destruct (Hpoint i0 Hrun0) as (_ & Htp0 & _).
  assert (Hsample : forall v, In v s -> exists b, In (v, b) samples).
  { intros v Hv. destruct (in_combine_fst s (map AuprcSpec.is_positive y) v) as (b & Hin);
      [rewrite length_map; lia|exact Hv|].
    exists b. apply (Permutation_in _ (Permutation_sym Hperm) Hin). }
  exists (nth i0 scores 0%Q), (map (fun i => nth i scores 0%Q) (rev (firstn k idxs))).
  split; [|split; [|split]].
  - unfold np.slice_down.
    rewrite (firstn_succ idxs k 0%nat) by exact Hk.
    rewrite rev_app_distr. reflexivity.
  - apply Z.le_antisymm; [apply true_positives_at_le_positives|].
    rewrite Zle_Qle, <- Htp0, <- HT. rewrite Htps in HkT by exact Hk. exact HkT.
  - intros v Hv Hfull.
    destruct (Hsample v Hv) as (b & Hb).
    destruct (run_end_exists samples (v, b) Hdesc Hb) as (i & Hrun & Ei).
    fold scores in Ei. simpl fst in Ei.
    pose proof (run_end_threshold_idx samples i Hrun) as Hidx. fold scores idxs in Hidx.
    apply (In_nth _ _ 0%nat) in Hidx as (j & Hj & Ej).
    destruct (Hpoint i Hrun) as (_ & Htp & _).
    assert (Hkj : (k <= j)%nat).
    { destruct (le_lt_dec k j) as [Hle|Hlt]; [exact Hle|]. exfalso.
      specialize (Hmin j Hlt). rewrite Htps, Ej, Htp, HT in Hmin by exact Hj.
      rewrite (true_positives_at_Qeq y s _ v Ei), Hfull in Hmin. lra. }
    pose proof (sorted_nth_le idxs k j Hsorted (conj Hkj Hj)) as Hle.
    fold i0 in Hle. rewrite Ej in Hle.
    destruct (Nat.eq_dec i0 i) as [->|Hneq]; [lra|].
    assert (Hlt : (nth i scores 0 < nth i0 scores 0)%Q).
    { apply (run_ends_decrease samples i0 i Hrun0). split; [lia|].
      rewrite List.Forall_forall in Hbound. specialize (Hbound i).
      rewrite Hn. rewrite Hn in Hbound. apply Hbound. rewrite <- Ej. apply nth_In, Hj. }
    lra.
  - intros v Hv Hge.
    destruct (Hsample v Hv) as (b & Hb).
    destruct (run_end_exists samples (v, b) Hdesc Hb) as (i & Hrun & Ei).
    fold scores in Ei. simpl fst in Ei.
    pose proof (run_end_threshold_idx samples i Hrun) as Hidx. fold scores idxs in Hidx.
    apply (In_nth _ _ 0%nat) in Hidx as (j & Hj & Ej).
    exists (nth i scores 0%Q). split; [|exact Ei].
    destruct (lt_eq_lt_dec j k) as [[Hlt|Heq]|Hgt].
    + right. apply in_map_iff. exists i. split; [reflexivity|].
      apply in_rev. rewrite rev_involutive. rewrite <- Ej. apply nth_In_firstn; assumption.
    + left. unfold i0. rewrite <- Heq, Ej. reflexivity.
    + exfalso. pose proof (sorted_nth_lt idxs k j Hsorted (conj Hgt Hj)) as Hlt.
      fold i0 in Hlt. rewrite Ej in Hlt.
      assert (Hdec : (nth i scores 0 < nth i0 scores 0)%Q).
      { apply (run_ends_decrease samples i0 i Hrun0). split; [exact Hlt|].
        rewrite List.Forall_forall in Hbound. specialize (Hbound i).
        rewrite Hn. rewrite Hn in Hbound. apply Hbound. rewrite <- Ej. apply nth_In, Hj. }
      lra.
Qed.

(** ** AUPRC: scores that rank every class first *)

Section Separation.

Lemma ranks_class_first_check (probs : list (list Q)) (labels : list Z) (c : nat) :
  ranks_class_firstb probs labels c = true -> ranks_class_first probs labels c.
Proof.
  unfold ranks_class_firstb, ranks_class_first. intros H l row l' row' Hin Hin' -> Hne.
  rewrite forallb_forall in H. specialize (H _ Hin). rewrite forallb_forall in H.
  specialize (H _ Hin'). cbn [fst snd] in H. rewrite Z.eqb_refl in H.
  destruct (Z.eqb_spec l' (Z.of_nat c)); [contradiction|]. simpl in H.
  apply negb_true_iff in H. apply Qnot_le_lt. intros Hc. apply Qle_bool_iff in Hc. congruence.
Qed.

Lemma count_combine_fst {A B : Type} (p : A -> bool) (l : list A) (l' : list B) :
  length l = length l' ->
  count (fun ab : A * B => p (fst ab)) (combine l l') = count p l.
Proof.
  revert l'. induction l as [|a l IH]; intros [|b l'] H; try discriminate; [reflexivity|].
  simpl combine. rewrite !count_cons, IH by (simpl in H; lia). reflexivity.
Qed.

Lemma in_combine_snd {B C : Type} (l : list B) (l' : list C) (v : C) :
  length l = length l' -> In v l' -> exists b, In (b, v) (combine l l').
Proof.
  revert l'. induction l as [|a l IH]; intros [|b l'] Hlen Hv; try discriminate; [destruct Hv|].
  destruct Hv as [->|Hv]; [exists a; left; reflexivity|].
  destruct (IH l' ltac:(simpl in Hlen; lia) Hv) as (b' & Hb'). exists b'. right. exact Hb'.
Qed.

(** A lowest-scored positive example. *)
Lemma lowest_positive (L : list (Q * Q)) :
  (exists x, In x L /\ AuprcSpec.is_positive (fst x) = true) ->
  exists m, In m L /\ AuprcSpec.is_positive (fst m) = true
            /\ forall x, In x L -> AuprcSpec.is_positive (fst x) = true -> (snd m <= snd x)%Q.
Proof.
  induction L as [|a L IH]; intros (x & Hx & Hp); [destruct Hx|].
  destruct (List.Exists_dec (fun z => AuprcSpec.is_positive (fst z) = true) L) as [Hex|Hno].
  { intros z. destruct (AuprcSpec.is_positive (fst z)); [left; reflexivity|right; discriminate]. }
  - apply List.Exists_exists in Hex. destruct (IH Hex) as (m & Hm & Hpm & Hmin).
    destruct (AuprcSpec.is_positive (fst a)) eqn:Ea.
    + destruct (Qlt_le_dec (snd a) (snd m)) as [Hlt|Hle].
      * exists a. split; [left; reflexivity|]. split; [exact Ea|].
        intros z [<-|Hz] Hpz; [apply Qle_refl|]. specialize (Hmin z Hz Hpz). lra.
      * exists m. split; [right; exact Hm|]. split; [exact Hpm|].
        intros z [<-|Hz] Hpz; [exact Hle|apply (Hmin z Hz Hpz)].
    + exists m. split; [right; exact Hm|]. split; [exact Hpm|].
      intros z [<-|Hz] Hpz; [congruence|apply (Hmin z Hz Hpz)].
  - destruct Hx as [<-|Hx].
    + exists a. split; [left; reflexivity|]. split; [exact Hp|].
      intros z [<-|Hz] Hpz; [apply Qle_refl|].
      exfalso. apply Hno. apply List.Exists_exists. exists z. split; assumption.
    + exfalso. apply Hno. apply List.Exists_exists. exists x. split; assumption.
Qed.

Lemma curve_lengths (y s : list Q) (p r : list float) (ths : list Q) :
  sklearn.precision_recall_curve y s = Return (p, r, ths) -> length y = length s.
Proof.
  unfold sklearn.precision_recall_curve, sklearn._binary_clf_curve,
    sklearn.check_consistent_length.
  destruct (Nat.eqb_spec (length y) (length s)) as [Hlen|_]; [intros _; exact Hlen|discriminate].
Qed.

Lemma Forall2_Qeq_ends (a b : list Q) :
  Forall2 Qeq a b -> (hd 0 a == hd 0 b)%Q /\ (List.last a 0 == List.last b 0)%Q.
Proof.
  intros H. split; [destruct H; [reflexivity|assumption]|].
  induction H as [|x x' a b Hx Hab IH]; [reflexivity|].
  destruct Hab as [|z z' a b Hz Hab]; [exact Hx|]. exact IH.
Qed.

(** When the scores separate the positive examples from the others the
    curve never leaves precision 1 and its area is 1. *)
Lemma curve_area_separated (y s : list Q) (p r : list float) (ths : list Q) (a : float) :
  sklearn.precision_recall_curve y s = Return (p, r, ths) ->
  sklearn.auc r p = Return a ->
  AuprcSpec.positives y <> 0 ->
  separated y s ->
  exists q, a = Fin q /\ (q == 1)%Q.
Proof.
  intros Ec Ea Hpos Hsep.
  pose proof (curve_lengths _ _ _ _ _ Ec) as Hlen.
  destruct (precision_recall_curve_swept _ _ _ _ _ Ec) as (Hin & Hs & _ & _).
  destruct (precision_recall_curve_truncated _ _ _ _ _ Ec)
    as (t0 & rest & -> & Hfull & Hmax & _).
  assert (HP : 0 < AuprcSpec.positives y).
  { pose proof (count_nonneg AuprcSpec.is_positive y). unfold AuprcSpec.positives in *. lia. }
  destruct (lowest_positive (combine y s)) as ([ym m] & Hm & Hpm & Hmin).
  { destruct (List.Exists_dec (fun v => AuprcSpec.is_positive v = true) y) as [Hex|Hno].
    { intros v. destruct (AuprcSpec.is_positive v); [left; reflexivity|right; discriminate]. }
    - apply List.Exists_exists in Hex as (v & Hv & Hpv).
      destruct (in_combine_fst y s v Hlen Hv) as (b & Hb). exists (v, b). split; assumption.
    - exfalso. apply Hpos. apply count_none. intros v Hv.
      destruct (AuprcSpec.is_positive v) eqn:E; [|reflexivity].
      exfalso. apply Hno. apply List.Exists_exists. exists v. split; assumption. }
  cbn [fst snd] in Hpm, Hmin.
  assert (Hm_full : AuprcSpec.true_positives_at y s m = AuprcSpec.positives y).
  { unfold AuprcSpec.true_positives_at, AuprcSpec.positives.
    rewrite <- (count_combine_fst AuprcSpec.is_positive y s Hlen).
    apply count_ext. intros [yi si] Hi. cbn [fst snd].
    destruct (AuprcSpec.is_positive yi) eqn:E; [|reflexivity].
    unfold AuprcSpec.reached. apply Qle_bool_iff. apply (Hmin (yi, si) Hi E). }
  assert (Hm0 : (m <= t0)%Q) by (apply Hmax; [apply (in_combine_r _ _ _ _ Hm)|exact Hm_full]).
  assert (Hpoint : forall t, In t (t0 :: rest) ->
            (m <= t)%Q /\ AuprcSpec.false_positives_at y s t = 0
            /\ 0 < AuprcSpec.true_positives_at y s t).
  { intros t Ht.
    assert (Hmt : (m <= t)%Q).
    { destruct Ht as [<-|Ht]; [exact Hm0|].
      apply StronglySorted_inv in Hs as [_ Hs]. rewrite List.Forall_forall in Hs.
      specialize (Hs t Ht). lra. }
    assert (Hneg : forall yj sj, In (yj, sj) (combine y s) ->
                   AuprcSpec.is_positive yj = false -> (sj < t)%Q).
    { intros yj sj Hj Hn. specialize (Hsep ym m yj sj Hm Hj Hpm Hn). lra. }
    split; [exact Hmt|]. split.
    - apply count_none. intros [yj sj] Hj. cbn [fst snd].
      destruct (AuprcSpec.is_positive yj) eqn:E; [reflexivity|]. cbn [negb andb].
      unfold AuprcSpec.reached. apply not_true_is_false. intros Hc.
      apply Qle_bool_iff in Hc. specialize (Hneg yj sj Hj E). lra.
    - rewrite List.Forall_forall in Hin.
      destruct (in_combine_snd y s t Hlen (Hin t Ht)) as (yt & Hyt).
      apply count_pos_exists. exists (yt, t). split; [exact Hyt|]. cbn [fst snd].
      destruct (AuprcSpec.is_positive yt) eqn:E.
      + unfold AuprcSpec.reached. apply Qle_bool_iff, Qle_refl.
      + specialize (Hneg yt t Hyt E). lra. }
  destruct (curve_in_rationals _ _ _ _ _ Ec Hpos) as (pq & rq & -> & -> & Hpq & Hrq & Hy & Hx & Hd).
  destruct (auc_descending_value _ _ _ Ea Hy Hd) as (q & -> & Hq & Hl).
  exists q. split; [reflexivity|].
  assert (Hones : Forall (fun v => (v == 1)%Q) pq).
  { apply (Forall_Qeq (fun v => (v == 1)%Q) _ _
             ltac:(intros x x' E H; cbn beta in *; lra) Hpq).
    apply Forall_app. split; [|repeat constructor].
    apply List.Forall_forall. intros v Hv. apply in_map_iff in Hv as (t & <- & Ht).
    destruct (Hpoint t Ht) as (_ & Hfp & Htp). unfold precision_of. rewrite Hfp.
    apply ratio_same, Htp. }
  rewrite (trapzQ_unit pq rq Hl Hones) in Hq.
  destruct (Forall2_Qeq_ends _ _ Hrq) as [Hhd Hlast].
  rewrite Hq, Hhd, Hlast. simpl map. rewrite last_last.
  cbn [app hd]. unfold recall_of. rewrite Hfull.
  unfold Spec.ratio. destruct (Z.eqb_spec (AuprcSpec.positives y) 0); [contradiction|].
  field. change 0%Q with (inject_Z 0). rewrite inject_Z_injective. exact Hpos.
Qed.

End Separation.

Section PerfectRanking.

Lemma take_column_combine {B : Type} (f : Z -> B) (probs : list (list Q)) (labels : list Z)
    (c : nat) (scores : list Q) (yi : B) (si : Q) :
  np.take_column probs c = Return scores ->
  In (yi, si) (combine (map f labels) scores) ->
  exists l row, In (l, row) (combine labels probs) /\ yi = f l /\ nth c row 0%Q = si.
Proof.
  unfold np.take_column. intros H. apply traverse_Forall2 in H.
  revert labels. induction H as [|row v probs scores Hv _ IH]; intros [|l labels] Hin;
    try (destruct Hin; fail).
  destruct Hin as [E|Hin].
  - injection E as <- <-. exists l, row. split; [left; reflexivity|]. split; [reflexivity|].
    destruct (nth_error row c) as [v'|] eqn:Ev; [|discriminate]. injection Hv as <-.
    apply nth_error_nth, Ev.
  - destruct (IH labels Hin) as (l' & row' & H' & E1 & E2).
    exists l', row'. split; [right; exact H'|]. split; assumption.
Qed.

Lemma one_vs_rest_separated (probs : list (list Q)) (labels : list Z) (c : nat)
    (scores : list Q) :
  np.take_column probs c = Return scores ->
  ranks_class_first probs labels c ->
  separated (AuprcSpec.one_vs_rest c labels) scores.
Proof.
  intros Hcol Hrank yi si yj sj Hi Hj Hpi Hnj. unfold AuprcSpec.one_vs_rest in Hi, Hj.
  destruct (take_column_combine _ probs labels c scores yi si Hcol Hi) as (l & row & Hl & -> & <-).
  destruct (take_column_combine _ probs labels c scores yj sj Hcol Hj) as (l' & row' & Hl' & -> & <-).
  apply (Hrank l row l' row' Hl Hl').
  - destruct (Z.eqb_spec l (Z.of_nat c)); [assumption|discriminate].
  - destruct (Z.eqb_spec l' (Z.of_nat c)); [discriminate|assumption].
Qed.

Lemma class_area_separated (probs : list (list Q)) (labels : list Z) (c : nat) (a : float) :
  AuprcSpec.class_area probs labels c = Return a ->
  class_present labels c ->
  ranks_class_first probs labels c ->
  exists q, a = Fin q /\ (q == 1)%Q.
Proof.
  unfold AuprcSpec.class_area. intros H Hc Hrank.
  destruct (np.take_column probs c) as [scores|e] eqn:Ecol; [|discriminate].
  cbn [mbind outcome_bind] in H.
  destruct (sklearn.precision_recall_curve _ scores) as [[[p r] ths]|e] eqn:E; [|discriminate].
  cbn [mbind outcome_bind] in H.
  apply (curve_area_separated _ _ _ _ _ _ E H).
  - rewrite positives_one_vs_rest, count_zero_not_in. unfold class_present in Hc. tauto.
  - apply (one_vs_rest_separated probs labels c scores Ecol Hrank).
Qed.

Lemma sum_of_ones (qs : list Q) :
  Forall (fun v => (v == 1)%Q) qs ->
  (fold_right Qplus 0 qs == inject_Z (Z.of_nat (length qs)))%Q.
Proof.
  induction 1 as [|q qs Hq _ IH]; [reflexivity|].
  cbn [fold_right length]. rewrite Nat2Z.inj_succ, <- Z.add_1_r, inject_Z_plus.
  change (inject_Z 1) with 1%Q. rewrite IH, Hq. ring.
Qed.

End PerfectRanking.

(** X23. On a well-formed batch in which every class occurs and, for every
    class, the column of the class scores each example of the class
    strictly above every other example, [klue_re_auprc] returns 100. *)
Theorem klue_re_auprc_perfect_ranking (probs : list (list Q)) (labels : list Z) :
  Batch.well_formed probs labels ->
  (forall c, (c < 30)%nat -> class_present labels c) ->
  (forall c, (c < 30)%nat -> ranks_class_first probs labels c) ->
  exists v, klue_re_auprc probs labels = Return (Fin v) /\ (v == 100)%Q.
Proof.
  intros Hwf Hall Hrank. destruct (klue_re_auprc_areas probs labels Hwf) as (areas & Hareas & ->).
  assert (Hb : exists qs, areas = map Fin qs /\ Forall (fun v => (v == 1)%Q) qs).
  { assert (Hin : forall c, In c (seq 0 30) -> (c < 30)%nat)
      by (intros c Hc; apply in_seq in Hc; lia).
    clear -Hareas Hin Hall Hrank. induction Hareas as [|c a cs areas Hc _ IH].
    - exists []. split; constructor.
    - destruct IH as (qs & -> & Hqs); [intros c' Hc'; apply Hin; right; exact Hc'|].
      pose proof (Hin c (or_introl eq_refl)) as Hlt.
      destruct (class_area_separated _ _ _ _ Hc (Hall c Hlt) (Hrank c Hlt)) as (q & -> & Hq).
      exists (q :: qs). split; [reflexivity|constructor; assumption]. }
  destruct Hb as (qs & -> & Hqs).
  assert (Hlen : length qs = 30%nat).
  { apply Forall2_length in Hareas. rewrite length_seq, length_map in Hareas. lia. }
  pose proof (sum_of_ones qs Hqs) as Hsum. rewrite Hlen in Hsum.
  unfold AuprcSpec.mean30. rewrite sum_map_Fin.
  eexists. split; [reflexivity|].
  change (inject_Z (Z.of_nat 30)) with 30%Q in Hsum. rewrite Hsum. reflexivity.
Qed.

Lemma klue_re_auprc_perfect_ranking_witness :
  exists v, klue_re_auprc identity_probs identity_labels = Return (Fin v) /\ (v == 100)%Q.
Proof.
  apply (klue_re_auprc_perfect_ranking identity_probs identity_labels).
  - constructor; [discriminate|reflexivity| |].
    + apply List.Forall_forall. intros l Hl. apply in_map_iff in Hl as (c & <- & Hc).
      apply in_seq in Hc. lia.
    + apply List.Forall_forall. intros row Hrow. apply in_map_iff in Hrow as (c & <- & _).
      reflexivity.
  - intros c Hc. apply in_map. apply in_seq. lia.
  - intros c Hc. apply ranks_class_first_check.
    assert (H : forallb (ranks_class_firstb identity_probs identity_labels) (seq 0 30) = true)
      by (vm_compute; reflexivity).
    rewrite forallb_forall in H. apply H. apply in_seq. lia.
Defined.

(** ** AUPRC: the area against the reference sweep *)

Section Thresholds.








End Thresholds.

Section ReferenceArea.












End ReferenceArea.

Section MacroAverage.




End MacroAverage.


